(** * Chrono: state bookkeeping of DOF owners, bilateral constraints, chase-camera stepping

    A shallow embedding of
    - [ChNodeBase] (chrono/physics/ChNodeBase.h): offsets in the state
      vectors, the overridable DOF counters and the default hooks;
    - [ChConstraintBilateral] (chrono_multicore): the constraint-type
      enumeration, the constructor, and the sparsity / Jacobian passes;
    - [ChVehicleVisualSystemVSG::Advance]: the sub-stepping loop of the
      chase camera.

    Conventions.  A C++ [unsigned int] is a [Z] reduced modulo [2^32] where
    the code stores it; an [int] is a [Z].  A [double] is an exact rational
    ([Q]) where the code computes a value from it; in the sub-stepping
    loops, whose course depends on the rounding of every sum, it is a
    [binary64], a significand and an exponent, with sums and differences
    rounded to 53 bits.  A virtual method is a field of the
    class table [NodeClass] holding the override of a derived class, if any;
    calling the method dispatches on that field and falls back on the body
    written in [ChNodeBase]. *)

From Stdlib Require Import ZArith QArith Qround Qabs Qpower SpecFloat Lia Lqa List Bool Ascii.
From stdpp Require Import base option list gmap.

Local Open Scope Z_scope.

(* ===================================================================== *)
(** * Definitions *)
(* ===================================================================== *)

(** A [double], without rounding. *)
Abbreviation double := Q (only parsing).

(** Conversion to [unsigned int] (32 bits). *)
Definition to_unsigned (z : Z) : Z := z mod 2 ^ 32.

(** Virtual dispatch: the override of the most derived class when there is
    one, the base-class body otherwise. *)
Definition dispatch {A : Type} (override : option A) (base : A) : A :=
  match override with
  | Some f => f
  | None => base
  end.

(** ** ChNodeBase *)

Section NodeBase.
(** [Members]: the data members added by derived classes.  [ChState],
    [ChStateDelta] and [ChSystemDescriptor] are declared in headers that
    [ChNodeBase.h] includes. *)
Context {Members ChState ChStateDelta ChVectorDynamic ChSystemDescriptor : Type}.

(** The two protected data members of the class, and the rest of the
    object. *)
Record ChNodeBase : Type := {
  offset_x : Z;  (* offset in vector of state (position part) *)
  offset_w : Z;  (* offset in vector of state (speed part) *)
  members : Members
}.

(** What the hooks can reach through [this] and their reference
    parameters: the node itself, the state vectors [x], [v] and [a], the
    time [T], the residual [R] and the system descriptor. *)
Record World : Type := {
  w_this : ChNodeBase;
  w_x : ChState;
  w_v : ChStateDelta;
  w_a : ChStateDelta;
  w_T : double;
  w_R : ChVectorDynamic;
  w_descriptor : ChSystemDescriptor
}.

(** The class table: [GetNdofX] is pure virtual, every other virtual
    method may or may not be overridden.  The DOF counters of a derived
    class are [const] and read the members of that class. *)
Record NodeClass : Type := {
  GetNdofX_impl : Members -> Z;
  GetNdofW_override : option (Members -> Z);
  GetNdofX_active_override : option (Members -> Z);
  GetNdofW_active_override : option (Members -> Z);
  UseFullDof_override : option (Members -> bool);
  NodeIntStateGather_override : option (Z -> Z -> World -> World);
  NodeIntStateScatter_override : option (Z -> Z -> World -> World);
  NodeIntStateGatherAcceleration_override : option (Z -> World -> World);
  NodeIntStateScatterAcceleration_override : option (Z -> World -> World);
  NodeIntLoadResidual_F_override : option (Z -> double -> World -> World);
  NodeIntLoadResidual_Mv_override :
    option (Z -> ChVectorDynamic -> double -> World -> World);
  NodeIntToDescriptor_override : option (Z -> World -> World);
  NodeIntFromDescriptor_override : option (Z -> World -> World);
  InjectVariables_override : option (World -> World);
  VariablesFbReset_override : option (World -> World);
  VariablesFbLoadForces_override : option (double -> World -> World);
  VariablesQbLoadSpeed_override : option (World -> World);
  VariablesFbIncrementMq_override : option (World -> World);
  VariablesQbSetSpeed_override : option (double -> World -> World);
  VariablesQbIncrementPosition_override : option (double -> World -> World)
}.

Section Methods.
Variable cls : NodeClass.

(** [virtual int GetNdofX() const = 0;] *)
Definition GetNdofX (this : ChNodeBase) : Z := GetNdofX_impl cls (members this).

(** [virtual int GetNdofW() const { return GetNdofX(); }] *)
Definition GetNdofW (this : ChNodeBase) : Z :=
  dispatch (GetNdofW_override cls) (fun _ => GetNdofX this) (members this).

(** [virtual int GetNdofX_active() const { return GetNdofX(); }] *)
Definition GetNdofX_active (this : ChNodeBase) : Z :=
  dispatch (GetNdofX_active_override cls) (fun _ => GetNdofX this) (members this).

(** [virtual int GetNdofW_active() const { return GetNdofW(); }] *)
Definition GetNdofW_active (this : ChNodeBase) : Z :=
  dispatch (GetNdofW_active_override cls) (fun _ => GetNdofW this) (members this).

(** [virtual bool UseFullDof() const { return true; }] *)
Definition UseFullDof (this : ChNodeBase) : bool :=
  dispatch (UseFullDof_override cls) (fun _ => true) (members this).

(** [NodeIntStateGather(off_x, x, off_v, v, T) {}] *)
Definition NodeIntStateGather (off_x off_v : Z) (w : World) : World :=
  dispatch (NodeIntStateGather_override cls) (fun _ _ w => w) off_x off_v w.

(** [NodeIntStateScatter(off_x, x, off_v, v, T) {}] *)
Definition NodeIntStateScatter (off_x off_v : Z) (w : World) : World :=
  dispatch (NodeIntStateScatter_override cls) (fun _ _ w => w) off_x off_v w.

(** [NodeIntStateGatherAcceleration(off_a, a) {}] *)
Definition NodeIntStateGatherAcceleration (off_a : Z) (w : World) : World :=
  dispatch (NodeIntStateGatherAcceleration_override cls) (fun _ w => w) off_a w.

(** [NodeIntStateScatterAcceleration(off_a, a) {}] *)
Definition NodeIntStateScatterAcceleration (off_a : Z) (w : World) : World :=
  dispatch (NodeIntStateScatterAcceleration_override cls) (fun _ w => w) off_a w.

(** [NodeIntLoadResidual_F(off, R, c) {}] *)
Definition NodeIntLoadResidual_F (off : Z) (c : double) (w : World) : World :=
  dispatch (NodeIntLoadResidual_F_override cls) (fun _ _ w => w) off c w.

(** [NodeIntLoadResidual_Mv(off, R, w, c) {}] *)
Definition NodeIntLoadResidual_Mv (off : Z) (wv : ChVectorDynamic) (c : double)
    (w : World) : World :=
  dispatch (NodeIntLoadResidual_Mv_override cls) (fun _ _ _ w => w) off wv c w.

(** [NodeIntToDescriptor(off_v, v, R) {}] *)
Definition NodeIntToDescriptor (off_v : Z) (w : World) : World :=
  dispatch (NodeIntToDescriptor_override cls) (fun _ w => w) off_v w.

(** [NodeIntFromDescriptor(off_v, v) {}] *)
Definition NodeIntFromDescriptor (off_v : Z) (w : World) : World :=
  dispatch (NodeIntFromDescriptor_override cls) (fun _ w => w) off_v w.

(** [InjectVariables(ChSystemDescriptor& mdescriptor) {}] *)
Definition InjectVariables (w : World) : World :=
  dispatch (InjectVariables_override cls) (fun w => w) w.

(** [VariablesFbReset() {}] *)
Definition VariablesFbReset (w : World) : World :=
  dispatch (VariablesFbReset_override cls) (fun w => w) w.

(** [VariablesFbLoadForces(double factor = 1) {}] *)
Definition VariablesFbLoadForces (factor : double) (w : World) : World :=
  dispatch (VariablesFbLoadForces_override cls) (fun _ w => w) factor w.

(** [VariablesQbLoadSpeed() {}] *)
Definition VariablesQbLoadSpeed (w : World) : World :=
  dispatch (VariablesQbLoadSpeed_override cls) (fun w => w) w.

(** [VariablesFbIncrementMq() {}] *)
Definition VariablesFbIncrementMq (w : World) : World :=
  dispatch (VariablesFbIncrementMq_override cls) (fun w => w) w.

(** [VariablesQbSetSpeed(double step = 0) {}] *)
Definition VariablesQbSetSpeed (step : double) (w : World) : World :=
  dispatch (VariablesQbSetSpeed_override cls) (fun _ w => w) step w.

(** [VariablesQbIncrementPosition(double step) {}] *)
Definition VariablesQbIncrementPosition (step : double) (w : World) : World :=
  dispatch (VariablesQbIncrementPosition_override cls) (fun _ w => w) step w.
End Methods.

(** [unsigned int NodeGetOffsetX() { return offset_x; }] *)
Definition NodeGetOffsetX (this : ChNodeBase) : Z := offset_x this.

(** [unsigned int NodeGetOffsetW() { return offset_w; }] *)
Definition NodeGetOffsetW (this : ChNodeBase) : Z := offset_w this.

(** [void NodeSetOffset_x(const unsigned int moff) { offset_x = moff; }] *)
Definition NodeSetOffset_x (moff : Z) (this : ChNodeBase) : ChNodeBase :=
  {| offset_x := to_unsigned moff;
     offset_w := offset_w this;
     members := members this |}.

(** [void NodeSetOffset_w(const unsigned int moff) { offset_w = moff; }] *)
Definition NodeSetOffset_w (moff : Z) (this : ChNodeBase) : ChNodeBase :=
  {| offset_x := offset_x this;
     offset_w := to_unsigned moff;
     members := members this |}.

(** A derived class that overrides none of the four DOF counters that
    have a default. *)
Definition default_dof_counters (cls : NodeClass) : Prop :=
  GetNdofW_override cls = None /\
  GetNdofX_active_override cls = None /\
  GetNdofW_active_override cls = None /\
  UseFullDof_override cls = None.

(** A derived class that overrides neither the gather and scatter of the
    state nor the functions that interface to the solver. *)
Definition default_state_solver_hooks (cls : NodeClass) : Prop :=
  NodeIntStateGather_override cls = None /\
  NodeIntStateScatter_override cls = None /\
  InjectVariables_override cls = None /\
  VariablesFbReset_override cls = None /\
  VariablesFbLoadForces_override cls = None /\
  VariablesQbLoadSpeed_override cls = None /\
  VariablesFbIncrementMq_override cls = None /\
  VariablesQbSetSpeed_override cls = None /\
  VariablesQbIncrementPosition_override cls = None.

(** A derived class that overrides none of the hooks with an empty body. *)
Definition default_hooks (cls : NodeClass) : Prop :=
  default_state_solver_hooks cls /\
  NodeIntStateGatherAcceleration_override cls = None /\
  NodeIntStateScatterAcceleration_override cls = None /\
  NodeIntLoadResidual_F_override cls = None /\
  NodeIntLoadResidual_Mv_override cls = None /\
  NodeIntToDescriptor_override cls = None /\
  NodeIntFromDescriptor_override cls = None.

(** The class that supplies [GetNdofX] and nothing else. *)
Definition plain_class (ndof : Members -> Z) : NodeClass :=
  {| GetNdofX_impl := ndof;
     GetNdofW_override := None;
     GetNdofX_active_override := None;
     GetNdofW_active_override := None;
     UseFullDof_override := None;
     NodeIntStateGather_override := None;
     NodeIntStateScatter_override := None;
     NodeIntStateGatherAcceleration_override := None;
     NodeIntStateScatterAcceleration_override := None;
     NodeIntLoadResidual_F_override := None;
     NodeIntLoadResidual_Mv_override := None;
     NodeIntToDescriptor_override := None;
     NodeIntFromDescriptor_override := None;
     InjectVariables_override := None;
     VariablesFbReset_override := None;
     VariablesFbLoadForces_override := None;
     VariablesQbLoadSpeed_override := None;
     VariablesFbIncrementMq_override := None;
     VariablesQbSetSpeed_override := None;
     VariablesQbIncrementPosition_override := None |}.

(** *** The member functions as operations

    Every member function that [ChNodeBase.h] defines inline, with its
    arguments.  All of them are declared under [public:]. *)
Inductive NodeOp : Type :=
| Op_GetNdofX
| Op_GetNdofW
| Op_GetNdofX_active
| Op_GetNdofW_active
| Op_UseFullDof
| Op_NodeGetOffsetX
| Op_NodeGetOffsetW
| Op_NodeSetOffset_x (moff : Z)
| Op_NodeSetOffset_w (moff : Z)
| Op_NodeIntStateGather (off_x off_v : Z)
| Op_NodeIntStateScatter (off_x off_v : Z)
| Op_NodeIntStateGatherAcceleration (off_a : Z)
| Op_NodeIntStateScatterAcceleration (off_a : Z)
| Op_NodeIntLoadResidual_F (off : Z) (c : double)
| Op_NodeIntLoadResidual_Mv (off : Z) (wv : ChVectorDynamic) (c : double)
| Op_NodeIntToDescriptor (off_v : Z)
| Op_NodeIntFromDescriptor (off_v : Z)
| Op_InjectVariables
| Op_VariablesFbReset
| Op_VariablesFbLoadForces (factor : double)
| Op_VariablesQbLoadSpeed
| Op_VariablesFbIncrementMq
| Op_VariablesQbSetSpeed (step : double)
| Op_VariablesQbIncrementPosition (step : double).

(** The setters act on the node of the world. *)
Definition on_this (f : ChNodeBase -> ChNodeBase) (w : World) : World :=
  {| w_this := f (w_this w);
     w_x := w_x w;
     w_v := w_v w;
     w_a := w_a w;
     w_T := w_T w;
     w_R := w_R w;
     w_descriptor := w_descriptor w |}.

(** The effect of one call on the world.  The [const] member functions
    return a value and change nothing. *)
Definition run_op (cls : NodeClass) (op : NodeOp) (w : World) : World :=
  match op with
  | Op_GetNdofX | Op_GetNdofW | Op_GetNdofX_active | Op_GetNdofW_active
  | Op_UseFullDof | Op_NodeGetOffsetX | Op_NodeGetOffsetW => w
  | Op_NodeSetOffset_x moff => on_this (NodeSetOffset_x moff) w
  | Op_NodeSetOffset_w moff => on_this (NodeSetOffset_w moff) w
  | Op_NodeIntStateGather off_x off_v => NodeIntStateGather cls off_x off_v w
  | Op_NodeIntStateScatter off_x off_v => NodeIntStateScatter cls off_x off_v w
  | Op_NodeIntStateGatherAcceleration off_a =>
      NodeIntStateGatherAcceleration cls off_a w
  | Op_NodeIntStateScatterAcceleration off_a =>
      NodeIntStateScatterAcceleration cls off_a w
  | Op_NodeIntLoadResidual_F off c => NodeIntLoadResidual_F cls off c w
  | Op_NodeIntLoadResidual_Mv off wv c => NodeIntLoadResidual_Mv cls off wv c w
  | Op_NodeIntToDescriptor off_v => NodeIntToDescriptor cls off_v w
  | Op_NodeIntFromDescriptor off_v => NodeIntFromDescriptor cls off_v w
  | Op_InjectVariables => InjectVariables cls w
  | Op_VariablesFbReset => VariablesFbReset cls w
  | Op_VariablesFbLoadForces factor => VariablesFbLoadForces cls factor w
  | Op_VariablesQbLoadSpeed => VariablesQbLoadSpeed cls w
  | Op_VariablesFbIncrementMq => VariablesFbIncrementMq cls w
  | Op_VariablesQbSetSpeed step => VariablesQbSetSpeed cls step w
  | Op_VariablesQbIncrementPosition step => VariablesQbIncrementPosition cls step w
  end.

Definition is_offset_setter (op : NodeOp) : bool :=
  match op with
  | Op_NodeSetOffset_x _ | Op_NodeSetOffset_w _ => true
  | _ => false
  end.

(** Access control of the class.  The member functions above are all
    [public]; the class declares no friend. *)
Inductive Access : Type := Public | Protected | Private.

Definition op_access (op : NodeOp) : Access := Public.

(** Who calls: the manager of the global state vectors, or any other
    component of the system (neither derives from [ChNodeBase]). *)
Inductive Component : Type := StateVectorManager | OtherComponent.

Definition may_call (who : Component) (op : NodeOp) : bool :=
  match op_access op with
  | Public => true
  | Protected | Private => false
  end.

Definition offsets_of (w : World) : Z * Z :=
  (offset_x (w_this w), offset_w (w_this w)).

(** The offsets are read-only outside the manager: no call that another
    component may make changes them. *)
Definition offsets_manager_only (cls : NodeClass) : Prop :=
  forall (who : Component) (op : NodeOp) (w : World),
    who <> StateVectorManager ->
    may_call who op = true ->
    offsets_of (run_op cls op w) = offsets_of w.

(** ** DOF owners and the manager of the global state vectors *)

(** Modelled from the spec: the kinds of entities that own degrees of
    freedom (rigid bodies, 1-D shafts, FEA nodes); the classes of the bodies
    and of the shafts are not among the sources. *)
Inductive OwnerKind : Type := RigidBody | Shaft | FEANode.

(** Modelled from the spec: a DOF owner, an object with the [ChNodeBase]
    interface together with its kind and its dynamic type. *)
Record DofOwner : Type := {
  owner_kind : OwnerKind;
  owner_class : NodeClass;
  owner_node : ChNodeBase
}.

Definition owner_offset_x (o : DofOwner) : Z := NodeGetOffsetX (owner_node o).
Definition owner_offset_w (o : DofOwner) : Z := NodeGetOffsetW (owner_node o).
Definition owner_ndof_x_active (o : DofOwner) : Z :=
  GetNdofX_active (owner_class o) (owner_node o).
Definition owner_ndof_w_active (o : DofOwner) : Z :=
  GetNdofW_active (owner_class o) (owner_node o).

(** Modelled from the spec: the counts that [Setup] assigns to an owner;
    the manager that calls [NodeSetOffset_x] and [NodeSetOffset_w] is not
    among the sources.  "If [UseFullDof()] assign [ndof_x]/[ndof_w], else
    assign [ndof_x_active]/[ndof_w_active]". *)
Definition assigned_ndof_x (o : DofOwner) : Z :=
  if UseFullDof (owner_class o) (owner_node o)
  then GetNdofX (owner_class o) (owner_node o)
  else GetNdofX_active (owner_class o) (owner_node o).

(** Modelled from the spec: the same for the velocity part. *)
Definition assigned_ndof_w (o : DofOwner) : Z :=
  if UseFullDof (owner_class o) (owner_node o)
  then GetNdofW (owner_class o) (owner_node o)
  else GetNdofW_active (owner_class o) (owner_node o).

(** Modelled from the spec: the manager assigns both offsets of an owner,
    through the two setters of [ChNodeBase]. *)
Definition assign_offsets (off_x off_w : Z) (o : DofOwner) : DofOwner :=
  {| owner_kind := owner_kind o;
     owner_class := owner_class o;
     owner_node := NodeSetOffset_w off_w (NodeSetOffset_x off_x (owner_node o)) |}.

(** Modelled from the spec: [Setup(owners)], the pass of the manager over
    the owners in registration order, "accumulate running offset".  It
    returns the owners with their offsets set and the two accumulated
    sizes. *)
Fixpoint Setup_from (off_x off_w : Z) (owners : list DofOwner)
    : list DofOwner * (Z * Z) :=
  match owners with
  | [] => ([], (off_x, off_w))
  | o :: rest =>
      let r := Setup_from (off_x + assigned_ndof_x o) (off_w + assigned_ndof_w o) rest in
      (assign_offsets off_x off_w o :: fst r, snd r)
  end.

(** Modelled from the spec: the running offsets start at 0. *)
Definition Setup (owners : list DofOwner) : list DofOwner * (Z * Z) :=
  Setup_from 0 0 owners.

(** Sums over a registration sequence. *)
Definition sum_of (f : DofOwner -> Z) (owners : list DofOwner) : Z :=
  foldr (fun o acc => f o + acc) 0 owners.

(** An owner whose counters agree with each other: no negative count, and
    [UseFullDof] holds only when all the DOFs are active ("Return true if
    all node DOFs are active"). *)
Definition consistent_owner (o : DofOwner) : Prop :=
  0 <= owner_ndof_x_active o /\
  0 <= owner_ndof_w_active o /\
  (UseFullDof (owner_class o) (owner_node o) = true ->
     owner_ndof_x_active o = GetNdofX (owner_class o) (owner_node o) /\
     owner_ndof_w_active o = GetNdofW (owner_class o) (owner_node o)).

(** A valid registration sequence: consistent owners whose state fits the
    [unsigned int] offsets. *)
Definition valid_registration (owners : list DofOwner) : Prop :=
  Forall consistent_owner owners /\
  sum_of owner_ndof_x_active owners < 2 ^ 32 /\
  sum_of owner_ndof_w_active owners < 2 ^ 32.

End NodeBase.

Arguments ChNodeBase : clear implicits.
Arguments World : clear implicits.
Arguments NodeClass : clear implicits.
Arguments NodeOp : clear implicits.
Arguments DofOwner : clear implicits.

(** ** ChConstraintBilateral *)

(** [enum Type] of the class. *)
Inductive BilateralType : Type :=
| BODY_BODY          (* constraints between two rigid bodies *)
| SHAFT_SHAFT        (* constraints between two 1-D shaft elements *)
| SHAFT_SHAFT_SHAFT  (* constraints involving 3 1-D shaft elements *)
| SHAFT_BODY         (* constraints between a shaft and a rigid body *)
| SHAFT_SHAFT_BODY   (* constraints involving two shafts and one rigid body *)
| UNKNOWN.           (* unknow constraint type *)

Definition all_types : list BilateralType :=
  [BODY_BODY; SHAFT_SHAFT; SHAFT_SHAFT_SHAFT; SHAFT_BODY; SHAFT_SHAFT_BODY; UNKNOWN].

Definition kind_eqb (a b : OwnerKind) : bool :=
  match a, b with
  | RigidBody, RigidBody | Shaft, Shaft | FEANode, FEANode => true
  | _, _ => false
  end.

Definition count_kind (k : OwnerKind) (ks : list OwnerKind) : nat :=
  length (List.filter (kind_eqb k) ks).

(** Modelled from the spec: the classification by the kinds of the connected
    owners; no function of the sources computes a [Type].  The comments of
    the enumeration say how many owners of each kind a type connects. *)
Definition classify_kinds (ks : list OwnerKind) : BilateralType :=
  match count_kind RigidBody ks, count_kind Shaft ks, count_kind FEANode ks with
  | 2, 0, 0 => BODY_BODY
  | 0, 2, 0 => SHAFT_SHAFT
  | 0, 3, 0 => SHAFT_SHAFT_SHAFT
  | 1, 1, 0 => SHAFT_BODY
  | 1, 2, 0 => SHAFT_SHAFT_BODY
  | _, _, _ => UNKNOWN
  end%nat.

(** Modelled from the spec: the owner pairings that have a Jacobian rule,
    one per type of the enumeration other than [UNKNOWN]. *)
Definition jacobian_rules : list (list OwnerKind * BilateralType) :=
  [ ([RigidBody; RigidBody], BODY_BODY);
    ([Shaft; Shaft], SHAFT_SHAFT);
    ([Shaft; Shaft; Shaft], SHAFT_SHAFT_SHAFT);
    ([Shaft; RigidBody], SHAFT_BODY);
    ([Shaft; Shaft; RigidBody], SHAFT_SHAFT_BODY) ].

(** Modelled from the spec: the owners of a constraint have a Jacobian rule
    when they are those of a pairing of the table, in any order. *)
Definition has_jacobian_rule (ks : list OwnerKind) : Prop :=
  exists p t, In (p, t) jacobian_rules /\ Permutation ks p.

(** The outcome of running a constructor. *)
Inductive Construction (A : Type) : Type :=
| Constructed (obj : A)
| Rejected.
Arguments Constructed {A} obj.
Arguments Rejected {A}.

Section Bilateral.
Context {Members ChState ChStateDelta ChVectorDynamic ChSystemDescriptor : Type}.

Local Abbreviation Owner :=
  (DofOwner Members ChState ChStateDelta ChVectorDynamic ChSystemDescriptor).

(** Modelled from the spec: one scalar bilateral equation.  It connects two
    or three owners, owns a row of the Jacobian, and the joint that created
    it supplies the partial derivatives ([jacobian c i j]: owner [i],
    velocity DOF [j]). *)
Record Constraint : Type := {
  anchors : list Owner;
  row : nat;
  jacobian : nat -> nat -> double;
  correction : double;
  compliance : double
}.

(** Modelled from the spec: the kinds of the owners at the anchors. *)
Definition connected_kinds (c : Constraint) : list OwnerKind :=
  owner_kind <$> anchors c.

(** Modelled from the spec: [Classify(constraint) -> Type] "inspects the
    concrete owner types connected by the constraint's two or three
    anchors; returns UNKNOWN if the pairing is unsupported". *)
Definition Classify (c : Constraint) : BilateralType :=
  classify_kinds (connected_kinds c).

(** Modelled from the spec: the part of [ChMulticoreDataManager] (declared
    in chrono_multicore/ChDataManager.h, not among the sources) that the
    bilateral passes use: the active constraints and the sparse Jacobian, a
    finite map from (row, column) slots to values. *)
Record ChMulticoreDataManager : Type := {
  bilaterals : list Constraint;
  D : gmap (nat * Z) double
}.

(** Modelled from the spec: the sparsity pattern, "the fixed set of non-zero
    block locations", is the set of slots that the Jacobian stores. *)
Definition sparsity_pattern (dm : ChMulticoreDataManager) : gset (nat * Z) :=
  dom (D dm).

(** [ChMulticoreDataManager* data_manager;], not initialised by the
    constructor. *)
Record ChConstraintBilateral : Type := {
  data_manager : option ChMulticoreDataManager
}.

(** [ChConstraintBilateral() {}] *)
Definition ChConstraintBilateral_new : Construction ChConstraintBilateral :=
  Constructed {| data_manager := None |}.

(** [void Setup(ChMulticoreDataManager* data_container_)
      { data_manager = data_container_; }] *)
Definition ChConstraintBilateral_Setup (data_container_ : ChMulticoreDataManager)
    (this : ChConstraintBilateral) : ChConstraintBilateral :=
  {| data_manager := Some data_container_ |}.

(** Modelled from the spec: the slots of the block of owner [o], the [i]-th
    owner of [c], with the partial derivatives that belong there: columns
    [offset_w, offset_w + ndof_w_active) of the row of [c]. *)
Definition block_entries (c : Constraint) (i : nat) (o : Owner)
    : list ((nat * Z) * double) :=
  (fun j : nat => ((row c, owner_offset_w o + Z.of_nat j), jacobian c i j))
    <$> seq 0 (Z.to_nat (owner_ndof_w_active o)).

(** Modelled from the spec: the blocks of a constraint, one per owner. *)
Definition constraint_entries (c : Constraint) : list ((nat * Z) * double) :=
  concat (imap (block_entries c) (anchors c)).

(** Modelled from the spec: every active constraint in order, every owner
    it connects in order. *)
Definition jacobian_entries (dm : ChMulticoreDataManager)
    : list ((nat * Z) * double) :=
  concat (constraint_entries <$> bilaterals dm).

(** Modelled from the spec: the slots of all the blocks. *)
Definition jacobian_slots (dm : ChMulticoreDataManager) : list (nat * Z) :=
  fst <$> jacobian_entries dm.

(** Modelled from the spec: marking slots, one after the other.  The header
    says that [GenerateSparsity] fills the non-zero entries with ones. *)
Definition mark_slots (J : gmap (nat * Z) double) (slots : list (nat * Z))
    : gmap (nat * Z) double :=
  foldl (fun J k => <[k := 1%Q]> J) J slots.

(** Modelled from the spec: [GenerateSparsity()], whose body is not among
    the sources.  "For every active constraint, for every owner it connects,
    mark the column block as non-zero in that constraint's row block". *)
Definition GenerateSparsity (dm : ChMulticoreDataManager) : ChMulticoreDataManager :=
  {| bilaterals := bilaterals dm;
     D := mark_slots (D dm) (jacobian_slots dm) |}.

(** Modelled from the spec: a write into a slot, which has to exist ("write
    into the pre-existing sparsity slots", "no allocation is performed
    here"); a slot that the pattern lacks is the fatal
    structural-consistency violation. *)
Definition write_slot (J : gmap (nat * Z) double) (e : (nat * Z) * double)
    : option (gmap (nat * Z) double) :=
  match J !! e.1 with
  | Some _ => Some (<[e.1 := e.2]> J)
  | None => None
  end.

(** Modelled from the spec: the writes in order, up to the first failure. *)
Fixpoint write_slots (J : gmap (nat * Z) double) (es : list ((nat * Z) * double))
    : option (gmap (nat * Z) double) :=
  match es with
  | [] => Some J
  | e :: es' =>
      match write_slot J e with
      | Some J' => write_slots J' es'
      | None => None
      end
  end.

(** Modelled from the spec: [Build_D()], whose body is not among the
    sources.  For every active constraint it writes the partial derivatives
    with respect to the velocity DOFs of each connected owner. *)
Definition Build_D (dm : ChMulticoreDataManager) : option ChMulticoreDataManager :=
  match write_slots (D dm) (jacobian_entries dm) with
  | Some J => Some {| bilaterals := bilaterals dm; D := J |}
  | None => None
  end.

(** GenerateSparsity has established the pattern: every slot of every
    block of every active constraint is in it. *)
Definition pattern_established (dm : ChMulticoreDataManager) : Prop :=
  forall k, k ∈ jacobian_slots dm -> k ∈ sparsity_pattern dm.

End Bilateral.

Arguments Constraint : clear implicits.
Arguments ChMulticoreDataManager : clear implicits.
Arguments ChConstraintBilateral : clear implicits.

(** ** ChVehicleVisualSystemVSG::Advance *)

(** [std::min<>(a, b)]: [b] when [b < a], else [a]. *)
Definition std_min (a b : double) : double :=
  if Qlt_le_dec b a then b else a.

(** The loop of [Advance]:
[[
    double t = 0;
    while (t < step) {
        double h = std::min<>(m_stepsize, step - t);
        m_camera->Update(h);
        t += h;
    }
]]
    The chase camera is an external object: the loop state keeps the
    arguments of the calls of [Update], oldest first.  The result is [None]
    when the fuel runs out before the loop condition fails.

    This is the loop in exact arithmetic.  The code computes [step - t]
    and [t + h] in binary64 and rounds both: it can make a different number
    of iterations, and it no longer advances once [h] is below half the
    spacing of the doubles around [t].  Only what does not depend on the
    rounding is stated of this definition as a property of the code; the
    loop with the rounding is [Advance64_loop] below. *)
Fixpoint Advance_loop (fuel : nat) (m_stepsize step t : double)
    (updates : list double) : option (double * list double) :=
  if Qlt_le_dec t step then
    match fuel with
    | O => None
    | S fuel' =>
        let h := std_min m_stepsize (step - t)%Q in
        Advance_loop fuel' m_stepsize step (t + h)%Q (updates ++ [h])
    end
  else Some (t, updates).

Definition Advance (fuel : nat) (m_stepsize step : double)
    : option (double * list double) :=
  Advance_loop fuel m_stepsize step 0%Q [].

Definition Qsum (l : list double) : double :=
  foldr Qplus 0%Q l.

(** ** Concrete objects used to exercise the statements *)

(** A node class without extra members, with [ndof] degrees of freedom and
    no override. *)
Definition simple_class (ndof : Z) : NodeClass unit unit unit unit unit :=
  plain_class (fun _ => ndof).

Definition simple_node : ChNodeBase unit :=
  {| offset_x := 0; offset_w := 0; members := tt |}.

Definition simple_world : World unit unit unit unit unit :=
  {| w_this := simple_node; w_x := tt; w_v := tt; w_a := tt; w_T := 0%Q;
     w_R := tt; w_descriptor := tt |}.

Definition simple_owner (k : OwnerKind) (ndof : Z) : DofOwner unit unit unit unit unit :=
  {| owner_kind := k; owner_class := simple_class ndof; owner_node := simple_node |}.

(** A rigid-body-like class: seven position coordinates (a quaternion for
    the rotation), six velocity coordinates. *)
Definition quaternion_class : NodeClass unit unit unit unit unit :=
  {| GetNdofX_impl := fun _ => 7;
     GetNdofW_override := Some (fun _ => 6);
     GetNdofX_active_override := None;
     GetNdofW_active_override := None;
     UseFullDof_override := None;
     NodeIntStateGather_override := None;
     NodeIntStateScatter_override := None;
     NodeIntStateGatherAcceleration_override := None;
     NodeIntStateScatterAcceleration_override := None;
     NodeIntLoadResidual_F_override := None;
     NodeIntLoadResidual_Mv_override := None;
     NodeIntToDescriptor_override := None;
     NodeIntFromDescriptor_override := None;
     InjectVariables_override := None;
     VariablesFbReset_override := None;
     VariablesFbLoadForces_override := None;
     VariablesQbLoadSpeed_override := None;
     VariablesFbIncrementMq_override := None;
     VariablesQbSetSpeed_override := None;
     VariablesQbIncrementPosition_override := None |}.

(** A node with three coordinates, one of them fixed. *)
Definition partly_fixed_class : NodeClass unit unit unit unit unit :=
  {| GetNdofX_impl := fun _ => 3;
     GetNdofW_override := None;
     GetNdofX_active_override := Some (fun _ => 2);
     GetNdofW_active_override := Some (fun _ => 2);
     UseFullDof_override := Some (fun _ => false);
     NodeIntStateGather_override := None;
     NodeIntStateScatter_override := None;
     NodeIntStateGatherAcceleration_override := None;
     NodeIntStateScatterAcceleration_override := None;
     NodeIntLoadResidual_F_override := None;
     NodeIntLoadResidual_Mv_override := None;
     NodeIntToDescriptor_override := None;
     NodeIntFromDescriptor_override := None;
     InjectVariables_override := None;
     VariablesFbReset_override := None;
     VariablesFbLoadForces_override := None;
     VariablesQbLoadSpeed_override := None;
     VariablesFbIncrementMq_override := None;
     VariablesQbSetSpeed_override := None;
     VariablesQbIncrementPosition_override := None |}.

Definition example_owners : list (DofOwner unit unit unit unit unit) :=
  [ {| owner_kind := RigidBody; owner_class := quaternion_class;
       owner_node := simple_node |};
    simple_owner Shaft 1;
    {| owner_kind := FEANode; owner_class := partly_fixed_class;
       owner_node := simple_node |};
    simple_owner FEANode 3 ].

(** A constraint between an FEA node and a rigid body. *)
Definition node_body_constraint : Constraint unit unit unit unit unit :=
  {| anchors := [simple_owner FEANode 3; simple_owner RigidBody 6];
     row := 0;
     jacobian := fun _ _ => 1%Q;
     correction := 0%Q;
     compliance := 0%Q |}.

(** A constraint between two rigid bodies, and the same one with the
    bodies listed in the other order. *)
Definition body_body_constraint (r : nat) : Constraint unit unit unit unit unit :=
  {| anchors := [ assign_offsets 0 0 (simple_owner RigidBody 6);
                  assign_offsets 6 6 (simple_owner RigidBody 6) ];
     row := r;
     jacobian := fun i j => (Z.of_nat (1 + i + j) # 2)%Q;
     correction := 0%Q;
     compliance := 0%Q |}.

(** A constraint between a shaft and a rigid body. *)
Definition shaft_body_constraint (r : nat) : Constraint unit unit unit unit unit :=
  {| anchors := [ assign_offsets 12 12 (simple_owner Shaft 1);
                  assign_offsets 6 6 (simple_owner RigidBody 6) ];
     row := r;
     jacobian := fun i j => (Z.of_nat (i + j) # 3)%Q;
     correction := 0%Q;
     compliance := 0%Q |}.

Definition example_data_manager : ChMulticoreDataManager unit unit unit unit unit :=
  {| bilaterals := [body_body_constraint 0; shaft_body_constraint 1];
     D := ∅ |}.

(** ** More of ChNodeBase: sequences of calls *)

Section NodeBaseCalls.
Context {Members ChState ChStateDelta ChVectorDynamic ChSystemDescriptor : Type}.

(** Calls made one after the other on the same node. *)
Definition run_ops
    (cls : NodeClass Members ChState ChStateDelta ChVectorDynamic ChSystemDescriptor)
    (ops : list (NodeOp ChVectorDynamic))
    (w : World Members ChState ChStateDelta ChVectorDynamic ChSystemDescriptor)
    : World Members ChState ChStateDelta ChVectorDynamic ChSystemDescriptor :=
  foldl (fun w op => run_op cls op w) w ops.

(** The argument of the last call of [NodeSetOffset_x] in a sequence, as an
    [unsigned int]; [init] when the sequence has no such call. *)
Definition last_offset_x (ops : list (NodeOp ChVectorDynamic)) (init : Z) : Z :=
  foldl (fun acc op =>
           match op with
           | Op_NodeSetOffset_x moff => to_unsigned moff
           | _ => acc
           end) init ops.

Definition last_offset_w (ops : list (NodeOp ChVectorDynamic)) (init : Z) : Z :=
  foldl (fun acc op =>
           match op with
           | Op_NodeSetOffset_w moff => to_unsigned moff
           | _ => acc
           end) init ops.

End NodeBaseCalls.

(** ** ChVehicleVisualSystemVSG: the keyboard handler *)

(** The code of a character literal, as the comparison [key == 'w']
    promotes it. *)
Definition char_code (c : ascii) : Z := Z.of_N (N_of_ascii c).

(** The member functions of the interactive driver that the visual system
    calls.  The driver is an external object: the model keeps the calls it
    has received, oldest first. *)
Inductive DriverCall : Type :=
| IncreaseSpeed
| DecreaseSpeed
| ChangeSteeringLeft
| ChangeSteeringRight.

(** [m_guiDriver]: null, or a driver with the calls it has received. *)
Record ChVehicleVisualSystemVSG : Type := {
  m_guiDriver : option (list DriverCall)
}.

(** [if (m_guiDriver) { m_guiDriver->...(); }] *)
Definition call_guiDriver (c : DriverCall) (app : ChVehicleVisualSystemVSG)
    : ChVehicleVisualSystemVSG :=
  match m_guiDriver app with
  | Some calls => {| m_guiDriver := Some (calls ++ [c]) |}
  | None => app
  end.

(** [void ChVehicleVisualSystemVSG::increaseThrottle()] *)
Definition increaseThrottle : ChVehicleVisualSystemVSG -> ChVehicleVisualSystemVSG :=
  call_guiDriver IncreaseSpeed.

(** [void ChVehicleVisualSystemVSG::decreaseThrottle()] *)
Definition decreaseThrottle : ChVehicleVisualSystemVSG -> ChVehicleVisualSystemVSG :=
  call_guiDriver DecreaseSpeed.

(** [void ChVehicleVisualSystemVSG::leftTurn()] *)
Definition leftTurn : ChVehicleVisualSystemVSG -> ChVehicleVisualSystemVSG :=
  call_guiDriver ChangeSteeringLeft.

(** [void ChVehicleVisualSystemVSG::rightTurn()] *)
Definition rightTurn : ChVehicleVisualSystemVSG -> ChVehicleVisualSystemVSG :=
  call_guiDriver ChangeSteeringRight.

(** The two fields of [vsg::KeyPressEvent] that the handler reads. *)
Record KeyPressEvent : Type := {
  keyBase : Z;
  keyModified : Z
}.

Definition key_is (keyPress : KeyPressEvent) (c : ascii) : bool :=
  (keyBase keyPress =? char_code c) || (keyModified keyPress =? char_code c).

(** [void VehAppKeyboardHandler::apply(vsg::KeyPressEvent& keyPress)], on
    the visual system that [m_appPtr] points to: four tests in a row, none
    of them an [else]. *)
Definition VehAppKeyboardHandler_apply (keyPress : KeyPressEvent)
    (app : ChVehicleVisualSystemVSG) : ChVehicleVisualSystemVSG :=
  let app := if key_is keyPress "w" then increaseThrottle app else app in
  let app := if key_is keyPress "s" then decreaseThrottle app else app in
  let app := if key_is keyPress "a" then leftTurn app else app in
  let app := if key_is keyPress "d" then rightTurn app else app in
  app.

(** ** Vectors *)

(** [ChVector<>]: three doubles.  The class is declared in
    chrono/core/ChVector.h, which is not among the sources; the operations
    that the code below uses are the componentwise difference, the product
    with a scalar and the dot product. *)
Record ChVector : Type := {
  vec_x : double;
  vec_y : double;
  vec_z : double
}.

(** [a - b] *)
Definition Vsub (a b : ChVector) : ChVector :=
  {| vec_x := vec_x a - vec_x b;
     vec_y := vec_y a - vec_y b;
     vec_z := vec_z a - vec_z b |}%Q.

(** [s * a] *)
Definition Vscale (s : double) (a : ChVector) : ChVector :=
  {| vec_x := s * vec_x a;
     vec_y := s * vec_y a;
     vec_z := s * vec_z a |}%Q.

(** [a.Dot(b)] *)
Definition Vdot (a b : ChVector) : double :=
  (vec_x a * vec_x b + vec_y a * vec_y b + vec_z a * vec_z b)%Q.

(** Equal components. *)
Definition Veq (a b : ChVector) : Prop :=
  (vec_x a == vec_x b /\ vec_y a == vec_y b /\ vec_z a == vec_z b)%Q.

(** [ChQuaternion<>]: four doubles. *)
Record ChQuaternion : Type := {
  quat_e0 : double;
  quat_e1 : double;
  quat_e2 : double;
  quat_e3 : double
}.

(** ** demo_MBS_callbackSMC: the callbacks *)

(** [virtual float CombineFriction(float a1, float a2) const
      { return 0.5 * (a1 + a2); }] *)
Definition CombineFriction (a1 a2 : double) : double :=
  ((1 # 2) * (a1 + a2))%Q.

(** The fields of [ChMaterialCompositeSMC] that [CalculateForce] reads. *)
Record ChMaterialCompositeSMC : Type := {
  kn : double;
  kt : double;
  gn : double;
  gt : double;
  mu_eff : double
}.

(** What [CalculateForce] asks the system. *)
Record ChSystemSMC : Type := {
  GetStep : double;
  GetSlipVelocityThreshold : double
}.

Section ContactForce.
(** [ChVector<>::Length()], a square root: a parameter. *)
Variable Length : ChVector -> double.

(** [ContactForce::CalculateForce] *)
Definition CalculateForce (sys : ChSystemSMC)
    (normal_dir p1 p2 vel1 vel2 : ChVector) (mat : ChMaterialCompositeSMC)
    (delta eff_radius mass1 mass2 : double) : ChVector :=
  (* Relative velocity at contact *)
  let relvel := Vsub vel2 vel1 in
  let relvel_n_mag := Vdot relvel normal_dir in
  let relvel_n := Vscale relvel_n_mag normal_dir in
  let relvel_t := Vsub relvel relvel_n in
  let relvel_t_mag := Length relvel_t in
  (* Calculate effective mass *)
  let eff_mass := (mass1 * mass2 / (mass1 + mass2))%Q in
  (* Calculate the magnitudes of the normal and tangential contact forces *)
  let kn := kn mat in
  let kt := kt mat in
  let gn := (eff_mass * gn mat)%Q in
  let gt := (eff_mass * gt mat)%Q in
  (* Tangential displacement (magnitude) *)
  let dT := GetStep sys in
  let delta_t := (relvel_t_mag * dT)%Q in
  let forceN := (kn * delta - gn * relvel_n_mag)%Q in
  let forceT := (kt * delta_t + gt * relvel_t_mag)%Q in
  (* Coulomb law *)
  let forceT := std_min forceT (mu_eff mat * Qabs forceN)%Q in
  (* Accumulate normal and tangential forces *)
  let force := Vscale forceN normal_dir in
  if Qlt_le_dec relvel_t_mag (GetSlipVelocityThreshold sys)
  then force
  else Vsub force (Vscale (forceT / relvel_t_mag)%Q relvel_t).

End ContactForce.

(** A length that is exact on the vectors along an axis. *)
Definition axis_length (v : ChVector) : double :=
  (Qabs (vec_x v) + Qabs (vec_y v) + Qabs (vec_z v))%Q.

(** ** demo_FSI tracked vehicle: the path and the BCE markers *)

(** [p.z() += 0.1] *)
Definition raise_point (p : ChVector) : ChVector :=
  {| vec_x := vec_x p; vec_y := vec_y p; vec_z := (vec_z p + (1 # 10))%Q |}.

(** The end of [CreatePath], from the points read from the file on:
[[
    auto np = points.size();
    points.push_back(2.0 * points[np - 1] - points[np - 2]);
    for (auto& p : points)
        p.z() += 0.1;
]]
    With fewer than two points an index is out of range: [None]. *)
Definition CreatePath_points (points : list ChVector) : option (list ChVector) :=
  let np := length points in
  if (np <? 2)%nat then None
  else
    match points !! (np - 1)%nat, points !! (np - 2)%nat with
    | Some last, Some before =>
        Some (raise_point <$> (points ++ [Vsub (Vscale 2 last) before]))
    | _, _ => None
    end.

(** [ChVehicleGeometry::BoxShape] *)
Record BoxShape : Type := {
  m_pos : ChVector;
  m_rot : ChQuaternion;
  m_dims : ChVector
}.

Section TrackBCE.
(** The bodies of the track shoes. *)
Context {ChBody : Type}.

(** What [CreateTrackBCEMarkers] reads of a track shoe: its body, and the
    collision boxes of its ground-contact geometry. *)
Record ChTrackShoe : Type := {
  GetShoeBody : ChBody;
  m_coll_boxes : list BoxShape
}.

(** The track shoes of the two sides of a [TrackedVehicle]. *)
Record TrackedVehicle : Type := {
  shoes_left : list ChTrackShoe;
  shoes_right : list ChTrackShoe
}.

(** The calls that [CreateTrackBCEMarkers] makes on the FSI system. *)
Inductive FsiCall : Type :=
| AddFsiBody (body : ChBody)
| AddBoxBCE (body : ChBody) (pos : ChVector) (rot : ChQuaternion)
    (dims : ChVector) (solid : bool).

(** The FSI system: two settings, and the calls received, oldest first. *)
Record ChSystemFsi : Type := {
  GetNumBoundaryLayers : Z;
  GetInitialSpacing : double;
  fsi_calls : list FsiCall
}.

Definition fsi_call (c : FsiCall) (sysFSI : ChSystemFsi) : ChSystemFsi :=
  {| GetNumBoundaryLayers := GetNumBoundaryLayers sysFSI;
     GetInitialSpacing := GetInitialSpacing sysFSI;
     fsi_calls := fsi_calls sysFSI ++ [c] |}.

(** [2 * (sysFSI.GetNumBoundaryLayers() - 1) * sysFSI.GetInitialSpacing()] *)
Definition min_length (sysFSI : ChSystemFsi) : double :=
  (inject_Z (2 * (GetNumBoundaryLayers sysFSI - 1)) * GetInitialSpacing sysFSI)%Q.

Definition Qltb (a b : double) : bool :=
  if Qlt_le_dec a b then true else false.

(** [box.m_dims.x() > min_length && box.m_dims.y() > min_length
     && box.m_dims.z() < min_length] *)
Definition large_enough (min_length : double) (box : BoxShape) : bool :=
  Qltb min_length (vec_x (m_dims box))
  && Qltb min_length (vec_y (m_dims box))
  && Qltb (vec_z (m_dims box)) min_length.

(** The body of the two loops over the shoes: [AddFsiBody], then one
    [AddBoxBCE] per collision box. *)
Definition add_shoe (coll_boxes : list BoxShape) (sysFSI : ChSystemFsi)
    (shoe : ChTrackShoe) : ChSystemFsi :=
  let shoe_body := GetShoeBody shoe in
  foldl (fun sysFSI box =>
           fsi_call (AddBoxBCE shoe_body (m_pos box) (m_rot box) (m_dims box) true)
             sysFSI)
        (fsi_call (AddFsiBody shoe_body) sysFSI)
        coll_boxes.

(** [CreateTrackBCEMarkers]: the collision boxes are those of the first
    left shoe, which has to exist; the number of markers is only printed. *)
Definition CreateTrackBCEMarkers (vehicle : TrackedVehicle) (sysFSI : ChSystemFsi)
    : option ChSystemFsi :=
  match shoes_left vehicle !! 0%nat with
  | None => None
  | Some shoe0 =>
      let coll_boxes :=
        List.filter (large_enough (min_length sysFSI)) (m_coll_boxes shoe0) in
      let sysFSI := foldl (add_shoe coll_boxes) sysFSI (shoes_left vehicle) in
      let sysFSI := foldl (add_shoe coll_boxes) sysFSI (shoes_right vehicle) in
      Some sysFSI
  end.



End TrackBCE.

Arguments ChTrackShoe : clear implicits.
Arguments TrackedVehicle : clear implicits.
Arguments FsiCall : clear implicits.
Arguments ChSystemFsi : clear implicits.

(** ** Marder_AutomaticTransmissionSimpleMap *)

Section MarderTransmission.
(** [CH_C_PI], from chrono/core/ChMathematics.h. *)
Variable CH_C_PI : double.

(** [const double rpm2rads = CH_C_PI / 30;] *)
Definition rpm2rads : double := (CH_C_PI / 30)%Q.

(** [Marder_AutomaticTransmissionSimpleMap::SetGearRatios(fwd, rev)] *)
Definition SetGearRatios (fwd : list double) (rev : double) : list double * double :=
  let rev := (- (2 # 10))%Q in
  let fwd := fwd ++ [(1708 # 10000)%Q] in
  let fwd := fwd ++ [(2791 # 10000)%Q] in
  let fwd := fwd ++ [(4218 # 10000)%Q] in
  let fwd := fwd ++ [(6223 # 10000)%Q] in
  let fwd := fwd ++ [(10173 # 10000)%Q] in
  let fwd := fwd ++ [(15361 # 10000)%Q] in
  (fwd, rev).

(** [Marder_AutomaticTransmissionSimpleMap::SetShiftPoints(shift_bands)] *)
Definition SetShiftPoints (shift_bands : list (double * double))
    : list (double * double) :=
  let shift_bands := shift_bands ++ [(1000 * rpm2rads, 2226 * rpm2rads)%Q] in
  let shift_bands := shift_bands ++ [(1000 * rpm2rads, 2225 * rpm2rads)%Q] in
  let shift_bands := shift_bands ++ [(1000 * rpm2rads, 2210 * rpm2rads)%Q] in
  let shift_bands := shift_bands ++ [(1000 * rpm2rads, 2226 * rpm2rads)%Q] in
  let shift_bands := shift_bands ++ [(1000 * rpm2rads, 2225 * rpm2rads)%Q] in
  let shift_bands := shift_bands ++ [(1000 * rpm2rads, 2400 * rpm2rads)%Q] in
  shift_bands.

End MarderTransmission.

(** The calls that one pass of [add_shoe] makes. *)
Definition shoe_calls {ChBody : Type} (coll_boxes : list BoxShape)
    (shoe : ChTrackShoe ChBody) : list (FsiCall ChBody) :=
  AddFsiBody (GetShoeBody shoe)
  :: ((fun box => AddBoxBCE (GetShoeBody shoe) (m_pos box) (m_rot box) (m_dims box) true)
        <$> coll_boxes).

(** A vehicle with two shoes on the left and one on the right; the first
    left shoe has a flat pad, a box that is too small and a tall box. *)
Definition example_boxes : list BoxShape :=
  [ {| m_pos := {| vec_x := 0; vec_y := 0; vec_z := 0 |};
       m_rot := {| quat_e0 := 1; quat_e1 := 0; quat_e2 := 0; quat_e3 := 0 |};
       m_dims := {| vec_x := 1 # 10; vec_y := 3 # 10; vec_z := 1 # 100 |} |};
    {| m_pos := {| vec_x := 1 # 20; vec_y := 0; vec_z := 0 |};
       m_rot := {| quat_e0 := 1; quat_e1 := 0; quat_e2 := 0; quat_e3 := 0 |};
       m_dims := {| vec_x := 1 # 100; vec_y := 3 # 10; vec_z := 1 # 100 |} |};
    {| m_pos := {| vec_x := 0; vec_y := 0; vec_z := 1 # 20 |};
       m_rot := {| quat_e0 := 1; quat_e1 := 0; quat_e2 := 0; quat_e3 := 0 |};
       m_dims := {| vec_x := 1 # 10; vec_y := 3 # 10; vec_z := 1 # 10 |} |} ]%Q.

Definition example_vehicle : TrackedVehicle nat :=
  {| shoes_left := [ {| GetShoeBody := 10%nat; m_coll_boxes := example_boxes |};
                     {| GetShoeBody := 11%nat; m_coll_boxes := [] |} ];
     shoes_right := [ {| GetShoeBody := 20%nat; m_coll_boxes := [] |} ] |}.

Definition example_fsi (layers : Z) : ChSystemFsi nat :=
  {| GetNumBoundaryLayers := layers;
     GetInitialSpacing := (1 # 100)%Q;
     fsi_calls := [] |}.

(** ** Construction of a constraint *)

Section ConstraintConstruction.
Context {Members ChState ChStateDelta ChVectorDynamic ChSystemDescriptor : Type}.

(** Modelled from the spec: the construction of a constraint between
    owners, which no code among the sources performs (the one constructor
    there, [ChConstraintBilateral()], is that of the class that handles
    all the constraints of a system, and has no parameter).  "Constructing
    a constraint between owner types with no defined Jacobian rule yields
    classification UNKNOWN and must be rejected at construction, never
    silently assembled with a zero Jacobian block." *)
Definition new_Constraint
    (c : Constraint Members ChState ChStateDelta ChVectorDynamic ChSystemDescriptor)
    : Construction
        (Constraint Members ChState ChStateDelta ChVectorDynamic ChSystemDescriptor) :=
  match Classify c with
  | UNKNOWN => Rejected
  | BODY_BODY | SHAFT_SHAFT | SHAFT_SHAFT_SHAFT | SHAFT_BODY | SHAFT_SHAFT_BODY =>
      Constructed c
  end.

(** Modelled from the spec: "the constraint registry tracks only active
    constraints".  A constraint that has been constructed joins the active
    ones, at the end; a construction that fails adds nothing. *)
Definition add_constraint
    (c : Constraint Members ChState ChStateDelta ChVectorDynamic ChSystemDescriptor)
    (dm : ChMulticoreDataManager Members ChState ChStateDelta ChVectorDynamic
            ChSystemDescriptor)
    : ChMulticoreDataManager Members ChState ChStateDelta ChVectorDynamic
        ChSystemDescriptor :=
  match new_Constraint c with
  | Constructed c' => {| bilaterals := bilaterals dm ++ [c']; D := D dm |}
  | Rejected => dm
  end.

(** Modelled from the spec: constraints requested one after the other. *)
Definition add_constraints
    (cs : list (Constraint Members ChState ChStateDelta ChVectorDynamic
                  ChSystemDescriptor))
    (dm : ChMulticoreDataManager Members ChState ChStateDelta ChVectorDynamic
            ChSystemDescriptor)
    : ChMulticoreDataManager Members ChState ChStateDelta ChVectorDynamic
        ChSystemDescriptor :=
  foldl (fun dm c => add_constraint c dm) dm cs.


End ConstraintConstruction.

(** ** Doubles with their rounding *)

(** A finite [double] as the code has it: the number
    [Fnum * 2 ^ Fexp].  A binary64 significand has 53 bits: the numbers of
    the format are those with a representation where [|Fnum| <= 2 ^ 53].
    The exponent is not bounded: there is no overflow to an infinity, and
    no NaN.  Nothing else is left out of sums and differences: those of
    two doubles are multiples of the least subnormal number, so that
    rounding them to 53 bits is all that binary64 does below overflow. *)
Record binary64 : Type := Float64 { Fnum : Z; Fexp : Z }.

Definition representable (f : binary64) : Prop := Z.abs (Fnum f) <= 2 ^ 53.

(** The rational number a double stands for. *)
Definition F2Q (f : binary64) : Q := (inject_Z (Fnum f) * 2 ^ Fexp f)%Q.

(** The significand of [f] once its exponent is lowered to [e], for
    [e <= Fexp f]. *)
Definition align (f : binary64) (e : Z) : Z := Fnum f * 2 ^ (Fexp f - e).

(** [a < b] on doubles. *)
Definition Fltb (a b : binary64) : bool :=
  let e := Z.min (Fexp a) (Fexp b) in
  align a e <? align b e.

(** Rounding of [n * 2 ^ e] to the nearest double, to the one with an even
    significand when two are as near: what is beyond 53 bits is dropped,
    and the significand goes up by one when the dropped part is above
    half of its last place, or is that half and the significand is odd. *)
Definition round64 (n e : Z) : binary64 :=
  if Z.abs n <=? 2 ^ 53 then Float64 n e
  else
    let d := Z.log2 (Z.abs n) + 1 - 53 in
    let q := n / 2 ^ d in
    let r := n mod 2 ^ d in
    let q' :=
      match 2 * r ?= 2 ^ d with
      | Lt => q
      | Gt => q + 1
      | Eq => if Z.even q then q else q + 1
      end in
    Float64 q' (e + d).

(** [a + b] and [a - b] on doubles: the exact result, rounded. *)
Definition Fplus (a b : binary64) : binary64 :=
  let e := Z.min (Fexp a) (Fexp b) in
  round64 (align a e + align b e) e.

Definition Fminus (a b : binary64) : binary64 :=
  let e := Z.min (Fexp a) (Fexp b) in
  round64 (align a e - align b e) e.

(** [std::min<>(a, b)] on doubles: [b] when [b < a], else [a]. *)
Definition Fmin (a b : binary64) : binary64 :=
  if Fltb b a then b else a.

(** The literal [0]. *)
Definition Fzero : binary64 := Float64 0 0.

(** *** [ChVehicleVisualSystemVSG::Advance], with the rounding *)

(** The loop of [Advance] as the code computes it: [t < step] compares
    two doubles, [step - t] and [t + h] are rounded.  As in
    [Advance_loop], the state keeps the arguments of the calls of
    [Update], oldest first, and the result is [None] when the fuel runs
    out before the loop condition fails. *)
Fixpoint Advance64_loop (fuel : nat) (m_stepsize step t : binary64)
    (updates : list binary64) : option (binary64 * list binary64) :=
  if Fltb t step then
    match fuel with
    | O => None
    | S fuel' =>
        let h := Fmin m_stepsize (Fminus step t) in
        Advance64_loop fuel' m_stepsize step (Fplus t h) (updates ++ [h])
    end
  else Some (t, updates).

Definition Advance64 (fuel : nat) (m_stepsize step : binary64)
    : option (binary64 * list binary64) :=
  Advance64_loop fuel m_stepsize step Fzero [].

(** The state of the loop of [Advance] after [n] iterations, or when its
    condition fails, if that comes first. *)
Fixpoint Advance64_run (n : nat) (m_stepsize step t : binary64)
    (updates : list binary64) : binary64 * list binary64 :=
  match n with
  | O => (t, updates)
  | S n' =>
      if Fltb t step then
        let h := Fmin m_stepsize (Fminus step t) in
        Advance64_run n' m_stepsize step (Fplus t h) (updates ++ [h])
      else (t, updates)
  end.

(** *** [ChVehicleCosimTerrainNodeGranularSPH::OnAdvance] *)

(** The loop of [OnAdvance]:
[[
    double t = 0;
    while (t < step_size) {
        double h = std::min<>(m_step_size, step_size - t);
        m_systemFSI->DoStepDynamics_FSI();
        t += h;
    }
]]
    [DoStepDynamics_FSI] takes no argument; the state keeps the number of
    times it has been called. *)
Fixpoint OnAdvance64_loop (fuel : nat) (m_step_size step_size t : binary64)
    (fsi_steps : nat) : option (binary64 * nat) :=
  if Fltb t step_size then
    match fuel with
    | O => None
    | S fuel' =>
        let h := Fmin m_step_size (Fminus step_size t) in
        OnAdvance64_loop fuel' m_step_size step_size (Fplus t h) (S fsi_steps)
    end
  else Some (t, fsi_steps).

Definition OnAdvance64 (fuel : nat) (m_step_size step_size : binary64)
    : option (binary64 * nat) :=
  OnAdvance64_loop fuel m_step_size step_size Fzero 0%nat.

(** What the loop keeps true of [t]: it is a double, and once it has left
    [0] it is [m_stepsize] at least.  Values are compared through their
    significands at the exponent [e0]. *)
Definition Advance64_invariant (m_stepsize : binary64) (e0 : Z) (t : binary64)
    : Prop :=
  representable t /\ e0 <= Fexp t /\
  (align t e0 = 0 \/ align m_stepsize e0 <= align t e0).

(** An exponent below those of [m_stepsize], of [step] and of the
    literal [0]: all the doubles of a run of the loop are multiples of
    [2 ^ Advance64_exponent]. *)
Definition Advance64_exponent (m_stepsize step : binary64) : Z :=
  Z.min 0 (Z.min (Fexp m_stepsize) (Fexp step)).

(** [m_stepsize = 1] and [step = 2 ^ 53 + 2]. *)
Definition stall_stepsize : binary64 := Float64 1 0.
Definition stall_step : binary64 := Float64 (2 ^ 52 + 1) 1.

(** [0.1], [0.01], [0.05], [0.001], [1.0 / 3] and [1.0] as the compiler
    reads them. *)
Definition double_0_1 : binary64 := Float64 7205759403792794 (-56).
Definition double_0_01 : binary64 := Float64 5764607523034235 (-59).
Definition double_0_05 : binary64 := Float64 7205759403792794 (-57).
Definition double_0_001 : binary64 := Float64 4611686018427388 (-62).
Definition double_1_3 : binary64 := Float64 6004799503160661 (-54).
Definition double_1 : binary64 := Float64 1 0.

(** *** The loop on the IEEE 754 numbers of the Standard Library *)

(** A double as a number of [SpecFloat], the Standard Library's
    specification of IEEE 754 arithmetic, at the precision (53 bits) and
    the exponent range of binary64.  The loop of [Advance] is written once
    more with the operations of [SpecFloat], to compare runs. *)
Definition to_spec_float (f : binary64) : spec_float :=
  binary_normalize 53 1024 (Fnum f) (Fexp f) false.

Definition SFmin (a b : spec_float) : spec_float :=
  if SFltb b a then b else a.

Fixpoint Advance_spec_float_loop (fuel : nat) (m_stepsize step t : spec_float)
    (updates : list spec_float) : option (spec_float * list spec_float) :=
  if SFltb t step then
    match fuel with
    | O => None
    | S fuel' =>
        let h := SFmin m_stepsize (SFsub 53 1024 step t) in
        Advance_spec_float_loop fuel' m_stepsize step (SFadd 53 1024 t h)
          (updates ++ [h])
    end
  else Some (t, updates).

Definition Advance_spec_float (fuel : nat) (m_stepsize step : binary64)
    : option (spec_float * list spec_float) :=
  Advance_spec_float_loop fuel (to_spec_float m_stepsize) (to_spec_float step)
    (S754_zero false) [].

(** The result of [Advance64] in the numbers of [SpecFloat]. *)
Definition Advance64_as_spec_float (fuel : nat) (m_stepsize step : binary64)
    : option (spec_float * list spec_float) :=
  (fun r : binary64 * list binary64 =>
     (to_spec_float r.1, to_spec_float <$> r.2))
    <$> Advance64 fuel m_stepsize step.

(* ===================================================================== *)
(** * Theorems *)
(* ===================================================================== *)

Lemma to_unsigned_small (z : Z) : 0 <= z < 2 ^ 32 -> to_unsigned z = z.
Proof. intros H. unfold to_unsigned. apply Z.mod_small. exact H. Qed.

Section NodeBaseFacts.
Context {Members ChState ChStateDelta ChVectorDynamic ChSystemDescriptor : Type}.

Local Abbreviation Node := (ChNodeBase Members).
Local Abbreviation Class :=
  (NodeClass Members ChState ChStateDelta ChVectorDynamic ChSystemDescriptor).
Local Abbreviation Wld :=
  (World Members ChState ChStateDelta ChVectorDynamic ChSystemDescriptor).
Local Abbreviation Op := (NodeOp ChVectorDynamic).
Local Abbreviation Owner :=
  (DofOwner Members ChState ChStateDelta ChVectorDynamic ChSystemDescriptor).

(** *** The defaults of the DOF counters *)

Lemma GetNdofW_default (cls : Class) (this : Node) :
  GetNdofW_override cls = None -> GetNdofW cls this = GetNdofX cls this.
Proof. intros H. unfold GetNdofW. rewrite H. reflexivity. Qed.

Lemma GetNdofX_active_default (cls : Class) (this : Node) :
  GetNdofX_active_override cls = None -> GetNdofX_active cls this = GetNdofX cls this.
Proof. intros H. unfold GetNdofX_active. rewrite H. reflexivity. Qed.

(** The default of [GetNdofW_active] calls the virtual [GetNdofW]: it
    follows an override of [GetNdofW]. *)
Lemma GetNdofW_active_default (cls : Class) (this : Node) :
  GetNdofW_active_override cls = None -> GetNdofW_active cls this = GetNdofW cls this.
Proof. intros H. unfold GetNdofW_active. rewrite H. reflexivity. Qed.

Lemma UseFullDof_default (cls : Class) (this : Node) :
  UseFullDof_override cls = None -> UseFullDof cls this = true.
Proof. intros H. unfold UseFullDof. rewrite H. reflexivity. Qed.

(** C8. An owner whose class overrides none of the defaults has
    [GetNdofW() = GetNdofX()], [GetNdofX_active() = GetNdofX()],
    [GetNdofW_active() = GetNdofW()] and [UseFullDof() = true]. *)
Theorem default_dof_counters_values (cls : Class) (this : Node) :
  default_dof_counters cls ->
  GetNdofW cls this = GetNdofX cls this /\
  GetNdofX_active cls this = GetNdofX cls this /\
  GetNdofW_active cls this = GetNdofW cls this /\
  UseFullDof cls this = true.
Proof.
  intros (HW & HXa & HWa & HU).
  repeat split.
  - apply GetNdofW_default, HW.
  - apply GetNdofX_active_default, HXa.
  - apply GetNdofW_active_default, HWa.
  - apply UseFullDof_default, HU.
Qed.

(** *** The default hooks *)

(** C9. For an owner whose class overrides none of the hooks, state gather
    and scatter and the seven solver-injection functions return the world
    as they found it: the node, the state vectors and the system descriptor
    are unchanged. *)
Theorem default_hooks_are_noops (cls : Class) (w : Wld) :
  default_state_solver_hooks cls ->
  forall (off_x off_v : Z) (factor step : double),
    NodeIntStateGather cls off_x off_v w = w /\
    NodeIntStateScatter cls off_x off_v w = w /\
    InjectVariables cls w = w /\
    VariablesFbReset cls w = w /\
    VariablesFbLoadForces cls factor w = w /\
    VariablesQbLoadSpeed cls w = w /\
    VariablesFbIncrementMq cls w = w /\
    VariablesQbSetSpeed cls step w = w /\
    VariablesQbIncrementPosition cls step w = w.
Proof.
  intros (Hg & Hs & Hi & Hr & Hl & Hq & Hm & Hv & Hp).
  intros off_x off_v factor step.
  unfold NodeIntStateGather, NodeIntStateScatter, InjectVariables,
    VariablesFbReset, VariablesFbLoadForces, VariablesQbLoadSpeed,
    VariablesFbIncrementMq, VariablesQbSetSpeed, VariablesQbIncrementPosition.
  rewrite Hg, Hs, Hi, Hr, Hl, Hq, Hm, Hv, Hp. cbn.
  repeat split.
Qed.

(** *** Who changes the offsets *)

Lemma run_op_default_hook (cls : Class) (op : Op) (w : Wld) :
  default_hooks cls -> is_offset_setter op = false -> run_op cls op w = w.
Proof.
  intros ((Hg & Hs & Hi & Hr & Hl & Hq & Hm & Hv & Hp)
          & Hga & Hsa & Hf & Hmv & Htd & Hfd) Hop.
  destruct op; cbn in Hop; try discriminate; cbn; try reflexivity.
  - unfold NodeIntStateGather. rewrite Hg. reflexivity.
  - unfold NodeIntStateScatter. rewrite Hs. reflexivity.
  - unfold NodeIntStateGatherAcceleration. rewrite Hga. reflexivity.
  - unfold NodeIntStateScatterAcceleration. rewrite Hsa. reflexivity.
  - unfold NodeIntLoadResidual_F. rewrite Hf. reflexivity.
  - unfold NodeIntLoadResidual_Mv. rewrite Hmv. reflexivity.
  - unfold NodeIntToDescriptor. rewrite Htd. reflexivity.
  - unfold NodeIntFromDescriptor. rewrite Hfd. reflexivity.
  - unfold InjectVariables. rewrite Hi. reflexivity.
  - unfold VariablesFbReset. rewrite Hr. reflexivity.
  - unfold VariablesFbLoadForces. rewrite Hl. reflexivity.
  - unfold VariablesQbLoadSpeed. rewrite Hq. reflexivity.
  - unfold VariablesFbIncrementMq. rewrite Hm. reflexivity.
  - unfold VariablesQbSetSpeed. rewrite Hv. reflexivity.
  - unfold VariablesQbIncrementPosition. rewrite Hp. reflexivity.
Qed.

(** C7, amended. Among the member functions that [ChNodeBase] defines, only
    [NodeSetOffset_x] and [NodeSetOffset_w] change an offset, each its own;
    every other one (not overridden) leaves both offsets as they were.  The
    two setters are public: any component may call them. *)
Theorem offsets_changed_only_by_setters (cls : Class) (op : Op) (w : Wld) :
  default_hooks cls ->
  (is_offset_setter op = false -> offsets_of (run_op cls op w) = offsets_of w) /\
  (forall moff, op = Op_NodeSetOffset_x moff ->
     offsets_of (run_op cls op w) = (to_unsigned moff, offset_w (w_this w))) /\
  (forall moff, op = Op_NodeSetOffset_w moff ->
     offsets_of (run_op cls op w) = (offset_x (w_this w), to_unsigned moff)) /\
  (forall who : Component, may_call who op = true).
Proof.
  intros Hcls. repeat split.
  - intros Hop. rewrite (run_op_default_hook cls op w Hcls Hop). reflexivity.
  - intros moff ->. reflexivity.
  - intros moff ->. reflexivity.
Qed.

End NodeBaseFacts.

(** The default counters on a node class with three degrees of freedom. *)
Lemma default_dof_counters_values_witness :
  default_dof_counters (simple_class 3) /\
  (GetNdofW (simple_class 3) simple_node = GetNdofX (simple_class 3) simple_node /\
   GetNdofX_active (simple_class 3) simple_node = GetNdofX (simple_class 3) simple_node /\
   GetNdofW_active (simple_class 3) simple_node = GetNdofW (simple_class 3) simple_node /\
   UseFullDof (simple_class 3) simple_node = true).
Proof.
  assert (H : default_dof_counters (simple_class 3)) by (repeat split).
  split; [exact H | exact (default_dof_counters_values (simple_class 3) simple_node H)].
Defined.

(** The default hooks on a node class with no degree of freedom. *)
Lemma default_hooks_are_noops_witness :
  default_state_solver_hooks (simple_class 0) /\
  NodeIntStateGather (simple_class 0) 0 0 simple_world = simple_world /\
  VariablesQbIncrementPosition (simple_class 0) (1 # 100) simple_world = simple_world.
Proof.
  assert (H : default_state_solver_hooks (simple_class 0)) by (repeat split).
  pose proof (default_hooks_are_noops (simple_class 0) simple_world H 0 0 1%Q (1 # 100)) as P.
  split; [exact H | split; [apply P | apply P]].
Defined.

(** The offsets are not read-only outside the manager: another component
    calls the public [NodeSetOffset_x] and the offset changes. *)
Lemma offsets_manager_only_counterexample :
  ~ offsets_manager_only (simple_class 3).
Proof.
  intros H.
  specialize (H OtherComponent (Op_NodeSetOffset_x 7) simple_world).
  assert (Hne : OtherComponent <> StateVectorManager) by discriminate.
  specialize (H Hne eq_refl).
  vm_compute in H. discriminate H.
Qed.

(** On a node with three degrees of freedom, a call of [InjectVariables]
    keeps the offsets. *)
Lemma offsets_changed_only_by_setters_witness :
  default_hooks (simple_class 3) /\
  offsets_of (run_op (simple_class 3) Op_InjectVariables simple_world)
    = offsets_of simple_world.
Proof.
  assert (H : default_hooks (simple_class 3)) by (repeat split).
  split; [exact H |].
  apply (offsets_changed_only_by_setters (simple_class 3) Op_InjectVariables simple_world H).
  reflexivity.
Defined.

(** ** Setup: the offsets of the owners *)

Section SetupFacts.
Context {Members ChState ChStateDelta ChVectorDynamic ChSystemDescriptor : Type}.

Local Abbreviation Owner :=
  (DofOwner Members ChState ChStateDelta ChVectorDynamic ChSystemDescriptor).

Implicit Types (o : Owner) (owners : list Owner).

Lemma sum_of_nil (f : Owner -> Z) : sum_of f [] = 0.
Proof. reflexivity. Qed.

Lemma sum_of_cons (f : Owner -> Z) o owners :
  sum_of f (o :: owners) = f o + sum_of f owners.
Proof. reflexivity. Qed.

Lemma sum_of_app (f : Owner -> Z) owners1 owners2 :
  sum_of f (owners1 ++ owners2) = sum_of f owners1 + sum_of f owners2.
Proof.
  induction owners1 as [|o l IH]; [reflexivity|].
  rewrite <- app_comm_cons, !sum_of_cons, IH. lia.
Qed.

Lemma sum_of_nonneg (f : Owner -> Z) owners :
  Forall (fun o => 0 <= f o) owners -> 0 <= sum_of f owners.
Proof.
  induction 1 as [|o l Ho _ IH]; [reflexivity|]. rewrite sum_of_cons. lia.
Qed.

Lemma sum_of_ext (f g : Owner -> Z) owners :
  Forall (fun o => f o = g o) owners -> sum_of f owners = sum_of g owners.
Proof.
  induction 1 as [|o l Ho _ IH]; [reflexivity|].
  rewrite !sum_of_cons, Ho, IH. reflexivity.
Qed.

(** Setting the offsets changes neither the class nor the members, hence
    none of the counters. *)
Lemma assign_offsets_ndof_x a b o :
  owner_ndof_x_active (assign_offsets a b o) = owner_ndof_x_active o.
Proof. reflexivity. Qed.

Lemma assign_offsets_ndof_w a b o :
  owner_ndof_w_active (assign_offsets a b o) = owner_ndof_w_active o.
Proof. reflexivity. Qed.

Lemma assign_offsets_offset_x a b o :
  owner_offset_x (assign_offsets a b o) = to_unsigned a.
Proof. reflexivity. Qed.

Lemma assign_offsets_offset_w a b o :
  owner_offset_w (assign_offsets a b o) = to_unsigned b.
Proof. reflexivity. Qed.

(** For a consistent owner the assigned counts are the active counts, on
    either branch of the test of [UseFullDof]. *)
Lemma assigned_ndof_x_active o :
  consistent_owner o -> assigned_ndof_x o = owner_ndof_x_active o.
Proof.
  intros (_ & _ & H). unfold assigned_ndof_x.
  destruct (UseFullDof (owner_class o) (owner_node o)); [|reflexivity].
  symmetry. apply H. reflexivity.
Qed.

Lemma assigned_ndof_w_active o :
  consistent_owner o -> assigned_ndof_w o = owner_ndof_w_active o.
Proof.
  intros (_ & _ & H). unfold assigned_ndof_w.
  destruct (UseFullDof (owner_class o) (owner_node o)); [|reflexivity].
  symmetry. apply H. reflexivity.
Qed.

Lemma Setup_from_length a b owners :
  length (Setup_from a b owners).1 = length owners.
Proof.
  revert a b. induction owners as [|o l IH]; intros a b; cbn; [reflexivity|].
  rewrite IH. reflexivity.
Qed.

(** The accumulated sizes. *)
Lemma Setup_from_sizes a b owners :
  (Setup_from a b owners).2
  = (a + sum_of assigned_ndof_x owners, b + sum_of assigned_ndof_w owners).
Proof.
  revert a b. induction owners as [|o l IH]; intros a b; cbn [Setup_from fst snd].
  - cbn. f_equal; lia.
  - rewrite IH, !sum_of_cons. f_equal; lia.
Qed.

(** The [i]-th owner gets the sizes accumulated over the owners before it. *)
Lemma Setup_from_lookup a b owners i o' :
  (Setup_from a b owners).1 !! i = Some o' ->
  exists o, owners !! i = Some o /\
    o' = assign_offsets (a + sum_of assigned_ndof_x (take i owners))
                        (b + sum_of assigned_ndof_w (take i owners)) o.
Proof.
  revert a b i. induction owners as [|o l IH]; intros a b i H; cbn in H.
  - destruct i; discriminate H.
  - destruct i as [|i]; cbn in H.
    + injection H as <-. exists o. split; [reflexivity|].
      cbn. f_equal; lia.
    + apply IH in H as (o0 & Hl & ->). exists o0. split; [exact Hl|].
      cbn [take]. rewrite !sum_of_cons. f_equal; lia.
Qed.

Lemma sum_of_take_S (f : Owner -> Z) owners i o :
  owners !! i = Some o ->
  sum_of f (take (S i) owners) = sum_of f (take i owners) + f o.
Proof.
  intros H. rewrite (take_S_r _ _ _ H), sum_of_app, sum_of_cons. cbn. lia.
Qed.

Lemma sum_of_take_le (f : Owner -> Z) owners i j :
  Forall (fun o => 0 <= f o) owners -> (i <= j)%nat ->
  sum_of f (take i owners) <= sum_of f (take j owners) <= sum_of f owners.
Proof.
  intros Hpos. revert i j.
  induction Hpos as [|o l Ho Hl IH]; intros i j Hij.
  - rewrite !take_nil, sum_of_nil. lia.
  - destruct j as [|j].
    + assert (i = 0%nat) as -> by lia. cbn [take].
      pose proof (sum_of_nonneg f l Hl). rewrite sum_of_cons, sum_of_nil. lia.
    + destruct i as [|i]; cbn [take]; rewrite !sum_of_cons.
      * specialize (IH 0%nat j ltac:(lia)). cbn [take] in IH.
        rewrite sum_of_nil in *. lia.
      * specialize (IH i j ltac:(lia)). lia.
Qed.

Lemma Setup_from_sum_x a b owners :
  sum_of owner_ndof_x_active (Setup_from a b owners).1
  = sum_of owner_ndof_x_active owners.
Proof.
  revert a b. induction owners as [|o l IH]; intros a b; [reflexivity|].
  cbn [Setup_from fst]. rewrite !sum_of_cons, IH, assign_offsets_ndof_x. reflexivity.
Qed.

Lemma Setup_from_sum_w a b owners :
  sum_of owner_ndof_w_active (Setup_from a b owners).1
  = sum_of owner_ndof_w_active owners.
Proof.
  revert a b. induction owners as [|o l IH]; intros a b; [reflexivity|].
  cbn [Setup_from fst]. rewrite !sum_of_cons, IH, assign_offsets_ndof_w. reflexivity.
Qed.

Lemma valid_registration_assigned_x owners i :
  valid_registration owners ->
  sum_of assigned_ndof_x (take i owners) = sum_of owner_ndof_x_active (take i owners).
Proof.
  intros (Hc & _). apply sum_of_ext, Forall_take.
  eapply Forall_impl; [exact Hc|]. intros o Ho. apply assigned_ndof_x_active, Ho.
Qed.

Lemma valid_registration_assigned_w owners i :
  valid_registration owners ->
  sum_of assigned_ndof_w (take i owners) = sum_of owner_ndof_w_active (take i owners).
Proof.
  intros (Hc & _). apply sum_of_ext, Forall_take.
  eapply Forall_impl; [exact Hc|]. intros o Ho. apply assigned_ndof_w_active, Ho.
Qed.

Lemma valid_registration_nonneg_x owners :
  valid_registration owners -> Forall (fun o => 0 <= owner_ndof_x_active o) owners.
Proof.
  intros (Hc & _). eapply Forall_impl; [exact Hc|]. intros o Ho. apply Ho.
Qed.

Lemma valid_registration_nonneg_w owners :
  valid_registration owners -> Forall (fun o => 0 <= owner_ndof_w_active o) owners.
Proof.
  intros (Hc & _). eapply Forall_impl; [exact Hc|]. intros o Ho. apply Ho.
Qed.

(** In a valid registration sequence no offset wraps around: the [i]-th
    owner starts where the owners before it end. *)
Lemma Setup_lookup owners i o' :
  valid_registration owners ->
  (Setup owners).1 !! i = Some o' ->
  exists o, owners !! i = Some o /\
    owner_offset_x o' = sum_of owner_ndof_x_active (take i owners) /\
    owner_offset_w o' = sum_of owner_ndof_w_active (take i owners) /\
    owner_ndof_x_active o' = owner_ndof_x_active o /\
    owner_ndof_w_active o' = owner_ndof_w_active o.
Proof.
  intros Hv H. unfold Setup in H.
  apply Setup_from_lookup in H as (o & Hl & ->).
  exists o. split; [exact Hl|].
  rewrite assign_offsets_offset_x, assign_offsets_offset_w,
    assign_offsets_ndof_x, assign_offsets_ndof_w.
  rewrite (valid_registration_assigned_x owners i Hv),
    (valid_registration_assigned_w owners i Hv), !Z.add_0_l.
  pose proof (sum_of_take_le owner_ndof_x_active owners 0 i
                (valid_registration_nonneg_x owners Hv) ltac:(lia)) as Hx.
  pose proof (sum_of_take_le owner_ndof_w_active owners 0 i
                (valid_registration_nonneg_w owners Hv) ltac:(lia)) as Hw.
  cbn [take] in Hx, Hw. rewrite sum_of_nil in Hx, Hw.
  destruct Hv as (_ & Hbx & Hbw).
  rewrite !to_unsigned_small by lia. repeat split.
Qed.

(** C1. After [Setup] on a valid registration sequence: the first owner
    starts at offset 0 in both state vectors; each owner starts where its
    predecessor ends; the blocks [offset, offset + active ndof) of two
    owners never overlap; the last block ends at the accumulated size; and
    the accumulated sizes are the sums of the active [ndof_x] and of the
    active [ndof_w] of the owners. *)
Theorem Setup_offsets_contiguous owners :
  valid_registration owners ->
  length (Setup owners).1 = length owners /\
  (forall o, (Setup owners).1 !! 0%nat = Some o ->
     owner_offset_x o = 0 /\ owner_offset_w o = 0) /\
  (forall i o1 o2,
     (Setup owners).1 !! i = Some o1 -> (Setup owners).1 !! S i = Some o2 ->
     owner_offset_x o2 = owner_offset_x o1 + owner_ndof_x_active o1 /\
     owner_offset_w o2 = owner_offset_w o1 + owner_ndof_w_active o1) /\
  (forall i j oi oj, (i < j)%nat ->
     (Setup owners).1 !! i = Some oi -> (Setup owners).1 !! j = Some oj ->
     0 <= owner_offset_x oi /\
     owner_offset_x oi + owner_ndof_x_active oi <= owner_offset_x oj /\
     0 <= owner_offset_w oi /\
     owner_offset_w oi + owner_ndof_w_active oi <= owner_offset_w oj) /\
  (forall o, last (Setup owners).1 = Some o ->
     owner_offset_x o + owner_ndof_x_active o = (Setup owners).2.1 /\
     owner_offset_w o + owner_ndof_w_active o = (Setup owners).2.2) /\
  (Setup owners).2.1 = sum_of owner_ndof_x_active (Setup owners).1 /\
  (Setup owners).2.2 = sum_of owner_ndof_w_active (Setup owners).1.
Proof.
  intros Hv.
  pose proof (valid_registration_nonneg_x owners Hv) as Hnx.
  pose proof (valid_registration_nonneg_w owners Hv) as Hnw.
  assert (Hsz : (Setup owners).2
                = (sum_of owner_ndof_x_active owners, sum_of owner_ndof_w_active owners)).
  { unfold Setup. rewrite Setup_from_sizes, !Z.add_0_l.
    rewrite <- (firstn_all owners) at 1 2.
    rewrite (valid_registration_assigned_x _ _ Hv),
      (valid_registration_assigned_w _ _ Hv), firstn_all. reflexivity. }
  split; [apply Setup_from_length|].
  split.
  { intros o H. apply (Setup_lookup _ _ _ Hv) in H as (o0 & _ & Hx & Hw & _).
    rewrite Hx, Hw. split; reflexivity. }
  split.
  { intros i o1 o2 H1 H2.
    apply (Setup_lookup _ _ _ Hv) in H1 as (p1 & Hl1 & Hx1 & Hw1 & Hnx1 & Hnw1).
    apply (Setup_lookup _ _ _ Hv) in H2 as (p2 & _ & Hx2 & Hw2 & _).
    rewrite Hx1, Hw1, Hx2, Hw2, Hnx1, Hnw1.
    rewrite !(sum_of_take_S _ _ _ _ Hl1). split; reflexivity. }
  split.
  { intros i j oi oj Hij Hi Hj.
    apply (Setup_lookup _ _ _ Hv) in Hi as (p1 & Hl1 & Hx1 & Hw1 & Hnx1 & Hnw1).
    apply (Setup_lookup _ _ _ Hv) in Hj as (p2 & _ & Hx2 & Hw2 & _).
    rewrite Hx1, Hw1, Hx2, Hw2, Hnx1, Hnw1.
    rewrite <- !(sum_of_take_S _ _ _ _ Hl1).
    pose proof (sum_of_take_le owner_ndof_x_active owners (S i) j Hnx ltac:(lia)).
    pose proof (sum_of_take_le owner_ndof_w_active owners (S i) j Hnw ltac:(lia)).
    pose proof (sum_of_nonneg owner_ndof_x_active (take i owners)
                  (Forall_take _ _ _ Hnx)).
    pose proof (sum_of_nonneg owner_ndof_w_active (take i owners)
                  (Forall_take _ _ _ Hnw)).
    lia. }
  split.
  { intros o H. rewrite last_lookup in H.
    pose proof (lookup_lt_Some _ _ _ H) as Hlt.
    unfold Setup in H, Hlt. rewrite Setup_from_length in H, Hlt.
    fold (Setup owners) in H.
    apply (Setup_lookup _ _ _ Hv) in H as (p & Hl & Hx & Hw & Hnx1 & Hnw1).
    rewrite Hsz, Hx, Hw, Hnx1, Hnw1.
    rewrite <- !(sum_of_take_S _ _ _ _ Hl).
    replace (S (pred (length owners))) with (length owners) by lia.
    rewrite firstn_all. split; reflexivity. }
  rewrite Hsz. unfold Setup. rewrite Setup_from_sum_x, Setup_from_sum_w.
  split; reflexivity.
Qed.

End SetupFacts.

Example Setup_example_offsets :
  (fun o => (owner_offset_x o, owner_offset_w o)) <$> (Setup example_owners).1
  = [(0, 0); (7, 6); (8, 7); (10, 9)].
Proof. reflexivity. Qed.

Example Setup_example_sizes : (Setup example_owners).2 = (13, 12).
Proof. reflexivity. Qed.

(** [Setup] on a rigid body, a shaft, a partly fixed node and a free node. *)
Lemma Setup_offsets_contiguous_witness :
  valid_registration example_owners /\
  (Setup example_owners).2.1 = sum_of owner_ndof_x_active (Setup example_owners).1 /\
  (Setup example_owners).2.2 = sum_of owner_ndof_w_active (Setup example_owners).1.
Proof.
  assert (H : valid_registration example_owners).
  { split; [|split; reflexivity].
    repeat constructor; cbn; try lia; intros; discriminate. }
  split; [exact H|].
  apply (Setup_offsets_contiguous example_owners H).
Defined.

(** ** Classification of the constraints *)

Lemma count_kind_Permutation (k : OwnerKind) (ks1 ks2 : list OwnerKind) :
  Permutation ks1 ks2 -> count_kind k ks1 = count_kind k ks2.
Proof.
  unfold count_kind.
  induction 1 as [|x l1 l2 _ IH|x y l|l1 l2 l3 _ IH1 _ IH2]; cbn.
  - reflexivity.
  - destruct (kind_eqb k x); cbn; congruence.
  - destruct (kind_eqb k x), (kind_eqb k y); reflexivity.
  - congruence.
Qed.

Lemma classify_kinds_Permutation (ks1 ks2 : list OwnerKind) :
  Permutation ks1 ks2 -> classify_kinds ks1 = classify_kinds ks2.
Proof.
  intros H. unfold classify_kinds.
  rewrite !(count_kind_Permutation _ _ _ H). reflexivity.
Qed.


(** The classification follows the table of the Jacobian rules. *)
Lemma classify_kinds_rule (ks p : list OwnerKind) (t : BilateralType) :
  In (p, t) jacobian_rules -> Permutation ks p -> classify_kinds ks = t.
Proof.
  intros Hin Hp. rewrite (classify_kinds_Permutation _ _ Hp).
  cbn in Hin.
  repeat (destruct Hin as [Hin|Hin]; [injection Hin as <- <-; reflexivity|]).
  destruct Hin.
Qed.





Lemma all_types_complete (t : BilateralType) : In t all_types.
Proof. destruct t; cbn; auto 10. Qed.

Section ClassifyFacts.
Context {Members ChState ChStateDelta ChVectorDynamic ChSystemDescriptor : Type}.

Local Abbreviation Cstr :=
  (Constraint Members ChState ChStateDelta ChVectorDynamic ChSystemDescriptor).

(** C5. [Classify] returns exactly one value of the enumeration, and the
    value depends on the kinds of the connected owners only: constraints
    that connect owners of the same kinds get the same type. *)
Theorem Classify_deterministic (c1 c2 : Cstr) :
  Permutation (connected_kinds c1) (connected_kinds c2) ->
  (exists! t, In t all_types /\ Classify c1 = t) /\
  Classify c1 = Classify c2.
Proof.
  intros Hp. split.
  - exists (Classify c1). split.
    + split; [apply all_types_complete | reflexivity].
    + intros t (_ & Ht). exact Ht.
  - apply classify_kinds_Permutation, Hp.
Qed.

End ClassifyFacts.

Example Classify_body_body : Classify (body_body_constraint 0) = BODY_BODY.
Proof. reflexivity. Qed.

Example Classify_shaft_body : Classify (shaft_body_constraint 1) = SHAFT_BODY.
Proof. reflexivity. Qed.

Example Classify_node_body : Classify node_body_constraint = UNKNOWN.
Proof. reflexivity. Qed.

Lemma node_body_has_no_rule :
  ~ has_jacobian_rule (connected_kinds node_body_constraint).
Proof.
  intros (p & t & Hin & Hp).
  pose proof (classify_kinds_rule _ _ _ Hin Hp) as Ht.
  cbn in Hin.
  repeat (destruct Hin as [Hin|Hin]; [injection Hin as <- <-; discriminate Ht|]).
  destruct Hin.
Qed.

(** A shaft-body constraint and the same owners listed body first. *)
Lemma Classify_deterministic_witness :
  Permutation (connected_kinds (shaft_body_constraint 1))
              (connected_kinds
                 {| anchors := rev (anchors (shaft_body_constraint 1));
                    row := 5; jacobian := fun _ _ => 0%Q;
                    correction := 1%Q; compliance := 0%Q |}) /\
  Classify (shaft_body_constraint 1)
  = Classify {| anchors := rev (anchors (shaft_body_constraint 1));
                row := 5; jacobian := fun _ _ => 0%Q;
                correction := 1%Q; compliance := 0%Q |}.
Proof.
  assert (H : Permutation (connected_kinds (shaft_body_constraint 1))
                (connected_kinds
                   {| anchors := rev (anchors (shaft_body_constraint 1));
                      row := 5; jacobian := fun _ _ => 0%Q;
                      correction := 1%Q; compliance := 0%Q |})).
  { cbn. apply perm_swap. }
  split; [exact H|].
  apply (Classify_deterministic _ _ H).
Defined.

(** ** The sparsity pattern and the Jacobian *)

(** After marking, a slot of the list holds a one and any other slot holds
    what it held. *)
Lemma mark_slots_lookup (J : gmap (nat * Z) double) (slots : list (nat * Z))
    (k : nat * Z) :
  mark_slots J slots !! k = if decide (k ∈ slots) then Some 1%Q else J !! k.
Proof.
  unfold mark_slots. revert J.
  induction slots as [|k0 slots IH]; intros J; cbn [foldl].
  - destruct (decide (k ∈ [])) as [Hin|]; [|reflexivity].
    apply elem_of_nil in Hin. destruct Hin.
  - rewrite IH.
    destruct (decide (k ∈ slots)) as [Hin|Hnin].
    + rewrite decide_True by (apply elem_of_cons; right; exact Hin). reflexivity.
    + destruct (decide (k0 = k)) as [->|Hne].
      * rewrite lookup_insert_eq.
        rewrite decide_True by (apply elem_of_cons; left; reflexivity).
        reflexivity.
      * rewrite lookup_insert_ne by exact Hne.
        rewrite decide_False; [reflexivity|].
        intros [Heq|Hin]%elem_of_cons; [apply Hne; symmetry; exact Heq | apply Hnin, Hin].
Qed.

Lemma mark_slots_idempotent (J : gmap (nat * Z) double) (slots : list (nat * Z)) :
  mark_slots (mark_slots J slots) slots = mark_slots J slots.
Proof.
  apply map_eq. intros k. rewrite !mark_slots_lookup.
  destruct (decide (k ∈ slots)); reflexivity.
Qed.

Lemma mark_slots_dom (J : gmap (nat * Z) double) (slots : list (nat * Z))
    (k : nat * Z) :
  k ∈ dom (mark_slots J slots) <-> k ∈ slots \/ k ∈ dom J.
Proof.
  rewrite !elem_of_dom, mark_slots_lookup.
  destruct (decide (k ∈ slots)) as [Hin|Hnin].
  - split; [intros _; left; exact Hin | intros _; eexists; reflexivity].
  - split; [intros H; right; exact H | intros [H|H]; [contradiction | exact H]].
Qed.

(** A write into an existing slot keeps the domain. *)
Lemma write_slot_dom (J J' : gmap (nat * Z) double) (e : (nat * Z) * double) :
  write_slot J e = Some J' -> dom J' = dom J.
Proof.
  unfold write_slot. destruct (J !! e.1) as [v|] eqn:E; [|discriminate].
  intros Heq. injection Heq as <-. rewrite dom_insert_L.
  apply subseteq_union_1_L, singleton_subseteq_l, elem_of_dom.
  eexists. exact E.
Qed.

Lemma write_slots_dom (es : list ((nat * Z) * double)) (J J' : gmap (nat * Z) double) :
  write_slots J es = Some J' -> dom J' = dom J.
Proof.
  revert J. induction es as [|e es IH]; intros J; cbn.
  - intros [= <-]. reflexivity.
  - destruct (write_slot J e) as [J1|] eqn:E; [|discriminate].
    intros H. rewrite (IH _ H). apply (write_slot_dom _ _ _ E).
Qed.

(** The writes succeed when every slot exists. *)
Lemma write_slots_succeeds (es : list ((nat * Z) * double)) (J : gmap (nat * Z) double) :
  (forall e, e ∈ es -> e.1 ∈ dom J) -> exists J', write_slots J es = Some J'.
Proof.
  revert J. induction es as [|e es IH]; intros J Hall; cbn.
  - exists J. reflexivity.
  - assert (He : e.1 ∈ dom J) by (apply Hall, elem_of_cons; left; reflexivity).
    apply elem_of_dom in He as [v Hv].
    destruct (write_slot J e) as [J1|] eqn:E.
    + apply IH. intros e' He'.
      rewrite (write_slot_dom _ _ _ E). apply Hall, elem_of_cons. right. exact He'.
    + unfold write_slot in E. rewrite Hv in E. discriminate E.
Qed.

(** A slot that is not written keeps its value. *)
Lemma write_slots_frame (es : list ((nat * Z) * double)) (J J' : gmap (nat * Z) double)
    (k : nat * Z) :
  write_slots J es = Some J' -> k ∉ (fst <$> es) -> J' !! k = J !! k.
Proof.
  revert J. induction es as [|e es IH]; intros J; cbn.
  - intros [= <-] _. reflexivity.
  - destruct (write_slot J e) as [J1|] eqn:E; [|discriminate].
    intros H Hk.
    rewrite (IH _ H) by (intros Hin; apply Hk, elem_of_cons; right; exact Hin).
    unfold write_slot in E. destruct (J !! e.1); [|discriminate].
    injection E as <-. apply lookup_insert_ne.
    intros Heq. apply Hk, elem_of_cons. left. symmetry. exact Heq.
Qed.

Section SparsityFacts.
Context {Members ChState ChStateDelta ChVectorDynamic ChSystemDescriptor : Type}.

Local Abbreviation DM :=
  (ChMulticoreDataManager Members ChState ChStateDelta ChVectorDynamic
     ChSystemDescriptor).

(** GenerateSparsity leaves the constraints alone, hence the slots too. *)
Lemma GenerateSparsity_slots (dm : DM) :
  jacobian_slots (GenerateSparsity dm) = jacobian_slots dm.
Proof. reflexivity. Qed.

Lemma GenerateSparsity_pattern (dm : DM) (k : nat * Z) :
  k ∈ sparsity_pattern (GenerateSparsity dm)
  <-> k ∈ jacobian_slots dm \/ k ∈ sparsity_pattern dm.
Proof. unfold sparsity_pattern. cbn [D GenerateSparsity]. apply mark_slots_dom. Qed.

Lemma GenerateSparsity_establishes (dm : DM) :
  pattern_established (GenerateSparsity dm).
Proof.
  intros k Hk. rewrite GenerateSparsity_slots in Hk.
  apply GenerateSparsity_pattern. left. exact Hk.
Qed.

(** C3. A second call of [GenerateSparsity], with the same owners and
    constraints, changes nothing: the data manager, and with it the
    sparsity pattern, is the one the first call produced. *)
Theorem GenerateSparsity_idempotent (dm : DM) :
  GenerateSparsity (GenerateSparsity dm) = GenerateSparsity dm /\
  sparsity_pattern (GenerateSparsity (GenerateSparsity dm))
  = sparsity_pattern (GenerateSparsity dm) /\
  bilaterals (GenerateSparsity dm) = bilaterals dm.
Proof.
  assert (H : GenerateSparsity (GenerateSparsity dm) = GenerateSparsity dm).
  { unfold GenerateSparsity at 1 3. cbn [bilaterals D].
    rewrite GenerateSparsity_slots. unfold GenerateSparsity. cbn [D].
    rewrite mark_slots_idempotent. reflexivity. }
  split; [exact H|]. split; [rewrite H; reflexivity | reflexivity].
Qed.

(** C4. Once the sparsity pattern is established, [Build_D] succeeds; it
    leaves the pattern and the constraints as they are, so the pattern
    stays established; and it changes values in the slots of the blocks
    only, all of which existed before the call. *)
Theorem Build_D_keeps_pattern (dm : DM) :
  pattern_established dm ->
  exists dm',
    Build_D dm = Some dm' /\
    sparsity_pattern dm' = sparsity_pattern dm /\
    bilaterals dm' = bilaterals dm /\
    pattern_established dm' /\
    (forall k, D dm' !! k <> D dm !! k ->
       k ∈ jacobian_slots dm /\ k ∈ sparsity_pattern dm).
Proof.
  intros Hest.
  destruct (write_slots_succeeds (jacobian_entries dm) (D dm)) as [J HJ].
  { intros e He. apply Hest. unfold jacobian_slots.
    apply list_elem_of_fmap. exists e. split; [reflexivity | exact He]. }
  exists {| bilaterals := bilaterals dm; D := J |}.
  assert (Hdom : dom J = dom (D dm)) by (apply (write_slots_dom _ _ _ HJ)).
  split; [unfold Build_D; rewrite HJ; reflexivity|].
  split; [exact Hdom|]. split; [reflexivity|]. split.
  - intros k Hk. unfold sparsity_pattern. cbn [D]. rewrite Hdom.
    apply Hest. exact Hk.
  - intros k Hk. cbn [D] in Hk.
    assert (Hin : k ∈ jacobian_slots dm).
    { destruct (decide (k ∈ jacobian_slots dm)) as [Hin|Hnin]; [exact Hin|].
      exfalso. apply Hk. apply (write_slots_frame _ _ _ _ HJ). exact Hnin. }
    split; [exact Hin | apply Hest, Hin].
Qed.

(** Whatever the state, [Build_D] allocates nothing: when it returns, the
    pattern is the one it found. *)
Lemma Build_D_never_allocates (dm dm' : DM) :
  Build_D dm = Some dm' -> sparsity_pattern dm' = sparsity_pattern dm.
Proof.
  unfold Build_D. destruct (write_slots (D dm) (jacobian_entries dm)) as [J|] eqn:E;
    [|discriminate].
  intros [= <-]. apply (write_slots_dom _ _ _ E).
Qed.

End SparsityFacts.

Example GenerateSparsity_example_size :
  size (sparsity_pattern (GenerateSparsity example_data_manager)) = 19%nat.
Proof. vm_compute. reflexivity. Qed.

Example GenerateSparsity_example_marked :
  D (GenerateSparsity example_data_manager) !! (1%nat, 12) = Some 1%Q /\
  D (GenerateSparsity example_data_manager) !! (1%nat, 0) = None.
Proof. vm_compute. split; reflexivity. Qed.

Example Build_D_example :
  (fun dm => (D dm !! (0%nat, 7), D dm !! (1%nat, 12), size (sparsity_pattern dm)))
    <$> Build_D (GenerateSparsity example_data_manager)
  = Some (Some (3 # 2)%Q, Some (0 # 3)%Q, 19%nat).
Proof. vm_compute. reflexivity. Qed.

(** Without the pattern [Build_D] has no slot to write to. *)
Example Build_D_without_pattern : Build_D example_data_manager = None.
Proof. vm_compute. reflexivity. Qed.

(** [Build_D] on two constraints, after [GenerateSparsity]. *)
Lemma Build_D_keeps_pattern_witness :
  pattern_established (GenerateSparsity example_data_manager) /\
  exists dm',
    Build_D (GenerateSparsity example_data_manager) = Some dm' /\
    sparsity_pattern dm' = sparsity_pattern (GenerateSparsity example_data_manager).
Proof.
  assert (H : pattern_established (GenerateSparsity example_data_manager))
    by (apply GenerateSparsity_establishes).
  split; [exact H|].
  destruct (Build_D_keeps_pattern _ H) as (dm' & Hb & Hp & _).
  exists dm'. split; [exact Hb | exact Hp].
Defined.

(** ** The sub-steps of the chase camera *)

Section AdvanceFacts.
Local Open Scope Q_scope.

Lemma std_min_cases (a b : double) :
  (b < a /\ std_min a b = b) \/ (a <= b /\ std_min a b = a).
Proof.
  unfold std_min. destruct (Qlt_le_dec b a) as [H|H]; [left | right]; split;
    (exact H || reflexivity).
Qed.

Lemma Qsum_nil : Qsum [] = 0.
Proof. reflexivity. Qed.

Lemma Qsum_cons (h : double) (l : list double) : Qsum (h :: l) = h + Qsum l.
Proof. reflexivity. Qed.

(** One unfolding of the loop. *)
Lemma Advance_loop_exit (fuel : nat) (m_stepsize step t : double) (updates : list double) :
  ~ t < step -> Advance_loop fuel m_stepsize step t updates = Some (t, updates).
Proof.
  intros H. destruct fuel; cbn; destruct (Qlt_le_dec t step); try reflexivity;
    contradiction.
Qed.

Lemma Advance_loop_iterate (fuel : nat) (m_stepsize step t : double)
    (updates : list double) :
  t < step ->
  Advance_loop (S fuel) m_stepsize step t updates
  = Advance_loop fuel m_stepsize step (t + std_min m_stepsize (step - t))
      (updates ++ [std_min m_stepsize (step - t)]).
Proof.
  intros H. cbn. destruct (Qlt_le_dec t step) as [_|H']; [reflexivity|].
  exfalso. apply (Qlt_not_le _ _ H), H'.
Qed.

(** What a finished loop has done: the sub-steps it added are positive and
    at most [m_stepsize]; [t] advanced by their sum, up to [step] and not
    beyond when it started below. *)
Lemma Advance_loop_result (fuel : nat) (m_stepsize step : double) :
  0 < m_stepsize ->
  forall (t : double) (updates : list double) (t' : double) (updates' : list double),
    Advance_loop fuel m_stepsize step t updates = Some (t', updates') ->
    exists new,
      updates' = updates ++ new /\
      Forall (fun h => 0 < h /\ h <= m_stepsize) new /\
      t' == t + Qsum new /\
      step <= t' /\
      (t <= step -> t' <= step) /\
      (step <= t -> new = []).
Proof.
  intros Hms. induction fuel as [|fuel IH]; intros t updates t' updates' H.
  - cbn in H. destruct (Qlt_le_dec t step) as [Hlt|Hge]; [discriminate|].
    injection H as <- <-. exists []. rewrite app_nil_r.
    split; [reflexivity|]. split; [constructor|].
    split; [rewrite Qsum_nil; lra|]. split; [exact Hge|].
    split; [intros Hle; exact Hle | reflexivity].
  - destruct (Qlt_le_dec t step) as [Hlt|Hge].
    + rewrite (Advance_loop_iterate _ _ _ _ _ Hlt) in H.
      apply IH in H as (new & -> & Hall & Ht' & Hstop & Hle & _).
      exists (std_min m_stepsize (step - t) :: new).
      rewrite <- app_assoc. cbn [app].
      split; [reflexivity|]. rewrite Qsum_cons.
      destruct (std_min_cases m_stepsize (step - t)) as [(Hc & Hm)|(Hc & Hm)];
        rewrite Hm in *.
      * split; [constructor; [split; lra | exact Hall]|].
        split; [lra|]. split; [exact Hstop|].
        split; [intros _; apply Hle; lra | intros Hge; lra].
      * split; [constructor; [split; lra | exact Hall]|].
        split; [lra|]. split; [exact Hstop|].
        split; [intros _; apply Hle; lra | intros Hge; lra].
    + rewrite Advance_loop_exit in H by (apply Qle_not_lt, Hge).
      injection H as <- <-. exists []. rewrite app_nil_r.
      split; [reflexivity|]. split; [constructor|].
      split; [rewrite Qsum_nil; lra|]. split; [exact Hge|].
      split; [intros Hle; exact Hle | reflexivity].
Qed.

(** The loop ends: [n] iterations are enough when [n * m_stepsize] covers
    what is left of [step]. *)
Lemma Advance_loop_terminates (m_stepsize step : double) (n : nat) :
  0 < m_stepsize ->
  forall (t : double) (updates : list double),
    step - t <= inject_Z (Z.of_nat n) * m_stepsize ->
    exists r, forall fuel, (n <= fuel)%nat ->
      Advance_loop fuel m_stepsize step t updates = Some r.
Proof.
  intros Hms. induction n as [|n IH]; intros t updates Hleft.
  - exists (t, updates). intros fuel _. apply Advance_loop_exit.
    change (inject_Z (Z.of_nat 0)) with 0 in Hleft. apply Qle_not_lt. lra.
  - destruct (Qlt_le_dec t step) as [Hlt|Hge].
    + assert (Hn : inject_Z (Z.of_nat (S n)) == inject_Z (Z.of_nat n) + 1).
      { rewrite Nat2Z.inj_succ. unfold Z.succ. rewrite inject_Z_plus. reflexivity. }
      assert (Hn0 : 0 <= inject_Z (Z.of_nat n)).
      { change 0 with (inject_Z 0). rewrite <- Zle_Qle. lia. }
      destruct (IH (t + std_min m_stepsize (step - t))
                   (updates ++ [std_min m_stepsize (step - t)])) as [r Hr].
      { destruct (std_min_cases m_stepsize (step - t)) as [(Hc & ->)|(Hc & ->)].
        - assert (0 <= inject_Z (Z.of_nat n) * m_stepsize)
            by (apply Qmult_le_0_compat; lra).
          lra.
        - rewrite Hn in Hleft. lra. }
      exists r. intros fuel Hfuel. destruct fuel as [|fuel]; [lia|].
      rewrite (Advance_loop_iterate _ _ _ _ _ Hlt). apply Hr. lia.
    + exists (t, updates). intros fuel _. apply Advance_loop_exit.
      apply Qle_not_lt, Hge.
Qed.

(** A number of iterations that covers [step]. *)
Lemma enough_iterations (m_stepsize step : double) :
  0 < m_stepsize ->
  step - 0 <= inject_Z (Z.of_nat (Z.to_nat (Qceiling (step / m_stepsize)))) * m_stepsize.
Proof.
  intros Hms.
  assert (Hx : step == (step / m_stepsize) * m_stepsize) by (field; lra).
  pose proof (Qle_ceiling (step / m_stepsize)) as Hc.
  assert (Hz : inject_Z (Qceiling (step / m_stepsize))
               <= inject_Z (Z.of_nat (Z.to_nat (Qceiling (step / m_stepsize))))).
  { rewrite <- Zle_Qle. lia. }
  assert (step / m_stepsize * m_stepsize
          <= inject_Z (Z.of_nat (Z.to_nat (Qceiling (step / m_stepsize)))) * m_stepsize).
  { apply Qmult_le_compat_r; lra. }
  lra.
Qed.

(** The loop in exact arithmetic.  For a positive [m_stepsize] it ends,
    whatever [step] is: some number of iterations [n] yields the result,
    and so does any larger fuel.  Every call of [Update] gets a sub-step
    [h] with [0 < h <= m_stepsize]; the sub-steps add up to [step] when
    [step > 0]; and there is no call at all when [step <= 0].  The ending
    is that of the exact loop, not of the binary64 loop of the code. *)
Lemma Advance_substeps (m_stepsize step : double) :
  0 < m_stepsize ->
  exists (n : nat) (t : double) (updates : list double),
    (forall fuel, (n <= fuel)%nat ->
       Advance fuel m_stepsize step = Some (t, updates)) /\
    Forall (fun h => 0 < h /\ h <= m_stepsize) updates /\
    (0 < step -> Qsum updates == step) /\
    (step <= 0 -> updates = []).
Proof.
  intros Hms.
  destruct (Advance_loop_terminates m_stepsize step
              (Z.to_nat (Qceiling (step / m_stepsize))) Hms 0 []
              (enough_iterations m_stepsize step Hms)) as [[t updates] Hr].
  exists (Z.to_nat (Qceiling (step / m_stepsize))), t, updates.
  split; [exact Hr|].
  destruct (Advance_loop_result _ m_stepsize step Hms 0 [] t updates
              (Hr _ (Nat.le_refl _))) as (new & Heq & Hall & Ht & Hstop & Hle & Hnone).
  cbn [app] in Heq. subst new.
  split; [exact Hall|]. split.
  - intros Hpos. specialize (Hle ltac:(lra)). lra.
  - exact Hnone.
Qed.

End AdvanceFacts.

Example Advance_example :
  Advance 4 (1 # 100) (1 # 30)
  = Some ((0 + (1 # 100) + (1 # 100) + (1 # 100)
           + ((1 # 30) - (0 + (1 # 100) + (1 # 100) + (1 # 100))))%Q,
          [(1 # 100)%Q; (1 # 100)%Q; (1 # 100)%Q;
           ((1 # 30) - (0 + (1 # 100) + (1 # 100) + (1 # 100)))%Q]).
Proof. vm_compute. reflexivity. Qed.

Example Advance_example_out_of_fuel : Advance 3 (1 # 100) (1 # 30) = None.
Proof. vm_compute. reflexivity. Qed.

Example Advance_example_nonpositive : Advance 0 (1 # 100) (-1 # 2) = Some (0%Q, []).
Proof. vm_compute. reflexivity. Qed.

(** ** More on the offsets of a node *)

Section NodeBaseMoreFacts.
Context {Members ChState ChStateDelta ChVectorDynamic ChSystemDescriptor : Type}.

Local Abbreviation Node := (ChNodeBase Members).
Local Abbreviation Class :=
  (NodeClass Members ChState ChStateDelta ChVectorDynamic ChSystemDescriptor).
Local Abbreviation Wld :=
  (World Members ChState ChStateDelta ChVectorDynamic ChSystemDescriptor).
Local Abbreviation Op := (NodeOp ChVectorDynamic).

Lemma to_unsigned_range (z : Z) : 0 <= to_unsigned z < 2 ^ 32.
Proof. unfold to_unsigned. apply Z.mod_pos_bound. lia. Qed.

Lemma to_unsigned_fixed (z : Z) : to_unsigned z = z <-> 0 <= z < 2 ^ 32.
Proof.
  split.
  - intros H. rewrite <- H. apply to_unsigned_range.
  - apply to_unsigned_small.
Qed.

(** Reading an offset after setting it gives the argument back exactly when
    the argument is a 32-bit unsigned value; what is stored is always one.
    A setter leaves the other offset alone, and the two setters commute. *)
Theorem NodeSetOffset_roundtrip (this : Node) (moff moff' : Z) :
  (NodeGetOffsetX (NodeSetOffset_x moff this) = moff <-> 0 <= moff < 2 ^ 32) /\
  (NodeGetOffsetW (NodeSetOffset_w moff this) = moff <-> 0 <= moff < 2 ^ 32) /\
  0 <= NodeGetOffsetX (NodeSetOffset_x moff this) < 2 ^ 32 /\
  0 <= NodeGetOffsetW (NodeSetOffset_w moff this) < 2 ^ 32 /\
  NodeGetOffsetW (NodeSetOffset_x moff this) = NodeGetOffsetW this /\
  NodeGetOffsetX (NodeSetOffset_w moff this) = NodeGetOffsetX this /\
  NodeSetOffset_x moff (NodeSetOffset_w moff' this)
  = NodeSetOffset_w moff' (NodeSetOffset_x moff this).
Proof.
  split; [apply to_unsigned_fixed|].
  split; [apply to_unsigned_fixed|].
  split; [apply to_unsigned_range|].
  split; [apply to_unsigned_range|].
  repeat split.
Qed.

Lemma on_this_id (w : Wld) :
  on_this (fun n => {| offset_x := offset_x n; offset_w := offset_w n;
                       members := members n |}) w = w.
Proof. destruct w as [[ox ow m] x v a T R d]. reflexivity. Qed.

(** After any sequence of calls of the member functions (none overridden),
    each offset is the argument of the last call of its setter, or what it
    was when the sequence has none; nothing else in the world has changed. *)
Theorem run_ops_last_setter_wins (cls : Class) (ops : list Op) (w : Wld) :
  default_hooks cls ->
  run_ops cls ops w
  = on_this (fun n => {| offset_x := last_offset_x ops (offset_x n);
                         offset_w := last_offset_w ops (offset_w n);
                         members := members n |}) w.
Proof.
  intros Hcls. unfold run_ops, last_offset_x, last_offset_w.
  revert w. induction ops as [|op ops IH]; intros w; cbn [foldl].
  - symmetry. apply on_this_id.
  - rewrite IH. destruct (is_offset_setter op) eqn:E.
    + destruct op; try discriminate E; destruct w as [[ox ow m] x v a T R d];
        reflexivity.
    + rewrite (run_op_default_hook cls op w Hcls E).
      destruct op; try discriminate E; reflexivity.
Qed.

(** A class that overrides [GetNdofW] alone: the default of
    [GetNdofW_active] goes through the virtual [GetNdofW] and returns the
    value of the override, while [GetNdofX_active] still returns
    [GetNdofX]. *)
Theorem GetNdofW_active_follows_override (cls : Class) (this : Node)
    (f : Members -> Z) :
  GetNdofW_override cls = Some f ->
  GetNdofW_active_override cls = None ->
  GetNdofX_active_override cls = None ->
  GetNdofW cls this = f (members this) /\
  GetNdofW_active cls this = f (members this) /\
  GetNdofX_active cls this = GetNdofX cls this.
Proof.
  intros HW HWa HXa. unfold GetNdofW_active, GetNdofX_active, GetNdofW.
  rewrite HW, HWa, HXa. repeat split.
Qed.

End NodeBaseMoreFacts.

Example NodeSetOffset_x_wraps :
  NodeGetOffsetX (NodeSetOffset_x (-1) simple_node) = 4294967295 /\
  NodeGetOffsetX (NodeSetOffset_x (2 ^ 32 + 5) simple_node) = 5.
Proof. split; reflexivity. Qed.

(** Two calls of each setter, interleaved with hooks. *)
Lemma run_ops_last_setter_wins_witness :
  default_hooks (simple_class 3) /\
  offsets_of (run_ops (simple_class 3)
                [Op_NodeSetOffset_x 4; Op_InjectVariables; Op_NodeSetOffset_w 9;
                 Op_NodeSetOffset_x 7; Op_VariablesFbReset; Op_NodeSetOffset_w 2]
                simple_world)
  = (7, 2).
Proof.
  assert (H : default_hooks (simple_class 3)) by (repeat split).
  split; [exact H|].
  rewrite (run_ops_last_setter_wins (simple_class 3) _ simple_world H).
  reflexivity.
Defined.

(** The class with seven position and six velocity coordinates. *)
Lemma GetNdofW_active_follows_override_witness :
  GetNdofW_override quaternion_class = Some (fun _ => 6) /\
  GetNdofW_active quaternion_class simple_node = 6 /\
  GetNdofX_active quaternion_class simple_node = 7.
Proof.
  split; [reflexivity|].
  destruct (GetNdofW_active_follows_override quaternion_class simple_node
              (fun _ => 6) eq_refl eq_refl eq_refl) as (_ & Hw & Hx).
  split; [exact Hw | exact Hx].
Defined.

(** ** The keyboard handler *)

Lemma key_is_spec (keyPress : KeyPressEvent) (c : ascii) :
  key_is keyPress c = true
  <-> keyBase keyPress = char_code c \/ keyModified keyPress = char_code c.
Proof. unfold key_is. rewrite orb_true_iff, !Z.eqb_eq. reflexivity. Qed.

(** Without a GUI driver no key does anything. *)
Theorem apply_without_driver (keyPress : KeyPressEvent)
    (app : ChVehicleVisualSystemVSG) :
  m_guiDriver app = None -> VehAppKeyboardHandler_apply keyPress app = app.
Proof.
  intros H. unfold VehAppKeyboardHandler_apply, increaseThrottle,
    decreaseThrottle, leftTurn, rightTurn, call_guiDriver.
  destruct (key_is keyPress "w"), (key_is keyPress "s"),
    (key_is keyPress "a"), (key_is keyPress "d"); rewrite ?H; reflexivity.
Qed.

Ltac key_fact E :=
  match type of E with
  | key_is ?k ?c = true => apply (key_is_spec k c) in E
  | key_is ?k ?c = false =>
      apply not_true_iff_false in E; rewrite (key_is_spec k c) in E
  end;
  cbv [char_code N_of_ascii N_of_digits Z.of_N N.add N.mul Pos.add Pos.mul
       Pos.succ] in E.

(** With a GUI driver, one key press makes the driver calls of the keys
    that its base or its modified symbol matches, each once even when both
    symbols match, in the order w, s, a, d; at most two calls, and none
    for another key. *)
Theorem apply_with_driver (keyPress : KeyPressEvent)
    (app : ChVehicleVisualSystemVSG) (calls : list DriverCall) :
  m_guiDriver app = Some calls ->
  exists new,
    m_guiDriver (VehAppKeyboardHandler_apply keyPress app) = Some (calls ++ new) /\
    sublist new [IncreaseSpeed; DecreaseSpeed; ChangeSteeringLeft; ChangeSteeringRight] /\
    (length new <= 2)%nat /\
    (In IncreaseSpeed new
     <-> keyBase keyPress = char_code "w" \/ keyModified keyPress = char_code "w") /\
    (In DecreaseSpeed new
     <-> keyBase keyPress = char_code "s" \/ keyModified keyPress = char_code "s") /\
    (In ChangeSteeringLeft new
     <-> keyBase keyPress = char_code "a" \/ keyModified keyPress = char_code "a") /\
    (In ChangeSteeringRight new
     <-> keyBase keyPress = char_code "d" \/ keyModified keyPress = char_code "d").
Proof.
  intros H. destruct app as [drv]. cbn in H. subst drv.
  unfold VehAppKeyboardHandler_apply, increaseThrottle, decreaseThrottle,
    leftTurn, rightTurn, call_guiDriver.
  destruct (key_is keyPress "w") eqn:Ew, (key_is keyPress "s") eqn:Es,
    (key_is keyPress "a") eqn:Ea, (key_is keyPress "d") eqn:Ed;
    key_fact Ew; key_fact Es; key_fact Ea; key_fact Ed;
    cbn [m_guiDriver]; rewrite <- ?app_assoc; cbn [app];
    try (exfalso; lia);
    (eexists; split; [try reflexivity; rewrite app_nil_r; reflexivity|]);
    (split; [repeat (first [apply sublist_nil | apply sublist_skip
                            | apply sublist_cons])|]);
    (split; [cbn; lia|]);
    cbv [char_code N_of_ascii N_of_digits Z.of_N N.add N.mul Pos.add Pos.mul
         Pos.succ]; cbn [In];
    intuition (try congruence; try lia).
Qed.

Example apply_w_both : 
  VehAppKeyboardHandler_apply {| keyBase := 119; keyModified := 119 |}
    {| m_guiDriver := Some [] |}
  = {| m_guiDriver := Some [IncreaseSpeed] |}.
Proof. reflexivity. Qed.

Example apply_w_and_d :
  VehAppKeyboardHandler_apply {| keyBase := 100; keyModified := 119 |}
    {| m_guiDriver := Some [DecreaseSpeed] |}
  = {| m_guiDriver := Some [DecreaseSpeed; IncreaseSpeed; ChangeSteeringRight] |}.
Proof. reflexivity. Qed.

(** The key s without a driver. *)
Lemma apply_without_driver_witness :
  VehAppKeyboardHandler_apply {| keyBase := 115; keyModified := 83 |}
    {| m_guiDriver := None |}
  = {| m_guiDriver := None |}.
Proof.
  apply (apply_without_driver {| keyBase := 115; keyModified := 83 |}
           {| m_guiDriver := None |}).
  reflexivity.
Defined.

(** The key a on a driver that has been called once. *)
Lemma apply_with_driver_witness :
  exists new,
    m_guiDriver (VehAppKeyboardHandler_apply {| keyBase := 97; keyModified := 65 |}
                   {| m_guiDriver := Some [IncreaseSpeed] |})
    = Some ([IncreaseSpeed] ++ new) /\
    (length new <= 2)%nat.
Proof.
  destruct (apply_with_driver {| keyBase := 97; keyModified := 65 |}
              {| m_guiDriver := Some [IncreaseSpeed] |} [IncreaseSpeed] eq_refl)
    as (new & Hn & _ & Hl & _).
  exists new. split; [exact Hn | exact Hl].
Defined.

(** ** A step size that is not positive *)

Section AdvanceMoreFacts.
Local Open Scope Q_scope.

(** With [m_stepsize <= 0] and a positive [step] the loop makes no
    progress: it never ends, however much fuel it gets. *)
Lemma Advance_loop_stuck (fuel : nat) (m_stepsize step : double) :
  m_stepsize <= 0 -> 0 < step ->
  forall (t : double) (updates : list double),
    t <= 0 -> Advance_loop fuel m_stepsize step t updates = None.
Proof.
  intros Hms Hstep. induction fuel as [|fuel IH]; intros t updates Ht.
  - cbn. destruct (Qlt_le_dec t step) as [_|Hge]; [reflexivity | lra].
  - rewrite Advance_loop_iterate by lra. apply IH.
    destruct (std_min_cases m_stepsize (step - t)) as [(Hc & Hm)|(Hc & Hm)];
      rewrite Hm; lra.
Qed.

Theorem Advance_hangs (m_stepsize step : double) :
  m_stepsize <= 0 -> 0 < step ->
  forall fuel, Advance fuel m_stepsize step = None.
Proof.
  intros Hms Hstep fuel. apply Advance_loop_stuck; [exact Hms | exact Hstep | lra].
Qed.

End AdvanceMoreFacts.

(** A step size of zero. *)
Lemma Advance_hangs_witness :
  (0 <= 0)%Q /\ (0 < 1 # 30)%Q /\ Advance 1000 0 (1 # 30) = None.
Proof.
  assert (H1 : (0 <= 0)%Q) by (vm_compute; discriminate).
  assert (H2 : (0 < 1 # 30)%Q) by reflexivity.
  split; [exact H1|]. split; [exact H2|].
  apply (Advance_hangs 0 (1 # 30) H1 H2).
Defined.

(** ** The contact callbacks *)

Section ContactFacts.
Local Open Scope Q_scope.

(** The combined friction does not depend on the order of the two
    materials, is the common value when they agree, and lies between the
    two values. *)
Theorem CombineFriction_mean (a1 a2 : double) :
  CombineFriction a1 a2 == CombineFriction a2 a1 /\
  CombineFriction a1 a1 == a1 /\
  (a1 <= a2 -> a1 <= CombineFriction a1 a2 /\ CombineFriction a1 a2 <= a2).
Proof.
  unfold CombineFriction. split; [ring|]. split; [ring|].
  intros H. split; lra.
Qed.

Lemma Vdot_sub_l (a b c : ChVector) : Vdot (Vsub a b) c == Vdot a c - Vdot b c.
Proof. unfold Vdot, Vsub. cbn. ring. Qed.

Lemma Vdot_scale_l (s : double) (a b : ChVector) :
  Vdot (Vscale s a) b == s * Vdot a b.
Proof. unfold Vdot, Vscale. cbn. ring. Qed.

Lemma Vdot_sub_r (a b c : ChVector) : Vdot a (Vsub b c) == Vdot a b - Vdot a c.
Proof. unfold Vdot, Vsub. cbn. ring. Qed.

Lemma Vdot_scale_r (s : double) (a b : ChVector) :
  Vdot a (Vscale s b) == s * Vdot a b.
Proof. unfold Vdot, Vscale. cbn. ring. Qed.

Lemma Vdot_comm (a b : ChVector) : Vdot a b == Vdot b a.
Proof. unfold Vdot. ring. Qed.

Lemma Qsquare_nonneg (a : double) : 0 <= a * a.
Proof.
  destruct (Qlt_le_dec a 0) as [H|H].
  - setoid_replace (a * a) with ((- a) * (- a)) using relation Qeq by ring.
    apply Qmult_le_0_compat; lra.
  - apply Qmult_le_0_compat; exact H.
Qed.

Lemma Vdot_self_nonneg (a : ChVector) : 0 <= Vdot a a.
Proof.
  unfold Vdot.
  pose proof (Qsquare_nonneg (vec_x a)). pose proof (Qsquare_nonneg (vec_y a)).
  pose proof (Qsquare_nonneg (vec_z a)). lra.
Qed.

(** The tangential part of a velocity is normal to a unit normal. *)
Lemma tangential_normal (r n : ChVector) :
  Vdot n n == 1 -> Vdot (Vsub r (Vscale (Vdot r n) n)) n == 0.
Proof. intros Hn. rewrite Vdot_sub_l, Vdot_scale_l, Hn. ring. Qed.

Lemma std_min_nonneg (a b : double) : 0 <= a -> 0 <= b -> 0 <= std_min a b.
Proof.
  intros Ha Hb. destruct (std_min_cases a b) as [(_ & ->)|(_ & ->)]; assumption.
Qed.

Variable Length : ChVector -> double.

(** For a unit normal, positive masses and a positive slip threshold, the
    component of the contact force along the normal is the normal force
    [kn * delta - gn * relvel_n_mag] of the code, with or without sliding:
    the friction term adds nothing along the normal. *)
Theorem CalculateForce_normal_component (sys : ChSystemSMC)
    (normal_dir p1 p2 vel1 vel2 : ChVector) (mat : ChMaterialCompositeSMC)
    (delta eff_radius mass1 mass2 : double) :
  Vdot normal_dir normal_dir == 1 ->
  0 < mass1 -> 0 < mass2 ->
  0 < GetSlipVelocityThreshold sys ->
  Vdot (CalculateForce Length sys normal_dir p1 p2 vel1 vel2 mat delta eff_radius
          mass1 mass2) normal_dir
  == kn mat * delta
     - (mass1 * mass2 / (mass1 + mass2) * gn mat) * Vdot (Vsub vel2 vel1) normal_dir.
Proof.
  intros Hn _ _ _. unfold CalculateForce. cbv zeta.
  destruct (Qlt_le_dec _ _) as [Hslow|Hslide].
  - rewrite Vdot_scale_l, Hn. ring.
  - rewrite Vdot_sub_l, !Vdot_scale_l, (tangential_normal _ _ Hn), Hn. ring.
Qed.

(** With non-negative stiffness, damping and friction coefficients and a
    non-negative time step, the part of the contact force that is not
    along the (unit) normal never pushes along the relative velocity of
    the two contact points: their dot product is at most zero.  Below the
    slip threshold that part is zero. *)
Theorem CalculateForce_friction_opposes_sliding (sys : ChSystemSMC)
    (normal_dir p1 p2 vel1 vel2 : ChVector) (mat : ChMaterialCompositeSMC)
    (delta eff_radius mass1 mass2 : double) :
  Vdot normal_dir normal_dir == 1 ->
  0 < mass1 -> 0 < mass2 ->
  0 < GetSlipVelocityThreshold sys ->
  0 <= GetStep sys ->
  0 <= kt mat -> 0 <= gt mat -> 0 <= mu_eff mat ->
  let force :=
    CalculateForce Length sys normal_dir p1 p2 vel1 vel2 mat delta eff_radius
      mass1 mass2 in
  let tangential := Vsub force (Vscale (Vdot force normal_dir) normal_dir) in
  Vdot tangential (Vsub vel2 vel1) <= 0 /\
  (Length (Vsub (Vsub vel2 vel1)
                (Vscale (Vdot (Vsub vel2 vel1) normal_dir) normal_dir))
   < GetSlipVelocityThreshold sys ->
   Veq tangential {| vec_x := 0; vec_y := 0; vec_z := 0 |}).
Proof.
  intros Hn Hm1 Hm2 Hthr HdT Hkt Hgt Hmu force tangential.
  subst tangential force.
  set (r := Vsub vel2 vel1).
  set (rt := Vsub r (Vscale (Vdot r normal_dir) normal_dir)).
  assert (Hrtn : Vdot rt normal_dir == 0) by (apply tangential_normal, Hn).
  assert (Hrtr : Vdot rt r == Vdot rt rt).
  { unfold rt at 3. rewrite Vdot_sub_r, Vdot_scale_r, Hrtn. ring. }
  unfold CalculateForce. cbv zeta. fold r. fold rt.
  destruct (Qlt_le_dec (Length rt) (GetSlipVelocityThreshold sys)) as [Hslow|Hslide].
  - set (fN := kn mat * delta - _).
    split.
    + rewrite Vdot_sub_l, !Vdot_scale_l, Hn. lra.
    + intros _. unfold Veq, Vsub, Vscale. cbn.
      assert (Hd : Vdot (Vscale fN normal_dir) normal_dir == fN)
        by (rewrite Vdot_scale_l, Hn; ring).
      unfold Vscale in Hd. cbn in Hd.
      repeat split; rewrite Hd; ring.
  - split; [|intros Hlt; exfalso; lra].
    set (fN := kn mat * delta - _).
    set (fT := std_min _ _).
    assert (HfT : 0 <= fT).
    { apply std_min_nonneg.
      - assert (Hem : 0 <= mass1 * mass2 / (mass1 + mass2)).
        { apply Qle_shift_div_l; [lra|].
          rewrite Qmult_0_l. apply Qmult_le_0_compat; lra. }
        assert (0 <= Length rt) by lra.
        assert (0 <= kt mat * (Length rt * GetStep sys))
          by (apply Qmult_le_0_compat;
              [assumption | apply Qmult_le_0_compat; assumption]).
        assert (0 <= mass1 * mass2 / (mass1 + mass2) * gt mat * Length rt)
          by (apply Qmult_le_0_compat;
              [apply Qmult_le_0_compat; assumption | assumption]).
        lra.
      - apply Qmult_le_0_compat; [exact Hmu | apply Qabs_nonneg]. }
    assert (Hc : 0 <= fT / Length rt).
    { apply Qle_shift_div_l; [lra|]. rewrite Qmult_0_l. exact HfT. }
    set (c := fT / Length rt) in *.
    assert (Hfn : Vdot (Vsub (Vscale fN normal_dir) (Vscale c rt)) normal_dir == fN).
    { rewrite Vdot_sub_l, !Vdot_scale_l, Hrtn, Hn. ring. }
    rewrite Vdot_sub_l, Vdot_scale_l, Hfn.
    rewrite Vdot_sub_l, !Vdot_scale_l, Hrtr.
    pose proof (Vdot_self_nonneg rt) as Hsq.
    assert (0 <= c * Vdot rt rt) by (apply Qmult_le_0_compat; assumption).
    lra.
Qed.

End ContactFacts.

Example CalculateForce_example :
  Veq (CalculateForce axis_length
         {| GetStep := 1 # 100; GetSlipVelocityThreshold := 1 # 10 |}
         {| vec_x := 0; vec_y := 0; vec_z := 1 |}
         {| vec_x := 0; vec_y := 0; vec_z := 0 |}
         {| vec_x := 0; vec_y := 0; vec_z := 0 |}
         {| vec_x := 0; vec_y := 0; vec_z := 0 |}
         {| vec_x := 2; vec_y := 0; vec_z := -1 |}
         {| kn := 1000; kt := 100; gn := 4; gt := 2; mu_eff := 1 # 2 |}
         (1 # 100) 1 2 2)
      {| vec_x := -6; vec_y := 0; vec_z := 14 |}.
Proof. vm_compute. repeat split. Qed.

(** Friction coefficients 1/10 and 3/10. *)
Lemma CombineFriction_mean_witness :
  (1 # 10 <= 3 # 10)%Q /\
  (1 # 10 <= CombineFriction (1 # 10) (3 # 10))%Q /\
  (CombineFriction (1 # 10) (3 # 10) <= 3 # 10)%Q.
Proof.
  assert (H : (1 # 10 <= 3 # 10)%Q) by (vm_compute; discriminate).
  split; [exact H|].
  apply (CombineFriction_mean (1 # 10) (3 # 10)). exact H.
Defined.

(** A contact with the normal along z and sliding along x. *)
Lemma CalculateForce_normal_component_witness :
  (Vdot {| vec_x := 0; vec_y := 0; vec_z := 1 |}
        {| vec_x := 0; vec_y := 0; vec_z := 1 |} == 1)%Q /\
  (Vdot (CalculateForce axis_length
           {| GetStep := 1 # 100; GetSlipVelocityThreshold := 1 # 10 |}
           {| vec_x := 0; vec_y := 0; vec_z := 1 |}
           {| vec_x := 0; vec_y := 0; vec_z := 0 |}
           {| vec_x := 0; vec_y := 0; vec_z := 0 |}
           {| vec_x := 0; vec_y := 0; vec_z := 0 |}
           {| vec_x := 2; vec_y := 0; vec_z := -1 |}
           {| kn := 1000; kt := 100; gn := 4; gt := 2; mu_eff := 1 # 2 |}
           (1 # 100) 1 2 2)
        {| vec_x := 0; vec_y := 0; vec_z := 1 |} == 14)%Q.
Proof.
  assert (Hn : (Vdot {| vec_x := 0; vec_y := 0; vec_z := 1 |}
                     {| vec_x := 0; vec_y := 0; vec_z := 1 |} == 1)%Q)
    by reflexivity.
  split; [exact Hn|].
  rewrite (CalculateForce_normal_component axis_length
             {| GetStep := 1 # 100; GetSlipVelocityThreshold := 1 # 10 |}
             {| vec_x := 0; vec_y := 0; vec_z := 1 |}
             {| vec_x := 0; vec_y := 0; vec_z := 0 |}
             {| vec_x := 0; vec_y := 0; vec_z := 0 |}
             {| vec_x := 0; vec_y := 0; vec_z := 0 |}
             {| vec_x := 2; vec_y := 0; vec_z := -1 |}
             {| kn := 1000; kt := 100; gn := 4; gt := 2; mu_eff := 1 # 2 |}
             (1 # 100) 1 2 2 Hn eq_refl eq_refl eq_refl).
  reflexivity.
Defined.

Lemma CalculateForce_friction_opposes_sliding_witness :
  (Vdot {| vec_x := 0; vec_y := 0; vec_z := 1 |}
        {| vec_x := 0; vec_y := 0; vec_z := 1 |} == 1)%Q /\
  (Vdot (Vsub
           (CalculateForce axis_length
              {| GetStep := 1 # 100; GetSlipVelocityThreshold := 1 # 10 |}
              {| vec_x := 0; vec_y := 0; vec_z := 1 |}
              {| vec_x := 0; vec_y := 0; vec_z := 0 |}
              {| vec_x := 0; vec_y := 0; vec_z := 0 |}
              {| vec_x := 0; vec_y := 0; vec_z := 0 |}
              {| vec_x := 2; vec_y := 0; vec_z := -1 |}
              {| kn := 1000; kt := 100; gn := 4; gt := 2; mu_eff := 1 # 2 |}
              (1 # 100) 1 2 2)
           (Vscale
              (Vdot
                 (CalculateForce axis_length
                    {| GetStep := 1 # 100; GetSlipVelocityThreshold := 1 # 10 |}
                    {| vec_x := 0; vec_y := 0; vec_z := 1 |}
                    {| vec_x := 0; vec_y := 0; vec_z := 0 |}
                    {| vec_x := 0; vec_y := 0; vec_z := 0 |}
                    {| vec_x := 0; vec_y := 0; vec_z := 0 |}
                    {| vec_x := 2; vec_y := 0; vec_z := -1 |}
                    {| kn := 1000; kt := 100; gn := 4; gt := 2; mu_eff := 1 # 2 |}
                    (1 # 100) 1 2 2)
                 {| vec_x := 0; vec_y := 0; vec_z := 1 |})
              {| vec_x := 0; vec_y := 0; vec_z := 1 |}))
        (Vsub {| vec_x := 2; vec_y := 0; vec_z := -1 |}
              {| vec_x := 0; vec_y := 0; vec_z := 0 |}) <= 0)%Q.
Proof.
  assert (Hn : (Vdot {| vec_x := 0; vec_y := 0; vec_z := 1 |}
                     {| vec_x := 0; vec_y := 0; vec_z := 1 |} == 1)%Q)
    by reflexivity.
  split; [exact Hn|].
  apply (CalculateForce_friction_opposes_sliding axis_length
           {| GetStep := 1 # 100; GetSlipVelocityThreshold := 1 # 10 |}
           {| vec_x := 0; vec_y := 0; vec_z := 1 |}
           {| vec_x := 0; vec_y := 0; vec_z := 0 |}
           {| vec_x := 0; vec_y := 0; vec_z := 0 |}
           {| vec_x := 0; vec_y := 0; vec_z := 0 |}
           {| vec_x := 2; vec_y := 0; vec_z := -1 |}
           {| kn := 1000; kt := 100; gn := 4; gt := 2; mu_eff := 1 # 2 |}
           (1 # 100) 1 2 2 Hn eq_refl eq_refl eq_refl);
    vm_compute; discriminate.
Defined.

(** ** The path and the BCE markers *)

Section PathFacts.
Local Open Scope Q_scope.

(** With at least two points, [CreatePath] hands one more point to the
    curve: the points read, each raised by 0.1, and then a point that
    continues the last segment by its own length. *)
Theorem CreatePath_points_extends (points : list ChVector) :
  (2 <= length points)%nat ->
  exists (result : list ChVector) (before last beyond : ChVector),
    CreatePath_points points = Some result /\
    length result = S (length points) /\
    (forall (i : nat) (p : ChVector),
       points !! i = Some p -> result !! i = Some (raise_point p)) /\
    result !! (length points - 2)%nat = Some before /\
    result !! (length points - 1)%nat = Some last /\
    result !! length points = Some beyond /\
    Veq (Vsub beyond last) (Vsub last before).
Proof.
  intros Hlen. unfold CreatePath_points.
  destruct (Nat.ltb_spec (length points) 2) as [Hlt|_]; [lia|].
  destruct (lookup_lt_is_Some_2 points (length points - 1)%nat ltac:(lia)) as [a Ha].
  destruct (lookup_lt_is_Some_2 points (length points - 2)%nat ltac:(lia)) as [b Hb].
  rewrite Ha, Hb.
  exists (raise_point <$> (points ++ [Vsub (Vscale 2 a) b])),
    (raise_point b), (raise_point a), (raise_point (Vsub (Vscale 2 a) b)).
  split; [reflexivity|].
  split; [rewrite length_fmap, length_app; cbn; lia|].
  split.
  { intros i p Hi. rewrite list_lookup_fmap, lookup_app_l
      by (apply lookup_lt_Some in Hi; exact Hi).
    rewrite Hi. reflexivity. }
  split.
  { rewrite list_lookup_fmap, lookup_app_l by lia. rewrite Hb. reflexivity. }
  split.
  { rewrite list_lookup_fmap, lookup_app_l by lia. rewrite Ha. reflexivity. }
  split.
  { rewrite list_lookup_fmap, lookup_app_r by lia.
    rewrite Nat.sub_diag. reflexivity. }
  unfold Veq, Vsub, Vscale, raise_point. cbn. repeat split; ring.
Qed.

(** With fewer than two points an index is out of range. *)
Lemma CreatePath_points_too_short (points : list ChVector) :
  (length points < 2)%nat -> CreatePath_points points = None.
Proof.
  intros Hlen. unfold CreatePath_points.
  destruct (Nat.ltb_spec (length points) 2) as [_|Hge]; [reflexivity | lia].
Qed.

End PathFacts.

Example CreatePath_points_example :
  CreatePath_points [ {| vec_x := 0; vec_y := 0; vec_z := 0 |};
                      {| vec_x := 1; vec_y := 2; vec_z := 0 |} ]
  = Some [ {| vec_x := 0; vec_y := 0; vec_z := 0 + (1 # 10) |};
           {| vec_x := 1; vec_y := 2; vec_z := 0 + (1 # 10) |};
           {| vec_x := 2 * 1 - 0; vec_y := 2 * 2 - 0;
              vec_z := 2 * 0 - 0 + (1 # 10) |} ]%Q.
Proof. reflexivity. Qed.

(** A path of two points. *)
Lemma CreatePath_points_extends_witness :
  (2 <= length [ {| vec_x := 0; vec_y := 0; vec_z := 0 |};
                 {| vec_x := 1; vec_y := 2; vec_z := 0 |} ])%nat /\
  exists result,
    CreatePath_points [ {| vec_x := 0; vec_y := 0; vec_z := 0 |};
                        {| vec_x := 1; vec_y := 2; vec_z := 0 |} ] = Some result /\
    length result = 3%nat.
Proof.
  assert (H : (2 <= length [ {| vec_x := 0; vec_y := 0; vec_z := 0 |};
                             {| vec_x := 1; vec_y := 2; vec_z := 0 |} ])%nat)
    by (cbn; lia).
  split; [exact H|].
  destruct (CreatePath_points_extends _ H) as (result & _ & _ & _ & Hr & Hl & _).
  exists result. split; [exact Hr | exact Hl].
Defined.

(** A single point. *)
Lemma CreatePath_points_too_short_witness :
  CreatePath_points [ {| vec_x := 0; vec_y := 0; vec_z := 0 |} ] = None.
Proof.
  apply (CreatePath_points_too_short [ {| vec_x := 0; vec_y := 0; vec_z := 0 |} ]).
  cbn. lia.
Defined.

Section TrackBCEFacts.
Context {ChBody : Type}.
Local Open Scope Q_scope.

Local Abbreviation Shoe := (ChTrackShoe ChBody).
Local Abbreviation Fsi := (ChSystemFsi ChBody).
Local Abbreviation Call := (FsiCall ChBody).

Lemma add_shoe_calls (coll_boxes : list BoxShape) (sysFSI : Fsi) (shoe : Shoe) :
  add_shoe coll_boxes sysFSI shoe
  = {| GetNumBoundaryLayers := GetNumBoundaryLayers sysFSI;
       GetInitialSpacing := GetInitialSpacing sysFSI;
       fsi_calls := fsi_calls sysFSI ++ shoe_calls coll_boxes shoe |}.
Proof.
  unfold add_shoe, shoe_calls.
  change (fsi_calls sysFSI ++ AddFsiBody (GetShoeBody shoe) :: ?l)
    with (fsi_calls sysFSI ++ [AddFsiBody (GetShoeBody shoe)] ++ l).
  rewrite app_assoc.
  change (fsi_calls sysFSI ++ [AddFsiBody (GetShoeBody shoe)])
    with (fsi_calls (fsi_call (AddFsiBody (GetShoeBody shoe)) sysFSI)).
  change (GetNumBoundaryLayers sysFSI)
    with (GetNumBoundaryLayers (fsi_call (AddFsiBody (GetShoeBody shoe)) sysFSI)).
  change (GetInitialSpacing sysFSI)
    with (GetInitialSpacing (fsi_call (AddFsiBody (GetShoeBody shoe)) sysFSI)).
  generalize (fsi_call (AddFsiBody (GetShoeBody shoe)) sysFSI) as s.
  induction coll_boxes as [|box boxes IH]; intros s; cbn [foldl fmap list_fmap].
  - rewrite app_nil_r. destruct s; reflexivity.
  - rewrite IH. unfold fsi_call. cbn. rewrite <- app_assoc. reflexivity.
Qed.

Lemma add_shoes_calls (coll_boxes : list BoxShape) (shoes : list Shoe) (sysFSI : Fsi) :
  foldl (add_shoe coll_boxes) sysFSI shoes
  = {| GetNumBoundaryLayers := GetNumBoundaryLayers sysFSI;
       GetInitialSpacing := GetInitialSpacing sysFSI;
       fsi_calls := fsi_calls sysFSI ++ concat (shoe_calls coll_boxes <$> shoes) |}.
Proof.
  revert sysFSI. induction shoes as [|shoe shoes IH]; intros sysFSI; cbn.
  - rewrite app_nil_r. destruct sysFSI; reflexivity.
  - rewrite IH, add_shoe_calls. cbn. rewrite <- app_assoc. reflexivity.
Qed.







(** With a single boundary layer the least length is zero and the size
    test asks for a negative height: no box passes, and the shoes get no
    BCE marker at all. *)
Theorem CreateTrackBCEMarkers_single_layer (vehicle : TrackedVehicle ChBody)
    (sysFSI : Fsi) (shoe0 : Shoe) :
  shoes_left vehicle !! 0%nat = Some shoe0 ->
  GetNumBoundaryLayers sysFSI = 1%Z ->
  0 <= GetInitialSpacing sysFSI ->
  Forall (fun box => 0 <= vec_z (m_dims box)) (m_coll_boxes shoe0) ->
  exists sysFSI' : Fsi,
    CreateTrackBCEMarkers vehicle sysFSI = Some sysFSI' /\
    fsi_calls sysFSI'
    = fsi_calls sysFSI
      ++ ((fun shoe => AddFsiBody (GetShoeBody shoe))
            <$> (shoes_left vehicle ++ shoes_right vehicle)).
Proof.
  intros H0 Hlayers Hspacing Hdims. unfold CreateTrackBCEMarkers. rewrite H0. cbv zeta.
  assert (Hmin : min_length sysFSI <= 0).
  { unfold min_length.
    assert (Hi : inject_Z (2 * (GetNumBoundaryLayers sysFSI - 1)) <= 0).
    { change 0 with (inject_Z 0). rewrite <- Zle_Qle. lia. }
    setoid_replace (inject_Z (2 * (GetNumBoundaryLayers sysFSI - 1))
                    * GetInitialSpacing sysFSI)
      with (- ((- inject_Z (2 * (GetNumBoundaryLayers sysFSI - 1)))
               * GetInitialSpacing sysFSI)) using relation Qeq by ring.
    assert (0 <= (- inject_Z (2 * (GetNumBoundaryLayers sysFSI - 1)))
                 * GetInitialSpacing sysFSI)
      by (apply Qmult_le_0_compat; lra).
    lra. }
  assert (Hnone : List.filter (large_enough (min_length sysFSI)) (m_coll_boxes shoe0) = []).
  { induction Hdims as [|box boxes Hz _ IH]; [reflexivity|].
    cbn. rewrite IH. unfold large_enough, Qltb.
    destruct (Qlt_le_dec (vec_z (m_dims box)) (min_length sysFSI)) as [Hlt|_];
      [lra|]. rewrite andb_false_r. reflexivity. }
  rewrite Hnone, !add_shoes_calls.
  cbn [fsi_calls GetNumBoundaryLayers GetInitialSpacing].
  eexists. split; [reflexivity|]. cbn [fsi_calls].
  rewrite <- app_assoc, <- concat_app, <- fmap_app. f_equal.
  induction (shoes_left vehicle ++ shoes_right vehicle) as [|shoe shoes IH];
    [reflexivity|]. cbn. rewrite <- IH. reflexivity.
Qed.

End TrackBCEFacts.

Example CreateTrackBCEMarkers_example :
  fsi_calls <$> CreateTrackBCEMarkers example_vehicle (example_fsi 3)
  = Some [ AddFsiBody 10%nat;
           AddBoxBCE 10%nat {| vec_x := 0; vec_y := 0; vec_z := 0 |}
             {| quat_e0 := 1; quat_e1 := 0; quat_e2 := 0; quat_e3 := 0 |}
             {| vec_x := 1 # 10; vec_y := 3 # 10; vec_z := 1 # 100 |} true;
           AddFsiBody 11%nat;
           AddBoxBCE 11%nat {| vec_x := 0; vec_y := 0; vec_z := 0 |}
             {| quat_e0 := 1; quat_e1 := 0; quat_e2 := 0; quat_e3 := 0 |}
             {| vec_x := 1 # 10; vec_y := 3 # 10; vec_z := 1 # 100 |} true;
           AddFsiBody 20%nat;
           AddBoxBCE 20%nat {| vec_x := 0; vec_y := 0; vec_z := 0 |}
             {| quat_e0 := 1; quat_e1 := 0; quat_e2 := 0; quat_e3 := 0 |}
             {| vec_x := 1 # 10; vec_y := 3 # 10; vec_z := 1 # 100 |} true ]%Q.
Proof. reflexivity. Qed.

Example CreateTrackBCEMarkers_no_left_shoe :
  CreateTrackBCEMarkers {| shoes_left := []; shoes_right := shoes_right example_vehicle |}
    (example_fsi 3) = None.
Proof. reflexivity. Qed.


(** Three shoes and one boundary layer. *)
Lemma CreateTrackBCEMarkers_single_layer_witness :
  exists sysFSI',
    CreateTrackBCEMarkers example_vehicle (example_fsi 1) = Some sysFSI' /\
    fsi_calls sysFSI' = [AddFsiBody 10%nat; AddFsiBody 11%nat; AddFsiBody 20%nat].
Proof.
  assert (Hd : Forall (fun box => (0 <= vec_z (m_dims box))%Q) example_boxes)
    by (repeat constructor; vm_compute; discriminate).
  assert (Hl : GetNumBoundaryLayers (example_fsi 1) = 1%Z) by reflexivity.
  assert (Hs : (0 <= GetInitialSpacing (example_fsi 1))%Q)
    by (vm_compute; discriminate).
  destruct (CreateTrackBCEMarkers_single_layer example_vehicle (example_fsi 1) _
              eq_refl Hl Hs Hd) as (s & Hc & Hn).
  exists s. split; [exact Hc | exact Hn].
Defined.

(** ** The gears of the Marder transmission *)

Section MarderFacts.
Local Open Scope Q_scope.

(** Whatever the vectors hold on entry, the two functions append to them:
    six forward ratios and six shift bands, one band per gear.  The ratios
    are positive and increase from gear to gear, the reverse ratio is
    negative, and every band has its down-shift speed below its up-shift
    speed. *)
Theorem Marder_gears_and_bands (CH_C_PI : double) (fwd : list double) (rev : double)
    (shift_bands : list (double * double)) :
  0 < CH_C_PI ->
  exists (new_fwd : list double) (new_bands : list (double * double)),
    (SetGearRatios fwd rev).1 = fwd ++ new_fwd /\
    SetShiftPoints CH_C_PI shift_bands = shift_bands ++ new_bands /\
    length new_fwd = 6%nat /\
    length new_bands = 6%nat /\
    Forall (fun ratio => 0 < ratio) new_fwd /\
    (forall (i : nat) (lo hi : double),
       new_fwd !! i = Some lo -> new_fwd !! S i = Some hi -> lo < hi) /\
    (SetGearRatios fwd rev).2 < 0 /\
    Forall (fun band => 0 < band.1 /\ band.1 < band.2) new_bands.
Proof.
  intros Hpi.
  assert (Hr : 0 < rpm2rads CH_C_PI).
  { unfold rpm2rads. apply Qlt_shift_div_l; [reflexivity|]. lra. }
  unfold SetGearRatios, SetShiftPoints. cbv zeta. cbn [fst snd].
  rewrite <- !app_assoc. cbn [app].
  eexists _, _. split; [reflexivity|]. split; [reflexivity|].
  split; [reflexivity|]. split; [reflexivity|].
  split; [repeat constructor|].
  split.
  { intros i lo hi Hlo Hhi.
    do 6 (destruct i as [|i]; [cbn in Hlo, Hhi; injection Hlo as <-;
                               try injection Hhi as <-; try reflexivity;
                               try discriminate|]).
    discriminate Hlo. }
  split; [reflexivity|].
  set (r := rpm2rads CH_C_PI) in *.
  repeat constructor; cbn [fst snd]; lra.
Qed.

End MarderFacts.

(** A value of 355/113 for the constant. *)
Lemma Marder_gears_and_bands_witness :
  (0 < 355 # 113)%Q /\
  exists new_fwd new_bands,
    (SetGearRatios [] 0).1 = [] ++ new_fwd /\
    SetShiftPoints (355 # 113) [] = [] ++ new_bands /\
    length new_fwd = 6%nat /\
    length new_bands = 6%nat.
Proof.
  assert (H : (0 < 355 # 113)%Q) by reflexivity.
  split; [exact H|].
  destruct (Marder_gears_and_bands (355 # 113) [] 0 [] H)
    as (nf & nb & Hf & Hb & Hlf & Hlb & _).
  exists nf, nb. split; [exact Hf|]. split; [exact Hb|].
  split; [exact Hlf | exact Hlb].
Defined.

(** ** Construction of a constraint *)

Section ConstructionFacts.
Context {Members ChState ChStateDelta ChVectorDynamic ChSystemDescriptor : Type}.

Local Abbreviation Cstr :=
  (Constraint Members ChState ChStateDelta ChVectorDynamic ChSystemDescriptor).
Local Abbreviation DM :=
  (ChMulticoreDataManager Members ChState ChStateDelta ChVectorDynamic
     ChSystemDescriptor).


(** A constraint on owners with a Jacobian rule is constructed, with the
    type of the rule. *)
Lemma new_Constraint_accepts (c : Cstr) (p : list OwnerKind) (t : BilateralType) :
  In (p, t) jacobian_rules -> Permutation (connected_kinds c) p ->
  Classify c = t /\ new_Constraint c = Constructed c.
Proof.
  intros Hin Hp. pose proof (classify_kinds_rule _ _ _ Hin Hp) as Ht.
  split; [exact Ht|]. unfold new_Constraint, Classify. rewrite Ht.
  cbn in Hin.
  repeat (destruct Hin as [Hin|Hin]; [injection Hin as <- <-; reflexivity|]).
  destruct Hin.
Qed.





End ConstructionFacts.

Example add_constraints_example :
  (fun c => row c) <$> bilaterals
    (add_constraints [body_body_constraint 0; node_body_constraint;
                      shaft_body_constraint 1]
       {| bilaterals := []; D := ∅ |})
  = [0%nat; 1%nat].
Proof. reflexivity. Qed.


(** ** Rounding to a double *)

Section Binary64Facts.

Lemma round64_exact (n e : Z) :
  Z.abs n <= 2 ^ 53 -> round64 n e = Float64 n e.
Proof.
  intros H. unfold round64.
  destruct (Z.leb_spec (Z.abs n) (2 ^ 53)) as [_|Hgt]; [reflexivity | lia].
Qed.

(** What [round64] does to a significand of more than 53 bits. *)
Lemma round64_long (n e : Z) :
  2 ^ 53 < Z.abs n ->
  exists d q' : Z,
    1 <= d /\ 2 ^ (52 + d) <= Z.abs n < 2 ^ (53 + d) /\
    round64 n e = Float64 q' (e + d) /\
    (q' = n / 2 ^ d \/ q' = n / 2 ^ d + 1) /\
    (n mod 2 ^ d = 0 -> q' = n / 2 ^ d) /\
    2 * Z.abs (q' * 2 ^ d - n) <= 2 ^ d.
Proof.
  intros Hgt.
  assert (Hpos : 0 < Z.abs n) by lia.
  pose proof (Z.log2_spec _ Hpos) as [Hlo Hhi].
  assert (H53 : 53 <= Z.log2 (Z.abs n)).
  { change 53 with (Z.log2 (2 ^ 53)). apply Z.log2_le_mono. lia. }
  exists (Z.log2 (Z.abs n) + 1 - 53).
  set (d := Z.log2 (Z.abs n) + 1 - 53) in *.
  replace (52 + d) with (Z.log2 (Z.abs n)) by lia.
  replace (53 + d) with (Z.succ (Z.log2 (Z.abs n))) by lia.
  unfold round64.
  destruct (Z.leb_spec (Z.abs n) (2 ^ 53)) as [Hle|_]; [lia|].
  fold d. cbv zeta.
  assert (Hd : 0 < 2 ^ d) by (apply Z.pow_pos_nonneg; lia).
  pose proof (Z.div_mod n (2 ^ d) ltac:(lia)) as Hdm.
  pose proof (Z.mod_pos_bound n (2 ^ d) Hd) as Hr.
  destruct (Z.compare_spec (2 * (n mod 2 ^ d)) (2 ^ d)) as [Heq|Hlt|Hgt'];
    [destruct (Z.even (n / 2 ^ d))| |];
    (eexists; split; [lia|]; split; [lia|]; split; [reflexivity|];
     split; [auto | split; [lia | nia]]).
Qed.

Lemma round64_representable (n e : Z) : representable (round64 n e).
Proof.
  unfold representable.
  destruct (Z_le_gt_dec (Z.abs n) (2 ^ 53)) as [Hle|Hgt].
  - rewrite round64_exact by exact Hle. exact Hle.
  - destruct (round64_long n e) as (d & q' & Hd & [Hlo Hhi] & -> & Hq & _ & _); [lia|].
    cbn [Fnum].
    assert (Hp : 0 < 2 ^ d) by (apply Z.pow_pos_nonneg; lia).
    rewrite Z.pow_add_r in Hlo, Hhi by lia.
    assert (Hq1 : n / 2 ^ d < 2 ^ 53).
    { apply Z.div_lt_upper_bound; [exact Hp|]. lia. }
    assert (Hq2 : - 2 ^ 53 <= n / 2 ^ d).
    { apply Z.div_le_lower_bound; [exact Hp|]. lia. }
    destruct (Z_le_gt_dec 0 n) as [Hn|Hn].
    + assert (2 ^ 52 <= n / 2 ^ d)
        by (apply Z.div_le_lower_bound; [exact Hp|]; lia).
      lia.
    + assert (n / 2 ^ d < - 2 ^ 52 + 1).
      { apply Z.div_lt_upper_bound; [exact Hp|]. lia. }
      lia.
Qed.

Lemma round64_Fexp (n e : Z) : e <= Fexp (round64 n e).
Proof.
  destruct (Z_le_gt_dec (Z.abs n) (2 ^ 53)) as [Hle|Hgt].
  - rewrite round64_exact by exact Hle. cbn. lia.
  - destruct (round64_long n e) as (d & q' & Hd & _ & -> & _); [lia|]. cbn. lia.
Qed.

Lemma round64_positive (n e : Z) : 0 < n -> 0 < Fnum (round64 n e).
Proof.
  intros Hn.
  destruct (Z_le_gt_dec (Z.abs n) (2 ^ 53)) as [Hle|Hgt].
  - rewrite round64_exact by exact Hle. exact Hn.
  - destruct (round64_long n e) as (d & q' & Hd & [Hlo Hhi] & -> & Hq & _ & _); [lia|].
    cbn [Fnum].
    assert (Hp : 0 < 2 ^ d) by (apply Z.pow_pos_nonneg; lia).
    rewrite Z.pow_add_r in Hlo by lia.
    assert (2 ^ 52 <= n / 2 ^ d)
      by (apply Z.div_le_lower_bound; [exact Hp|]; lia).
    lia.
Qed.

(** Values are compared through significands at a common exponent [e0],
    below the exponents of all the doubles at hand. *)
Lemma align_lower (f : binary64) (e0 e1 : Z) :
  e0 <= e1 -> e1 <= Fexp f -> align f e0 = align f e1 * 2 ^ (e1 - e0).
Proof.
  intros H0 H1. unfold align.
  replace (Fexp f - e0) with ((Fexp f - e1) + (e1 - e0)) by lia.
  rewrite Z.pow_add_r by lia. lia.
Qed.

Lemma align_Float64 (n e e0 : Z) : align (Float64 n e) e0 = n * 2 ^ (e - e0).
Proof. reflexivity. Qed.

Lemma Fltb_align (a b : binary64) (e0 : Z) :
  e0 <= Fexp a -> e0 <= Fexp b ->
  Fltb a b = (align a e0 <? align b e0).
Proof.
  intros Ha Hb. unfold Fltb. cbv zeta.
  set (e := Z.min (Fexp a) (Fexp b)).
  rewrite (align_lower a e0 e), (align_lower b e0 e) by lia.
  assert (Hp : 0 < 2 ^ (e - e0)) by (apply Z.pow_pos_nonneg; lia).
  destruct (Z.ltb_spec (align a e) (align b e)) as [H|H];
    destruct (Z.ltb_spec (align a e * 2 ^ (e - e0)) (align b e * 2 ^ (e - e0)))
      as [H'|H']; try reflexivity; nia.
Qed.

Lemma Fplus_align (a b : binary64) (e0 : Z) :
  e0 <= Fexp a -> e0 <= Fexp b ->
  exists n e : Z,
    Fplus a b = round64 n e /\ e0 <= e /\
    n * 2 ^ (e - e0) = align a e0 + align b e0.
Proof.
  intros Ha Hb. unfold Fplus. cbv zeta.
  set (e := Z.min (Fexp a) (Fexp b)).
  exists (align a e + align b e), e.
  split; [reflexivity|]. split; [lia|].
  rewrite (align_lower a e0 e), (align_lower b e0 e) by lia. lia.
Qed.

Lemma Fminus_align (a b : binary64) (e0 : Z) :
  e0 <= Fexp a -> e0 <= Fexp b ->
  exists n e : Z,
    Fminus a b = round64 n e /\ e0 <= e /\
    n * 2 ^ (e - e0) = align a e0 - align b e0.
Proof.
  intros Ha Hb. unfold Fminus. cbv zeta.
  set (e := Z.min (Fexp a) (Fexp b)).
  exists (align a e - align b e), e.
  split; [reflexivity|]. split; [lia|].
  rewrite (align_lower a e0 e), (align_lower b e0 e) by lia. lia.
Qed.

(** Rounding does not go below a double that the exact result is above. *)
Lemma round64_above (f : binary64) (n e e0 : Z) :
  representable f -> e0 <= Fexp f -> e0 <= e -> 0 < n ->
  align f e0 <= n * 2 ^ (e - e0) ->
  align f e0 <= align (round64 n e) e0.
Proof.
  intros Hf Hef He Hn Hle.
  destruct (Z_le_gt_dec (Z.abs n) (2 ^ 53)) as [Hsmall|Hgt].
  { rewrite round64_exact by exact Hsmall. exact Hle. }
  destruct (round64_long n e) as (d & q' & Hd & [Hlo Hhi] & -> & Hq & _ & _); [lia|].
  rewrite align_Float64.
  assert (Hp : 0 < 2 ^ d) by (apply Z.pow_pos_nonneg; lia).
  assert (Hpe : 0 < 2 ^ (e - e0)) by (apply Z.pow_pos_nonneg; lia).
  replace (e + d - e0) with (d + (e - e0)) by lia.
  rewrite Z.pow_add_r by lia.
  assert (Hq52 : 2 ^ 52 <= n / 2 ^ d).
  { rewrite Z.pow_add_r in Hlo by lia.
    apply Z.div_le_lower_bound; [exact Hp|]. lia. }
  cut (align f e0 <= n / 2 ^ d * (2 ^ d * 2 ^ (e - e0))); [nia|].
  destruct (Z_le_gt_dec (e + d) (Fexp f)) as [Hhigh|Hlow].
  - (* [f] is a multiple of the last place of the result *)
    unfold align in *.
    replace (Fexp f - e0) with ((Fexp f - (e + d)) + (d + (e - e0))) in * by lia.
    rewrite Z.pow_add_r in * by lia. rewrite (Z.pow_add_r 2 d) in * by lia.
    set (k := Fnum f * 2 ^ (Fexp f - (e + d))) in *.
    assert (Hk : k <= n / 2 ^ d).
    { apply Z.div_le_lower_bound; [exact Hp|]. nia. }
    nia.
  - (* [f] is below the least double with the exponent of the result *)
    unfold representable in Hf. unfold align.
    assert (Hpf : 0 < 2 ^ (Fexp f - e0)) by (apply Z.pow_pos_nonneg; lia).
    assert (Hstep : 2 * 2 ^ (Fexp f - e0) <= 2 ^ d * 2 ^ (e - e0)).
    { rewrite <- Z.pow_add_r by lia. rewrite <- Z.pow_succ_r by lia.
      apply Z.pow_le_mono_r; lia. }
    assert (Fnum f * 2 ^ (Fexp f - e0) <= 2 ^ 53 * 2 ^ (Fexp f - e0)) by nia.
    change (2 ^ 53) with (2 * 2 ^ 52) in *. nia.
Qed.

(** Nor does it go above a double that the exact result is below. *)
Lemma round64_below (f : binary64) (n e e0 : Z) :
  representable f -> e0 <= Fexp f -> e0 <= e -> 0 < n ->
  n * 2 ^ (e - e0) <= align f e0 ->
  align (round64 n e) e0 <= align f e0.
Proof.
  intros Hf Hef He Hn Hle.
  destruct (Z_le_gt_dec (Z.abs n) (2 ^ 53)) as [Hsmall|Hgt].
  { rewrite round64_exact by exact Hsmall. exact Hle. }
  destruct (round64_long n e) as (d & q' & Hd & [Hlo Hhi] & -> & Hq & Hq0 & _);
    [lia|].
  rewrite align_Float64.
  assert (Hp : 0 < 2 ^ d) by (apply Z.pow_pos_nonneg; lia).
  assert (Hpe : 0 < 2 ^ (e - e0)) by (apply Z.pow_pos_nonneg; lia).
  replace (e + d - e0) with (d + (e - e0)) by lia.
  rewrite Z.pow_add_r by lia.
  rewrite Z.abs_eq in Hlo by lia.
  pose proof (Z.div_mod n (2 ^ d) ltac:(lia)) as Hdm.
  pose proof (Z.mod_pos_bound n (2 ^ d) Hp) as Hr.
  destruct (Z_le_gt_dec (e + d) (Fexp f)) as [Hhigh|Hlow].
  - unfold align in *.
    replace (Fexp f - e0) with ((Fexp f - (e + d)) + (d + (e - e0))) in * by lia.
    rewrite Z.pow_add_r in * by lia. rewrite (Z.pow_add_r 2 d) in * by lia.
    set (k := Fnum f * 2 ^ (Fexp f - (e + d))) in *.
    assert (Hnk : n <= k * 2 ^ d) by nia.
    destruct (Z.eq_dec (n mod 2 ^ d) 0) as [Hz|Hnz].
    + rewrite (Hq0 Hz). rewrite Hz in Hdm.
      assert (n / 2 ^ d <= k).
      { apply (Z.mul_le_mono_pos_r _ _ (2 ^ d)); [exact Hp | lia]. }
      nia.
    + assert (n / 2 ^ d < k).
      { apply (Z.mul_lt_mono_pos_r (2 ^ d)); [exact Hp | lia]. }
      assert (q' <= k) by lia.
      transitivity (k * (2 ^ d * 2 ^ (e - e0))); [|unfold k; lia].
      apply Z.mul_le_mono_nonneg_r; [apply Z.mul_nonneg_nonneg; lia | lia].
  - unfold representable in Hf. unfold align in *.
    assert (Hpf : 0 < 2 ^ (Fexp f - e0)) by (apply Z.pow_pos_nonneg; lia).
    assert (Hstep : 2 * 2 ^ (Fexp f - e0) <= 2 ^ d * 2 ^ (e - e0)).
    { rewrite <- Z.pow_add_r by lia. rewrite <- Z.pow_succ_r by lia.
      apply Z.pow_le_mono_r; lia. }
    rewrite Z.pow_add_r in Hlo by lia.
    assert (Hnf : Fnum f * 2 ^ (Fexp f - e0) <= 2 ^ 53 * 2 ^ (Fexp f - e0)) by nia.
    change (2 ^ 53) with (2 * 2 ^ 52) in Hnf.
    assert (Hn52 : n = 2 ^ 52 * 2 ^ d) by nia.
    assert (Hz : n mod 2 ^ d = 0) by (rewrite Hn52; apply Z.mod_mul; lia).
    rewrite (Hq0 Hz). rewrite Hz in Hdm. nia.
Qed.

(** Rounding is exact when the exact result is a double. *)
Lemma round64_of_representable (f : binary64) (n e e0 : Z) :
  representable f -> e0 <= Fexp f -> e0 <= e ->
  n * 2 ^ (e - e0) = align f e0 ->
  align (round64 n e) e0 = align f e0.
Proof.
  intros Hf Hef He Heq.
  destruct (Z_le_gt_dec (Z.abs n) (2 ^ 53)) as [Hsmall|Hgt].
  { rewrite round64_exact by exact Hsmall. exact Heq. }
  destruct (round64_long n e) as (d & q' & Hd & [Hlo Hhi] & -> & _ & Hq & _); [lia|].
  rewrite align_Float64.
  assert (Hp : 0 < 2 ^ d) by (apply Z.pow_pos_nonneg; lia).
  assert (Hpe : 0 < 2 ^ (e - e0)) by (apply Z.pow_pos_nonneg; lia).
  unfold representable in Hf. unfold align in Heq.
  destruct (Z_le_gt_dec e (Fexp f)) as [Hhigh|Hlow].
  - set (j := Fexp f - e).
    assert (Hj : 0 <= j) by (unfold j; lia).
    assert (Hn : n = Fnum f * 2 ^ j).
    { replace (Fexp f - e0) with (j + (e - e0)) in Heq by (unfold j; lia).
      rewrite Z.pow_add_r in Heq by lia. nia. }
    assert (Hpj : 0 < 2 ^ j) by (apply Z.pow_pos_nonneg; lia).
    assert (Hdj : d <= j + 1).
    { assert (2 ^ (52 + d) <= 2 ^ 53 * 2 ^ j).
      { rewrite Hn, Z.abs_mul, (Z.abs_eq (2 ^ j)) in Hlo by lia. nia. }
      rewrite <- Z.pow_add_r in H by lia.
      apply Z.pow_le_mono_r_iff in H; lia. }
    assert (Hmod : n mod 2 ^ d = 0).
    { destruct (Z_le_gt_dec d j) as [Hle|Hgt'].
      - rewrite Hn. replace j with ((j - d) + d) by lia.
        rewrite Z.pow_add_r by lia. rewrite Z.mul_assoc.
        apply Z.mod_mul. lia.
      - assert (d = j + 1) by lia. subst d.
        assert (Habs : Z.abs (Fnum f) = 2 ^ 53).
        { rewrite Hn, Z.abs_mul, (Z.abs_eq (2 ^ j)) in Hlo by lia.
          replace (52 + (j + 1)) with (53 + j) in Hlo by lia.
          rewrite Z.pow_add_r in Hlo by lia. nia. }
        rewrite Hn. rewrite Z.pow_add_r by lia.
        assert (Hf2 : Fnum f = 2 ^ 52 * 2 \/ Fnum f = (- 2 ^ 52) * 2) by lia.
        destruct Hf2 as [->| ->].
        + replace (2 ^ 52 * 2 * 2 ^ j) with (2 ^ 52 * (2 ^ j * 2 ^ 1)) by lia.
          apply Z.mod_mul. lia.
        + replace (- 2 ^ 52 * 2 * 2 ^ j) with (- 2 ^ 52 * (2 ^ j * 2 ^ 1)) by lia.
          apply Z.mod_mul. lia. }
    rewrite (Hq Hmod).
    replace (e + d - e0) with (d + (e - e0)) by lia.
    rewrite Z.pow_add_r by lia.
    pose proof (Z.div_mod n (2 ^ d)) as Hdm. rewrite Hmod in Hdm.
    unfold align. rewrite <- Heq. nia.
  - (* the significand of [f] would be longer than that of [n] *)
    exfalso.
    replace (e - e0) with ((e - Fexp f) + (Fexp f - e0)) in Heq by lia.
    rewrite Z.pow_add_r in Heq by lia.
    assert (Hpf : 0 < 2 ^ (Fexp f - e0)) by (apply Z.pow_pos_nonneg; lia).
    assert (Hpg : 1 <= 2 ^ (e - Fexp f)).
    { assert (0 < 2 ^ (e - Fexp f)) by (apply Z.pow_pos_nonneg; lia). lia. }
    assert (Hnf : Fnum f = n * 2 ^ (e - Fexp f)) by nia.
    rewrite Hnf, Z.abs_mul, (Z.abs_eq (2 ^ (e - Fexp f))) in Hf by lia.
    nia.
Qed.

(** Adding [M] to [T] moves the rounded sum beyond [T] as long as the sum
    stays under [2 ^ 53] times [M]: half the last place of the sum is then
    below [M]. *)
Lemma round64_progress (n e e0 T M : Z) :
  e0 <= e -> n * 2 ^ (e - e0) = T + M -> 0 <= T -> 0 < M ->
  T + M < 2 ^ 53 * M ->
  T < align (round64 n e) e0.
Proof.
  intros He Heq HT HM Hlt.
  assert (Hpe : 0 < 2 ^ (e - e0)) by (apply Z.pow_pos_nonneg; lia).
  assert (Hn : 0 < n) by nia.
  destruct (Z_le_gt_dec (Z.abs n) (2 ^ 53)) as [Hsmall|Hgt].
  { rewrite round64_exact by exact Hsmall. rewrite align_Float64. lia. }
  destruct (round64_long n e) as (d & q' & Hd & [Hlo Hhi] & -> & _ & _ & Hnear);
    [lia|].
  rewrite align_Float64.
  replace (e + d - e0) with (d + (e - e0)) by lia.
  rewrite Z.pow_add_r by lia.
  replace (52 + d) with (53 + (d - 1)) in Hlo by lia.
  rewrite Z.pow_add_r in Hlo by lia.
  replace d with (1 + (d - 1)) in Hnear |- * by lia.
  rewrite Z.pow_add_r in Hnear |- * by lia.
  change (2 ^ 1) with 2 in *.
  assert (Hh : 0 < 2 ^ (d - 1)) by (apply Z.pow_pos_nonneg; lia).
  set (half := 2 ^ (d - 1)) in *. set (P := 2 ^ (e - e0)) in *.
  rewrite Z.abs_eq in Hlo by lia.
  assert (Hhalf : half * P < M) by nia.
  assert (Hq : n - half <= q' * (2 * half)) by lia.
  nia.
Qed.

Lemma round64_nonpositive (n e : Z) : n <= 0 -> Fnum (round64 n e) <= 0.
Proof.
  intros Hn.
  destruct (Z_le_gt_dec (Z.abs n) (2 ^ 53)) as [Hle|Hgt].
  - rewrite round64_exact by exact Hle. exact Hn.
  - destruct (round64_long n e) as (d & q' & Hd & [Hlo Hhi] & -> & Hq & _ & _); [lia|].
    cbn [Fnum].
    assert (Hp : 0 < 2 ^ d) by (apply Z.pow_pos_nonneg; lia).
    rewrite Z.pow_add_r in Hlo by lia.
    assert (n / 2 ^ d < - 2 ^ 52 + 1).
    { apply Z.div_lt_upper_bound; [exact Hp|]. lia. }
    lia.
Qed.

(** A difference of doubles that is below the double taken away is
    computed without rounding. *)
Lemma Fminus_exact (a b : binary64) (e0 : Z) :
  representable a -> representable b -> e0 <= Fexp a -> e0 <= Fexp b ->
  0 < align b e0 -> align b e0 < align a e0 ->
  align a e0 - align b e0 < align b e0 ->
  e0 <= Fexp (Fminus a b) /\
  align (Fminus a b) e0 = align a e0 - align b e0.
Proof.
  intros Ha Hb Hea Heb Hb0 Hlt Hhalf.
  split; [unfold Fminus; cbv zeta; etransitivity; [|apply round64_Fexp]; lia|].
  unfold Fminus. cbv zeta.
  set (e := Z.min (Fexp a) (Fexp b)).
  rewrite (align_lower a e0 e), (align_lower b e0 e) in * by (unfold e; lia).
  assert (Hpe : 0 < 2 ^ (e - e0)) by (apply Z.pow_pos_nonneg; unfold e; lia).
  assert (Hsmall : Z.abs (align a e - align b e) <= 2 ^ 53).
  { unfold representable in Ha, Hb.
    destruct (Z_le_gt_dec (Fexp a) (Fexp b)) as [Hab|Hab].
    - assert (Hae : align a e = Fnum a).
      { unfold align, e. rewrite Z.min_l by lia. rewrite Z.sub_diag. lia. }
      rewrite Hae in *. nia.
    - assert (Hbe : align b e = Fnum b).
      { unfold align, e. rewrite Z.min_r by lia. rewrite Z.sub_diag. lia. }
      rewrite Hbe in *. nia. }
  rewrite round64_exact by exact Hsmall.
  rewrite align_Float64. lia.
Qed.

(** The order of the doubles is that of the numbers they stand for. *)
Lemma Qpower2_pos (e : Z) : (0 < 2 ^ e)%Q.
Proof. apply Qpower_0_lt. reflexivity. Qed.

Lemma F2Q_align (f : binary64) (e0 : Z) :
  e0 <= Fexp f -> (F2Q f == inject_Z (align f e0) * 2 ^ e0)%Q.
Proof.
  intros H. unfold F2Q, align.
  rewrite inject_Z_mult, Zpower_Qpower by lia.
  replace (Fexp f) with ((Fexp f - e0) + e0) at 1 by lia.
  rewrite Qpower_plus by discriminate.
  change (inject_Z 2) with 2%Q. ring.
Qed.

Lemma Fltb_spec (a b : binary64) : Fltb a b = true <-> (F2Q a < F2Q b)%Q.
Proof.
  set (e := Z.min (Fexp a) (Fexp b)).
  rewrite (F2Q_align a e), (F2Q_align b e) by (unfold e; lia).
  unfold Fltb. fold e. cbv zeta. rewrite Z.ltb_lt.
  pose proof (Qpower2_pos e) as Hp.
  split; intros H.
  - apply Qmult_lt_r; [exact Hp|]. rewrite <- Zlt_Qlt. exact H.
  - apply Qmult_lt_r in H; [|exact Hp]. rewrite <- Zlt_Qlt in H. exact H.
Qed.

Lemma F2Q_positive (f : binary64) : (0 < F2Q f)%Q <-> 0 < Fnum f.
Proof.
  unfold F2Q. pose proof (Qpower2_pos (Fexp f)) as Hp. split; intros H.
  - rewrite Zlt_Qlt. change (inject_Z 0) with 0%Q.
    apply (Qmult_lt_r _ _ (2 ^ Fexp f)); [exact Hp|]. lra.
  - rewrite Zlt_Qlt in H. change (inject_Z 0) with 0%Q in H.
    apply (Qmult_lt_r _ _ (2 ^ Fexp f)) in H; [|exact Hp]. lra.
Qed.

End Binary64Facts.

(** ** The loop of [Advance] on doubles *)

Section Advance64Loop.
Variables m_stepsize step : binary64.

Lemma Advance64_loop_exit (fuel : nat) (t : binary64) (updates : list binary64) :
  Fltb t step = false ->
  Advance64_loop fuel m_stepsize step t updates = Some (t, updates).
Proof. intros H. destruct fuel; cbn; rewrite H; reflexivity. Qed.

Lemma Advance64_loop_iterate (fuel : nat) (t : binary64) (updates : list binary64) :
  Fltb t step = true ->
  Advance64_loop (S fuel) m_stepsize step t updates
  = Advance64_loop fuel m_stepsize step
      (Fplus t (Fmin m_stepsize (Fminus step t)))
      (updates ++ [Fmin m_stepsize (Fminus step t)]).
Proof. intros H. cbn. rewrite H. reflexivity. Qed.

(** More fuel does not change a result. *)
Lemma Advance64_loop_more_fuel (fuel fuel' : nat) (t : binary64)
    (updates : list binary64) (r : binary64 * list binary64) :
  (fuel <= fuel')%nat ->
  Advance64_loop fuel m_stepsize step t updates = Some r ->
  Advance64_loop fuel' m_stepsize step t updates = Some r.
Proof.
  revert fuel' t updates.
  induction fuel as [|fuel IH]; intros fuel' t updates Hle H.
  - cbn in H. destruct (Fltb t step) eqn:Ht; [discriminate H|].
    rewrite Advance64_loop_exit by exact Ht. exact H.
  - destruct (Fltb t step) eqn:Ht.
    + destruct fuel' as [|fuel']; [lia|].
      rewrite Advance64_loop_iterate in H |- * by exact Ht.
      apply IH; [lia | exact H].
    + rewrite Advance64_loop_exit in H |- * by exact Ht. exact H.
Qed.

(** The loop adds to the calls already made. *)
Lemma Advance64_loop_extends (fuel : nat) (t : binary64) (updates : list binary64)
    (r : binary64 * list binary64) :
  Advance64_loop fuel m_stepsize step t updates = Some r ->
  exists new : list binary64, r.2 = updates ++ new.
Proof.
  revert t updates. induction fuel as [|fuel IH]; intros t updates H.
  - cbn in H. destruct (Fltb t step); [discriminate H|].
    injection H as <-. exists []. symmetry. apply app_nil_r.
  - cbn in H. destruct (Fltb t step).
    + apply IH in H as [new ->]. eexists. rewrite <- app_assoc. reflexivity.
    + injection H as <-. exists []. symmetry. apply app_nil_r.
Qed.

(** A result of the loop is the state that [Advance64_run] reaches, and
    the condition of the loop fails there. *)
Lemma Advance64_loop_run (fuel : nat) (t : binary64) (updates : list binary64)
    (r : binary64 * list binary64) :
  Advance64_loop fuel m_stepsize step t updates = Some r ->
  r = Advance64_run fuel m_stepsize step t updates /\ Fltb r.1 step = false.
Proof.
  revert t updates. induction fuel as [|fuel IH]; intros t updates H.
  - cbn in H. destruct (Fltb t step) eqn:Ht; [discriminate H|].
    injection H as <-. split; [reflexivity | exact Ht].
  - destruct (Fltb t step) eqn:Ht.
    + rewrite Advance64_loop_iterate in H by exact Ht.
      apply IH in H. cbn [Advance64_run]. rewrite Ht. exact H.
    + rewrite Advance64_loop_exit in H by exact Ht. injection H as <-.
      cbn [Advance64_run]. rewrite Ht. split; [reflexivity | exact Ht].
Qed.

(** Every sub-step handed to the camera is positive and at most
    [m_stepsize], whether the loop ends or not. *)
Lemma Advance64_run_bounds (n : nat) (t : binary64) (updates : list binary64) :
  0 < Fnum m_stepsize ->
  Forall (fun h => (0 < F2Q h /\ F2Q h <= F2Q m_stepsize)%Q) updates ->
  Forall (fun h => (0 < F2Q h /\ F2Q h <= F2Q m_stepsize)%Q)
    (Advance64_run n m_stepsize step t updates).2.
Proof.
  intros Hpos. revert t updates.
  induction n as [|n IH]; intros t updates Hall; [exact Hall|].
  cbn [Advance64_run]. destruct (Fltb t step) eqn:Ht; [|exact Hall].
  apply IH. apply Forall_app. split; [exact Hall|].
  constructor; [|constructor].
  assert (Hr : 0 < Fnum (Fminus step t)).
  { unfold Fminus. cbv zeta. apply round64_positive.
    unfold Fltb in Ht. cbv zeta in Ht. apply Z.ltb_lt in Ht.
    rewrite (Z.min_comm (Fexp step)). lia. }
  unfold Fmin. destruct (Fltb (Fminus step t) m_stepsize) eqn:Hlt.
  - apply Fltb_spec in Hlt. apply F2Q_positive in Hr. lra.
  - apply F2Q_positive in Hpos. lra.
Qed.

End Advance64Loop.

Section Advance64Facts.
Variables (m_stepsize step : binary64) (e0 : Z).
Hypothesis Hm : representable m_stepsize.
Hypothesis Hs : representable step.
Hypothesis Hpos : 0 < Fnum m_stepsize.
Hypothesis Hem : e0 <= Fexp m_stepsize.
Hypothesis Hes : e0 <= Fexp step.

Lemma align_m_stepsize_positive : 0 < align m_stepsize e0.
Proof.
  unfold align.
  assert (0 < 2 ^ (Fexp m_stepsize - e0)) by (apply Z.pow_pos_nonneg; lia).
  nia.
Qed.

(** The rest of the step, once below [m_stepsize], is computed without
    rounding. *)
Lemma Fminus_rest_exact (t : binary64) :
  Advance64_invariant m_stepsize e0 t ->
  align t e0 < align step e0 ->
  align step e0 - align t e0 < align m_stepsize e0 ->
  align (Fminus step t) e0 = align step e0 - align t e0.
Proof.
  intros (Hrt & Het & Hge) Hlt Hrest.
  pose proof align_m_stepsize_positive as HM.
  destruct Hge as [Hz|Hge].
  - destruct (Fminus_align step t e0) as (n & e & -> & He & Hn); [lia..|].
    rewrite Hz, Z.sub_0_r in *.
    apply (round64_of_representable step); [exact Hs | lia | lia | exact Hn].
  - apply Fminus_exact; try assumption; lia.
Qed.

(** One iteration.  Either the sub-step is [m_stepsize]: [t] stays in the
    invariant and does not pass [step], and it moves up when [step] is at
    most [2 ^ 53 - 1] times [m_stepsize].  Or the sub-step is the rest
    [step - t], and [t] reaches [step]. *)
Lemma Advance64_iteration (t : binary64) :
  Advance64_invariant m_stepsize e0 t -> Fltb t step = true ->
  (Fmin m_stepsize (Fminus step t) = m_stepsize /\
   Advance64_invariant m_stepsize e0 (Fplus t m_stepsize) /\
   align (Fplus t m_stepsize) e0 <= align step e0 /\
   (align step e0 <= (2 ^ 53 - 1) * align m_stepsize e0 ->
    align t e0 < align (Fplus t m_stepsize) e0)) \/
  (Fmin m_stepsize (Fminus step t) = Fminus step t /\
   e0 <= Fexp (Fplus t (Fminus step t)) /\
   align (Fplus t (Fminus step t)) e0 = align step e0).
Proof.
  intros Hinv Hlt. pose proof Hinv as (Hrt & Het & Hge).
  pose proof align_m_stepsize_positive as HM.
  rewrite (Fltb_align t step e0) in Hlt by lia. apply Z.ltb_lt in Hlt.
  assert (Ht0 : 0 <= align t e0) by lia.
  assert (Her : e0 <= Fexp (Fminus step t)).
  { unfold Fminus. cbv zeta. etransitivity; [|apply round64_Fexp]. lia. }
  unfold Fmin. destruct (Fltb (Fminus step t) m_stepsize) eqn:Hsel;
    rewrite (Fltb_align _ _ e0) in Hsel by lia.
  - (* the rest of the step *)
    apply Z.ltb_lt in Hsel.
    right. split; [reflexivity|].
    assert (Hexact : align (Fminus step t) e0 = align step e0 - align t e0).
    { apply Fminus_rest_exact; [exact Hinv | exact Hlt |].
      destruct (Z_lt_ge_dec (align step e0 - align t e0) (align m_stepsize e0))
        as [Hok|Hbad]; [exact Hok|]. exfalso.
      destruct (Fminus_align step t e0) as (n & e & Hr & He & Hn); [lia..|].
      rewrite Hr in Hsel.
      assert (Hpe : 0 < 2 ^ (e - e0)) by (apply Z.pow_pos_nonneg; lia).
      assert (Hn0 : 0 < n) by nia.
      pose proof (round64_above m_stepsize n e e0 Hm Hem He Hn0 ltac:(lia)). lia. }
    destruct (Fplus_align t (Fminus step t) e0) as (n & e & -> & He & Hn);
      [lia..|].
    split; [etransitivity; [exact He | apply round64_Fexp]|].
    apply (round64_of_representable step); [exact Hs | lia | lia |].
    rewrite Hn, Hexact. lia.
  - (* a full sub-step *)
    apply Z.ltb_ge in Hsel.
    left. split; [reflexivity|].
    assert (Hroom : align t e0 + align m_stepsize e0 <= align step e0).
    { destruct (Z_le_gt_dec (align t e0 + align m_stepsize e0) (align step e0))
        as [Hok|Hbad]; [exact Hok|]. exfalso.
      pose proof (Fminus_rest_exact t Hinv Hlt ltac:(lia)). lia. }
    destruct (Fplus_align t m_stepsize e0) as (n & e & -> & He & Hn); [lia..|].
    assert (Hpe : 0 < 2 ^ (e - e0)) by (apply Z.pow_pos_nonneg; lia).
    assert (Hn0 : 0 < n) by nia.
    split; [|split].
    + split; [apply round64_representable|].
      split; [etransitivity; [exact He | apply round64_Fexp]|].
      right. apply round64_above; [exact Hm | exact Hem | exact He | exact Hn0 | lia].
    + apply round64_below; [exact Hs | exact Hes | exact He | exact Hn0 | lia].
    + intros Hbound. apply (round64_progress n e e0 _ _ He Hn Ht0 HM). nia.
Qed.

(** What the loop returns: [t] has reached [step], and every sub-step but
    the last is [m_stepsize]. *)
Lemma Advance64_loop_result (fuel : nat) :
  forall (t : binary64) (updates : list binary64) (t' : binary64)
         (updates' : list binary64),
    Advance64_invariant m_stepsize e0 t -> align t e0 <= align step e0 ->
    Advance64_loop fuel m_stepsize step t updates = Some (t', updates') ->
    e0 <= Fexp t' /\ align t' e0 = align step e0 /\
    exists new : list binary64,
      updates' = updates ++ new /\
      forall (i : nat) (h : binary64),
        new !! i = Some h -> (S i < length new)%nat -> h = m_stepsize.
Proof.
  induction fuel as [|fuel IH]; intros t updates t' updates' Hinv Hle H.
  - cbn in H. destruct (Fltb t step) eqn:Ht; [discriminate H|].
    injection H as <- <-. pose proof Hinv as (_ & Het & _).
    rewrite (Fltb_align t step e0) in Ht by lia. apply Z.ltb_ge in Ht.
    split; [exact Het|]. split; [lia|].
    exists []. split; [symmetry; apply app_nil_r|]. intros i h Hi. discriminate Hi.
  - destruct (Fltb t step) eqn:Ht.
    + rewrite (Advance64_loop_iterate _ _ _ _ _ Ht) in H.
      destruct (Advance64_iteration t Hinv Ht)
        as [(Hh & Hinv' & Hle' & _)|(Hh & He' & Hv')]; rewrite Hh in H.
      * destruct (IH _ _ _ _ Hinv' Hle' H) as (Het' & Hv & new & -> & Hfull).
        split; [exact Het'|]. split; [exact Hv|].
        exists (m_stepsize :: new). split; [rewrite <- app_assoc; reflexivity|].
        intros [|i] h Hi Hlen; cbn in Hi, Hlen.
        -- injection Hi as <-. reflexivity.
        -- apply (Hfull i h Hi). lia.
      * rewrite Advance64_loop_exit in H.
        2:{ rewrite (Fltb_align _ step e0) by lia. apply Z.ltb_ge. lia. }
        injection H as <- <-.
        split; [exact He'|]. split; [exact Hv'|].
        exists [Fminus step t]. split; [reflexivity|].
        intros [|i] h Hi Hlen; cbn in Hlen; lia.
    + rewrite Advance64_loop_exit in H by exact Ht. injection H as <- <-.
      pose proof Hinv as (_ & Het & _).
      rewrite (Fltb_align t step e0) in Ht by lia. apply Z.ltb_ge in Ht.
      split; [exact Het|]. split; [lia|].
      exists []. split; [symmetry; apply app_nil_r|]. intros i h Hi. discriminate Hi.
Qed.

(** The loop ends when [step] is at most [2 ^ 53 - 1] times [m_stepsize]:
    every iteration but the last moves [t] up by one unit of [e0] at
    least. *)
Lemma Advance64_loop_terminates (fuel : nat) :
  align step e0 <= (2 ^ 53 - 1) * align m_stepsize e0 ->
  forall (t : binary64) (updates : list binary64),
    Advance64_invariant m_stepsize e0 t ->
    align step e0 - align t e0 <= Z.of_nat fuel ->
    exists r, Advance64_loop fuel m_stepsize step t updates = Some r.
Proof.
  intros Hbound.
  induction fuel as [|fuel IH]; intros t updates Hinv Hfuel;
    pose proof Hinv as (_ & Het & _).
  - exists (t, updates). apply Advance64_loop_exit.
    rewrite (Fltb_align t step e0) by lia. apply Z.ltb_ge. lia.
  - destruct (Fltb t step) eqn:Ht.
    + rewrite (Advance64_loop_iterate _ _ _ _ _ Ht).
      destruct (Advance64_iteration t Hinv Ht)
        as [(Hh & Hinv' & _ & Hup)|(Hh & He' & Hv')]; rewrite Hh.
      * apply IH; [exact Hinv'|]. specialize (Hup Hbound). lia.
      * eexists. apply Advance64_loop_exit.
        rewrite (Fltb_align _ step e0) by lia. apply Z.ltb_ge. lia.
    + exists (t, updates). apply Advance64_loop_exit, Ht.
Qed.

End Advance64Facts.

Section Advance64Results.
Variables m_stepsize step : binary64.

Local Abbreviation e0 := (Advance64_exponent m_stepsize step).

Lemma Advance64_invariant_Fzero : Advance64_invariant m_stepsize e0 Fzero.
Proof.
  split; [unfold representable; cbn; lia|].
  split; [unfold Advance64_exponent; cbn; lia|]. left. reflexivity.
Qed.

Lemma align_F2Q_eq (a b : binary64) (e : Z) :
  e <= Fexp a -> e <= Fexp b -> align a e = align b e -> (F2Q a == F2Q b)%Q.
Proof.
  intros Ha Hb H. rewrite (F2Q_align a e Ha), (F2Q_align b e Hb), H. reflexivity.
Qed.

Lemma align_F2Q_le (a b : binary64) (e : Z) :
  e <= Fexp a -> e <= Fexp b ->
  align a e <= align b e <-> (F2Q a <= F2Q b)%Q.
Proof.
  intros Ha Hb. rewrite (F2Q_align a e Ha), (F2Q_align b e Hb).
  pose proof (Qpower2_pos e) as Hp. rewrite Zle_Qle. split; intros H.
  - apply Qmult_le_compat_r; [exact H | lra].
  - apply Qmult_le_r in H; [exact H | exact Hp].
Qed.

Lemma Advance64_bound_align :
  (F2Q step <= (2 ^ 53 - 1) * F2Q m_stepsize)%Q ->
  align step e0 <= (2 ^ 53 - 1) * align m_stepsize e0.
Proof.
  intros H.
  rewrite (F2Q_align step e0), (F2Q_align m_stepsize e0) in H by (unfold Advance64_exponent; lia).
  pose proof (Qpower2_pos e0) as Hp.
  rewrite Zle_Qle, inject_Z_mult.
  assert (Hc : ((2 ^ 53 - 1) == inject_Z (2 ^ 53 - 1))%Q) by reflexivity.
  rewrite <- Hc.
  apply (Qmult_le_r _ _ (2 ^ e0)); [exact Hp|]. lra.
Qed.

(** With a positive [m_stepsize], a result of [Advance]: [t] has reached
    [step] if [step] is positive, and every sub-step but the last is
    [m_stepsize]. *)
Lemma Advance64_result (fuel : nat) (t : binary64) (updates : list binary64) :
  representable m_stepsize -> representable step -> 0 < Fnum m_stepsize ->
  0 < Fnum step ->
  Advance64 fuel m_stepsize step = Some (t, updates) ->
  (F2Q t == F2Q step)%Q /\
  forall (i : nat) (h : binary64),
    updates !! i = Some h -> (S i < length updates)%nat -> h = m_stepsize.
Proof.
  intros Hm Hs Hpos Hstep H.
  assert (Hem : e0 <= Fexp m_stepsize) by (unfold Advance64_exponent; lia).
  assert (Hes : e0 <= Fexp step) by (unfold Advance64_exponent; lia).
  assert (Hle : align Fzero e0 <= align step e0).
  { unfold align at 1. cbn [Fnum Fzero]. unfold align.
    assert (0 < 2 ^ (Fexp step - e0)) by (apply Z.pow_pos_nonneg; lia). nia. }
  destruct (Advance64_loop_result m_stepsize step e0 Hm Hs Hpos Hem Hes fuel
              Fzero [] t updates Advance64_invariant_Fzero Hle H)
    as (Het & Hv & new & Heq & Hfull).
  cbn [app] in Heq. subst new.
  split; [exact (align_F2Q_eq t step e0 Het Hes Hv) | exact Hfull].
Qed.

(** [Advance] ends when [step] is at most [2 ^ 53 - 1] times a positive
    [m_stepsize]. *)
Lemma Advance64_terminates :
  representable m_stepsize -> representable step -> 0 < Fnum m_stepsize ->
  (F2Q step <= (2 ^ 53 - 1) * F2Q m_stepsize)%Q ->
  exists (n : nat) (r : binary64 * list binary64),
    forall fuel, (n <= fuel)%nat -> Advance64 fuel m_stepsize step = Some r.
Proof.
  intros Hm Hs Hpos Hbound.
  assert (Hem : e0 <= Fexp m_stepsize) by (unfold Advance64_exponent; lia).
  assert (Hes : e0 <= Fexp step) by (unfold Advance64_exponent; lia).
  destruct (Advance64_loop_terminates m_stepsize step e0 Hm Hs Hpos Hem Hes
              (Z.to_nat (align step e0)) (Advance64_bound_align Hbound)
              Fzero [] Advance64_invariant_Fzero) as [r Hr].
  { unfold align at 2. cbn [Fnum Fzero]. lia. }
  exists (Z.to_nat (align step e0)), r. intros fuel Hfuel.
  apply (Advance64_loop_more_fuel _ _ _ _ _ _ _ Hfuel Hr).
Qed.

End Advance64Results.

(** ** The loop of [Advance] can stall *)

Lemma stall_iteration_low (k : Z) :
  0 <= k < 2 ^ 53 ->
  Fltb (Float64 k 0) stall_step = true /\
  Fmin stall_stepsize (Fminus stall_step (Float64 k 0)) = stall_stepsize /\
  Fplus (Float64 k 0) stall_stepsize = Float64 (k + 1) 0.
Proof.
  intros Hk.
  assert (Hlt : Fltb (Float64 k 0) stall_step = true).
  { unfold Fltb, align, stall_step. cbn [Fnum Fexp]. apply Z.ltb_lt.
    change (Z.min 0 1) with 0. change (2 ^ (0 - 0)) with 1.
    change (2 ^ (1 - 0)) with 2. lia. }
  split; [exact Hlt|]. split.
  - unfold Fmin.
    assert (Hr : Fminus stall_step (Float64 k 0)
                 = round64 (2 ^ 53 + 2 - k) 0).
    { unfold Fminus, align, stall_step. cbn [Fnum Fexp].
      change (Z.min 1 0) with 0. change (2 ^ (0 - 0)) with 1.
      change (2 ^ (1 - 0)) with 2. f_equal. lia. }
    rewrite Hr.
    destruct (Z_le_gt_dec 2 k) as [H2|H2].
    + rewrite round64_exact by lia.
      unfold Fltb, align, stall_stepsize. cbn [Fnum Fexp].
      change (Z.min 0 0) with 0. change (2 ^ (0 - 0)) with 1.
      destruct (Z.ltb_spec ((2 ^ 53 + 2 - k) * 1) (1 * 1)); [lia | reflexivity].
    + assert (Hk01 : k = 0 \/ k = 1) by lia.
      destruct Hk01 as [-> | ->]; reflexivity.
  - unfold Fplus, align, stall_stepsize. cbn [Fnum Fexp].
    change (Z.min 0 0) with 0. change (2 ^ (0 - 0)) with 1.
    rewrite round64_exact by lia. f_equal. lia.
Qed.

(** From [t = 2 ^ 53] on, [t + 1] rounds to [2 ^ 53]. *)
Lemma stall_iteration_high (t : binary64) :
  t = Float64 (2 ^ 53) 0 \/ t = Float64 (2 ^ 52) 1 ->
  Fltb t stall_step = true /\
  Fmin stall_stepsize (Fminus stall_step t) = stall_stepsize /\
  Fplus t stall_stepsize = Float64 (2 ^ 52) 1.
Proof. intros [-> | ->]; repeat split; reflexivity. Qed.

Lemma stall_loop (fuel : nat) :
  forall (t : binary64) (updates : list binary64),
    (exists k, 0 <= k <= 2 ^ 53 /\ t = Float64 k 0) \/ t = Float64 (2 ^ 52) 1 ->
    Advance64_loop fuel stall_stepsize stall_step t updates = None.
Proof.
  induction fuel as [|fuel IH]; intros t updates Ht.
  - assert (Hlt : Fltb t stall_step = true).
    { destruct Ht as [(k & Hk & ->)| ->].
      - destruct (Z_lt_ge_dec k (2 ^ 53)) as [Hlow|Hhigh].
        + apply stall_iteration_low. lia.
        + assert (k = 2 ^ 53) by lia. subst k. reflexivity.
      - reflexivity. }
    cbn. rewrite Hlt. reflexivity.
  - assert (Hstep : Fltb t stall_step = true /\
                    Fmin stall_stepsize (Fminus stall_step t) = stall_stepsize /\
                    ((exists k, 0 <= k <= 2 ^ 53 /\
                        Fplus t stall_stepsize = Float64 k 0) \/
                     Fplus t stall_stepsize = Float64 (2 ^ 52) 1)).
    { destruct Ht as [(k & Hk & ->)| ->].
      - destruct (Z_lt_ge_dec k (2 ^ 53)) as [Hlow|Hhigh].
        + destruct (stall_iteration_low k ltac:(lia)) as (H1 & H2 & H3).
          split; [exact H1|]. split; [exact H2|].
          left. exists (k + 1). split; [lia | exact H3].
        + assert (k = 2 ^ 53) by lia. subst k.
          destruct (stall_iteration_high (Float64 (2 ^ 53) 0)) as (H1 & H2 & H3);
            [left; reflexivity|].
          split; [exact H1|]. split; [exact H2|]. right. exact H3.
      - destruct (stall_iteration_high (Float64 (2 ^ 52) 1)) as (H1 & H2 & H3);
          [right; reflexivity|].
        split; [exact H1|]. split; [exact H2|]. right. exact H3. }
    destruct Hstep as (Hlt & Hh & Hnext).
    rewrite (Advance64_loop_iterate _ _ _ _ _ Hlt), Hh.
    apply IH, Hnext.
Qed.

(** ** A step size that is not positive, on doubles *)

Lemma align_positive (f : binary64) (e : Z) :
  e <= Fexp f -> 0 < Fnum f -> 0 < align f e.
Proof.
  intros He Hf. unfold align.
  assert (0 < 2 ^ (Fexp f - e)) by (apply Z.pow_pos_nonneg; lia). nia.
Qed.

Lemma align_nonpositive (f : binary64) (e : Z) :
  e <= Fexp f -> Fnum f <= 0 -> align f e <= 0.
Proof.
  intros He Hf. unfold align.
  assert (0 < 2 ^ (Fexp f - e)) by (apply Z.pow_pos_nonneg; lia). nia.
Qed.

Lemma F2Q_nonpositive (f : binary64) : (F2Q f <= 0)%Q <-> Fnum f <= 0.
Proof.
  pose proof (F2Q_positive f) as H. split; intros Hle.
  - destruct (Z_le_gt_dec (Fnum f) 0) as [Hok|Hbad]; [exact Hok|].
    assert (0 < F2Q f)%Q by (apply H; lia). lra.
  - apply Qnot_lt_le. intros Hlt. apply H in Hlt. lia.
Qed.

(** With [m_stepsize <= 0 < step], [t] never leaves [0] upwards. *)
Lemma Advance64_loop_stuck (m_stepsize step : binary64) (fuel : nat) :
  Fnum m_stepsize <= 0 -> 0 < Fnum step ->
  forall (t : binary64) (updates : list binary64),
    Fnum t <= 0 -> Advance64_loop fuel m_stepsize step t updates = None.
Proof.
  intros Hm Hs. induction fuel as [|fuel IH]; intros t updates Ht.
  - assert (Hlt : Fltb t step = true).
    { unfold Fltb. cbv zeta. apply Z.ltb_lt.
      pose proof (align_nonpositive t (Z.min (Fexp t) (Fexp step)) ltac:(lia) Ht).
      pose proof (align_positive step (Z.min (Fexp t) (Fexp step)) ltac:(lia) Hs).
      lia. }
    cbn. rewrite Hlt. reflexivity.
  - assert (Hlt : Fltb t step = true).
    { unfold Fltb. cbv zeta. apply Z.ltb_lt.
      pose proof (align_nonpositive t (Z.min (Fexp t) (Fexp step)) ltac:(lia) Ht).
      pose proof (align_positive step (Z.min (Fexp t) (Fexp step)) ltac:(lia) Hs).
      lia. }
    rewrite (Advance64_loop_iterate _ _ _ _ _ Hlt).
    assert (Hr : 0 < Fnum (Fminus step t)).
    { unfold Fminus. cbv zeta. apply round64_positive.
      pose proof (align_nonpositive t (Z.min (Fexp step) (Fexp t)) ltac:(lia) Ht).
      pose proof (align_positive step (Z.min (Fexp step) (Fexp t)) ltac:(lia) Hs).
      lia. }
    assert (Hh : Fmin m_stepsize (Fminus step t) = m_stepsize).
    { unfold Fmin.
      destruct (Fltb (Fminus step t) m_stepsize) eqn:Hsel; [|reflexivity].
      exfalso. unfold Fltb in Hsel. cbv zeta in Hsel. apply Z.ltb_lt in Hsel.
      set (e := Z.min (Fexp (Fminus step t)) (Fexp m_stepsize)) in *.
      pose proof (align_nonpositive m_stepsize e ltac:(unfold e; lia) Hm).
      pose proof (align_positive (Fminus step t) e ltac:(unfold e; lia) Hr).
      lia. }
    rewrite Hh. apply IH.
    unfold Fplus. cbv zeta. apply round64_nonpositive.
    set (e := Z.min (Fexp t) (Fexp m_stepsize)).
    pose proof (align_nonpositive m_stepsize e ltac:(unfold e; lia) Hm).
    pose proof (align_nonpositive t e ltac:(unfold e; lia) Ht).
    lia.
Qed.

(** ** [OnAdvance] on doubles *)

Lemma OnAdvance64_loop_Advance64_loop (fuel : nat)
    (m_step_size step_size t : binary64) (updates : list binary64) :
  OnAdvance64_loop fuel m_step_size step_size t (length updates)
  = (fun r => (r.1, length r.2))
      <$> Advance64_loop fuel m_step_size step_size t updates.
Proof.
  revert t updates. induction fuel as [|fuel IH]; intros t updates.
  - cbn. destruct (Fltb t step_size); reflexivity.
  - cbn. destruct (Fltb t step_size); [|reflexivity].
    rewrite <- IH. rewrite length_app. cbn [length].
    rewrite Nat.add_1_r. reflexivity.
Qed.

Lemma Fltb_Fzero (step : binary64) :
  (F2Q step <= 0)%Q -> Fltb Fzero step = false.
Proof.
  intros H. destruct (Fltb Fzero step) eqn:E; [|reflexivity].
  apply Fltb_spec in E.
  assert (H0 : (F2Q Fzero == 0)%Q) by reflexivity.
  rewrite H0 in E. lra.
Qed.

(** ** [Advance] and [OnAdvance], as the code computes *)

(** C10, amended.  The loop of [Advance] on doubles, for a positive
    [m_stepsize].  Every sub-step [h] handed to the camera has
    [0 < h <= m_stepsize], after any number of iterations, whether the
    loop ends or not.  There is no call at all when [step <= 0].  When
    [0 < step <= (2 ^ 53 - 1) * m_stepsize] the loop ends, and it ends with
    [t] equal to [step].  In exact arithmetic the loop ends for every
    [step], and the sub-steps add up to [step] when [step > 0]. *)
Theorem Advance64_substeps (m_stepsize step : binary64) :
  representable m_stepsize -> representable step -> (0 < F2Q m_stepsize)%Q ->
  (forall n : nat,
     Forall (fun h => (0 < F2Q h /\ F2Q h <= F2Q m_stepsize)%Q)
       (Advance64_run n m_stepsize step Fzero []).2) /\
  ((F2Q step <= 0)%Q ->
   forall fuel, Advance64 fuel m_stepsize step = Some (Fzero, [])) /\
  ((0 < F2Q step)%Q -> (F2Q step <= (2 ^ 53 - 1) * F2Q m_stepsize)%Q ->
   exists (n : nat) (t : binary64) (updates : list binary64),
     (forall fuel, (n <= fuel)%nat ->
        Advance64 fuel m_stepsize step = Some (t, updates)) /\
     (F2Q t == F2Q step)%Q /\
     Forall (fun h => (0 < F2Q h /\ F2Q h <= F2Q m_stepsize)%Q) updates) /\
  (exists (n : nat) (t : double) (updates : list double),
     (forall fuel, (n <= fuel)%nat ->
        Advance fuel (F2Q m_stepsize) (F2Q step) = Some (t, updates)) /\
     ((0 < F2Q step)%Q -> (Qsum updates == F2Q step)%Q)).
Proof.
  intros Hm Hs Hpos.
  assert (Hnum : 0 < Fnum m_stepsize) by (apply F2Q_positive, Hpos).
  assert (Hbounds : forall n : nat,
            Forall (fun h => (0 < F2Q h /\ F2Q h <= F2Q m_stepsize)%Q)
              (Advance64_run n m_stepsize step Fzero []).2).
  { intros n. apply Advance64_run_bounds; [exact Hnum | constructor]. }
  split; [exact Hbounds|]. split; [|split].
  - intros Hstep fuel. apply Advance64_loop_exit, Fltb_Fzero, Hstep.
  - intros Hstep Hbound.
    destruct (Advance64_terminates m_stepsize step Hm Hs Hnum Hbound)
      as (n & [t updates] & Hr).
    exists n, t, updates. split; [exact Hr|].
    pose proof (Hr n (Nat.le_refl n)) as Hn.
    split.
    + apply (Advance64_result m_stepsize step n t updates Hm Hs Hnum); [|exact Hn].
      apply F2Q_positive, Hstep.
    + apply Advance64_loop_run in Hn as [Hrun _].
      specialize (Hbounds n). unfold Advance64 in Hrun.
      rewrite <- Hrun in Hbounds. exact Hbounds.
  - destruct (Advance_substeps (F2Q m_stepsize) (F2Q step) Hpos)
      as (n & t & updates & Hr & _ & Hsum & _).
    exists n, t, updates. split; [exact Hr | exact Hsum].
Qed.

(** Whenever [Advance] returns, on doubles and with a positive
    [m_stepsize], it has called [Update] with [m_stepsize] itself every
    time but the last; and it has stopped with [t] equal to [step] when
    [step > 0]. *)
Theorem Advance64_full_substeps (m_stepsize step : binary64) (fuel : nat)
    (t : binary64) (updates : list binary64) :
  representable m_stepsize -> representable step -> (0 < F2Q m_stepsize)%Q ->
  Advance64 fuel m_stepsize step = Some (t, updates) ->
  (forall (i : nat) (h : binary64),
     updates !! i = Some h -> (S i < length updates)%nat -> h = m_stepsize) /\
  ((0 < F2Q step)%Q -> (F2Q t == F2Q step)%Q).
Proof.
  intros Hm Hs Hpos H.
  assert (Hnum : 0 < Fnum m_stepsize) by (apply F2Q_positive, Hpos).
  destruct (Z_le_gt_dec (Fnum step) 0) as [Hle|Hgt].
  - apply F2Q_nonpositive in Hle.
    unfold Advance64 in H.
    rewrite Advance64_loop_exit in H by (apply Fltb_Fzero, Hle).
    injection H as <- <-.
    split; [intros i h Hi; discriminate Hi | intros Hstep; lra].
  - destruct (Advance64_result m_stepsize step fuel t updates Hm Hs Hnum
                ltac:(lia) H) as [Ht Hfull].
    split; [exact Hfull | intros _; exact Ht].
Qed.

(** [OnAdvance] goes through the sub-stepping loop of [Advance]: with
    the same two step sizes it ends when [Advance] ends, at the same [t],
    and it has then called [DoStepDynamics_FSI] once for each call of
    [Update] by [Advance]; the length of a sub-step is not passed on.  It
    makes no call when [step_size <= 0], it never ends when
    [m_step_size <= 0 < step_size], and it ends, after one call at least,
    when [0 < step_size <= (2 ^ 53 - 1) * m_step_size]. *)
Theorem OnAdvance64_follows_Advance64 (m_step_size step_size : binary64) :
  (forall fuel,
     OnAdvance64 fuel m_step_size step_size
     = (fun r => (r.1, length r.2)) <$> Advance64 fuel m_step_size step_size) /\
  ((F2Q step_size <= 0)%Q ->
   forall fuel, OnAdvance64 fuel m_step_size step_size = Some (Fzero, 0%nat)) /\
  ((F2Q m_step_size <= 0)%Q -> (0 < F2Q step_size)%Q ->
   forall fuel, OnAdvance64 fuel m_step_size step_size = None) /\
  (representable m_step_size -> representable step_size ->
   (0 < F2Q m_step_size)%Q -> (0 < F2Q step_size)%Q ->
   (F2Q step_size <= (2 ^ 53 - 1) * F2Q m_step_size)%Q ->
   exists (n : nat) (t : binary64) (fsi_steps : nat),
     (forall fuel, (n <= fuel)%nat ->
        OnAdvance64 fuel m_step_size step_size = Some (t, fsi_steps)) /\
     (F2Q t == F2Q step_size)%Q /\ (1 <= fsi_steps)%nat).
Proof.
  assert (Hrel : forall fuel,
            OnAdvance64 fuel m_step_size step_size
            = (fun r => (r.1, length r.2))
                <$> Advance64 fuel m_step_size step_size).
  { intros fuel. apply (OnAdvance64_loop_Advance64_loop fuel _ _ Fzero []). }
  split; [exact Hrel|]. split; [|split].
  - intros Hstep fuel. rewrite Hrel. unfold Advance64.
    rewrite Advance64_loop_exit by (apply Fltb_Fzero, Hstep). reflexivity.
  - intros Hm Hstep fuel. rewrite Hrel. unfold Advance64.
    rewrite Advance64_loop_stuck;
      [reflexivity | apply F2Q_nonpositive, Hm | apply F2Q_positive, Hstep
      | cbn; lia].
  - intros Hm Hs Hpos Hstep Hbound.
    assert (Hnum : 0 < Fnum m_step_size) by (apply F2Q_positive, Hpos).
    destruct (Advance64_terminates m_step_size step_size Hm Hs Hnum Hbound)
      as (n & [t updates] & Hr).
    exists n, t, (length updates).
    split; [intros fuel Hfuel; rewrite Hrel, (Hr fuel Hfuel); reflexivity|].
    pose proof (Hr n (Nat.le_refl n)) as Hn.
    destruct (Advance64_result m_step_size step_size n t updates Hm Hs Hnum
                ltac:(apply F2Q_positive, Hstep) Hn) as [Ht _].
    split; [exact Ht|].
    destruct updates as [|h updates]; [|cbn; lia]. exfalso.
    assert (Hstart : Fltb Fzero step_size = true).
    { apply Fltb_spec. assert (H0 : (F2Q Fzero == 0)%Q) by reflexivity.
      rewrite H0. exact Hstep. }
    unfold Advance64 in Hn. destruct n as [|n].
    + cbn in Hn. rewrite Hstart in Hn. discriminate Hn.
    + rewrite (Advance64_loop_iterate _ _ _ _ _ Hstart) in Hn.
      apply Advance64_loop_extends in Hn as [new Hnew].
      cbn in Hnew. discriminate Hnew.
Qed.

Example Advance64_example :
  (fun r => (r.1, length r.2)) <$> Advance64 11 double_0_1 double_1
  = Some (Float64 (2 ^ 53) (-53), 11%nat).
Proof. vm_compute. reflexivity. Qed.

Example Advance64_example_out_of_fuel : Advance64 10 double_0_1 double_1 = None.
Proof. vm_compute. reflexivity. Qed.

(** Runs of the loop agree with those on the numbers of [SpecFloat]:
    11 sub-steps for [0.1] and [1.0], 3 for [1.0 / 3] and [1.0], 100 for
    [0.001] and [0.1], 5 for [0.01] and [0.05]. *)
Example Advance64_spec_float_0_1 :
  Advance64_as_spec_float 11 double_0_1 double_1
  = Advance_spec_float 11 double_0_1 double_1 /\
  (fun r : binary64 * list binary64 => length r.2)
    <$> Advance64 11 double_0_1 double_1 = Some 11%nat.
Proof. split; vm_compute; reflexivity. Qed.

Example Advance64_spec_float_1_3 :
  Advance64_as_spec_float 3 double_1_3 double_1
  = Advance_spec_float 3 double_1_3 double_1 /\
  (fun r : binary64 * list binary64 => length r.2)
    <$> Advance64 3 double_1_3 double_1 = Some 3%nat.
Proof. split; vm_compute; reflexivity. Qed.

Example Advance64_spec_float_0_001 :
  Advance64_as_spec_float 100 double_0_001 double_0_1
  = Advance_spec_float 100 double_0_001 double_0_1 /\
  (fun r : binary64 * list binary64 => length r.2)
    <$> Advance64 100 double_0_001 double_0_1 = Some 100%nat.
Proof. split; vm_compute; reflexivity. Qed.

Example Advance64_spec_float_0_01 :
  Advance64_as_spec_float 5 double_0_01 double_0_05
  = Advance_spec_float 5 double_0_01 double_0_05 /\
  (fun r : binary64 * list binary64 => length r.2)
    <$> Advance64 5 double_0_01 double_0_05 = Some 5%nat.
Proof. split; vm_compute; reflexivity. Qed.

(** So does the iteration at [t = 2 ^ 53] with [m_stepsize = 1] and
    [step = 2 ^ 53 + 2]: the loop goes on, and [t + 1] is [t]. *)
Example stall_spec_float :
  SFltb (to_spec_float (Float64 (2 ^ 53) 0)) (to_spec_float stall_step) = true /\
  SFmin (to_spec_float stall_stepsize)
    (SFsub 53 1024 (to_spec_float stall_step) (to_spec_float (Float64 (2 ^ 53) 0)))
  = to_spec_float stall_stepsize /\
  SFadd 53 1024 (to_spec_float (Float64 (2 ^ 53) 0)) (to_spec_float stall_stepsize)
  = to_spec_float (Float64 (2 ^ 53) 0).
Proof. repeat split; vm_compute; reflexivity. Qed.

Example OnAdvance64_example :
  OnAdvance64 5 double_0_01 double_0_05 = Some (double_0_05, 5%nat).
Proof. vm_compute. reflexivity. Qed.

(** With [m_stepsize = 1] and [step = 2 ^ 53 + 2] the loop of [Advance]
    does not end: [t] goes up to [2 ^ 53] and stays there, as
    [2 ^ 53 + 1] rounds to [2 ^ 53]. *)
Lemma Advance_terminates_counterexample :
  representable stall_stepsize /\ representable stall_step /\
  (F2Q stall_stepsize == 1)%Q /\ (F2Q stall_step == 2 ^ 53 + 2)%Q /\
  ~ (exists fuel r, Advance64 fuel stall_stepsize stall_step = Some r).
Proof.
  split; [unfold representable; cbn; lia|].
  split; [unfold representable; cbn; lia|].
  split; [reflexivity|]. split; [reflexivity|].
  intros (fuel & r & H). unfold Advance64 in H.
  rewrite stall_loop in H; [discriminate H|].
  left. exists 0. split; [lia | reflexivity].
Qed.

(** [Advance(1.0)] with [m_stepsize = 0.1]. *)
Lemma Advance64_substeps_witness :
  representable double_0_1 /\ representable double_1 /\
  (0 < F2Q double_0_1)%Q /\
  (forall n : nat,
     Forall (fun h => (0 < F2Q h /\ F2Q h <= F2Q double_0_1)%Q)
       (Advance64_run n double_0_1 double_1 Fzero []).2) /\
  exists (n : nat) (t : binary64) (updates : list binary64),
    (forall fuel, (n <= fuel)%nat ->
       Advance64 fuel double_0_1 double_1 = Some (t, updates)) /\
    (F2Q t == F2Q double_1)%Q.
Proof.
  assert (Hm : representable double_0_1) by (unfold representable; cbn; lia).
  assert (Hs : representable double_1) by (unfold representable; cbn; lia).
  assert (Hpos : (0 < F2Q double_0_1)%Q) by reflexivity.
  split; [exact Hm|]. split; [exact Hs|]. split; [exact Hpos|].
  destruct (Advance64_substeps double_0_1 double_1 Hm Hs Hpos)
    as (Hbounds & _ & Hend & _).
  split; [exact Hbounds|].
  destruct Hend as (n & t & updates & Hr & Ht & _);
    [reflexivity | vm_compute; discriminate|].
  exists n, t, updates. split; [exact Hr | exact Ht].
Defined.

Lemma Advance64_full_substeps_witness :
  exists (t : binary64) (updates : list binary64),
    Advance64 11 double_0_1 double_1 = Some (t, updates) /\
    length updates = 11%nat /\
    (forall (i : nat) (h : binary64),
       updates !! i = Some h -> (S i < length updates)%nat -> h = double_0_1) /\
    (F2Q t == F2Q double_1)%Q.
Proof.
  assert (Hm : representable double_0_1) by (unfold representable; cbn; lia).
  assert (Hs : representable double_1) by (unfold representable; cbn; lia).
  assert (Hpos : (0 < F2Q double_0_1)%Q) by reflexivity.
  destruct (Advance64 11 double_0_1 double_1) as [[t updates]|] eqn:E;
    [|vm_compute in E; discriminate E].
  exists t, updates. split; [reflexivity|].
  destruct (Advance64_full_substeps double_0_1 double_1 11 t updates Hm Hs Hpos E)
    as [Hfull Ht].
  split; [vm_compute in E; injection E as <- <-; reflexivity|].
  split; [exact Hfull | apply Ht; reflexivity].
Defined.

Lemma OnAdvance64_follows_Advance64_witness :
  (F2Q double_0_05 <= (2 ^ 53 - 1) * F2Q double_0_01)%Q /\
  (forall fuel,
     OnAdvance64 fuel double_0_01 double_0_05
     = (fun r => (r.1, length r.2)) <$> Advance64 fuel double_0_01 double_0_05) /\
  exists (n : nat) (t : binary64) (fsi_steps : nat),
    (forall fuel, (n <= fuel)%nat ->
       OnAdvance64 fuel double_0_01 double_0_05 = Some (t, fsi_steps)) /\
    (1 <= fsi_steps)%nat.
Proof.
  assert (Hm : representable double_0_01) by (unfold representable; cbn; lia).
  assert (Hs : representable double_0_05) by (unfold representable; cbn; lia).
  assert (Hb : (F2Q double_0_05 <= (2 ^ 53 - 1) * F2Q double_0_01)%Q)
    by (vm_compute; discriminate).
  split; [exact Hb|].
  destruct (OnAdvance64_follows_Advance64 double_0_01 double_0_05)
    as (Hrel & _ & _ & Hend).
  split; [exact Hrel|].
  destruct (Hend Hm Hs ltac:(reflexivity) ltac:(reflexivity) Hb)
    as (n & t & k & Hr & _ & Hk).
  exists n, t, k. split; [exact Hr | exact Hk].
Defined.
